(** * Cloudlet placement: the candidate solution, its evaluator and the
      hybrid genetic algorithm

    A shallow embedding of [problem.py], [solution.py] and [ga.py].

    Modelling conventions.
    - Python floats are read as exact rationals ([Q]); the values that a
      float can take besides numbers ([inf], [-inf], [nan]) are kept in
      the type [fl], which is used wherever the code can produce them
      (distances, fitness, the history series).  Rounding is not
      modelled: the sums of demands are formed in the order in which
      the code adds them up, and what is proved of the capacity tests
      is stated through these sums and uses no law of addition.
      Decimal literals denote the rationals they spell;
      [math.sqrt(2)], which has no rational value, is taken at its
      binary64 value.
    - A Python [dict] is an association list in insertion order with
      pairwise distinct keys: assignment to an existing key keeps its
      position, assignment to a new key appends.
    - [PlacementSolution] objects and their two dictionaries live in a
      store and are handled through references, so that aliasing and
      in-place mutation are visible.
    - The [random] module is a tape of naturals read through a cursor.
    - [math.exp], [math.sqrt] and the draws of numpy's seeded generator
      are parameters of the definitions that use them.
    - A raised exception aborts the run: [Raise e]. *)

From Stdlib Require Import ZArith QArith Lia Lqa Bool List.
From stdpp Require Import list.
Import ListNotations.

Set Implicit Arguments.
Unset Strict Implicit.

(* ================================================================= *)
(** ** Numbers *)

Definition Qltb (x y : Q) : bool := negb (Qle_bool y x).

(** A float: a number, or one of the three special values. *)
Inductive fl : Type :=
| Fin (q : Q)
| PInf
| NInf
| NaN.

(** [a < b] on floats; every comparison with [nan] is false. *)
Definition fl_ltb (a b : fl) : bool :=
  match a, b with
  | Fin x, Fin y => Qltb x y
  | Fin _, PInf => true
  | NInf, Fin _ => true
  | NInf, PInf => true
  | _, _ => false
  end.

Definition fl_sub (a b : fl) : fl :=
  match a, b with
  | NaN, _ => NaN
  | _, NaN => NaN
  | Fin x, Fin y => Fin (x - y)%Q
  | PInf, PInf => NaN
  | NInf, NInf => NaN
  | PInf, _ => PInf
  | NInf, _ => NInf
  | Fin _, PInf => NInf
  | Fin _, NInf => PInf
  end.

Definition fl_neg (a : fl) : fl :=
  match a with
  | Fin x => Fin (- x)%Q
  | PInf => NInf
  | NInf => PInf
  | NaN => NaN
  end.

(** [math.sqrt(2)]: the binary64 number nearest to the square root of 2. *)
Definition math_sqrt_2 : Q := (6369051672525773 # 4503599627370496)%Q.

(* ================================================================= *)
(** ** Exceptions and results *)

Inductive exn : Type :=
| KeyError
| IndexError
| ValueError
| StopIteration
| ZeroDivisionError
| TypeError
| DanglingReference.

Inductive result (A : Type) : Type :=
| Ok (a : A)
| Raise (e : exn).
Arguments Ok {A} a.
Arguments Raise {A} e.

Definition rbind {A B} (c : result A) (k : A -> result B) : result B :=
  match c with
  | Ok a => k a
  | Raise e => Raise e
  end.

Notation "'try' x <- c1 ; c2" := (rbind c1 (fun x => c2))
  (at level 10, x name, c1 at level 100, c2 at level 200).
Notation "'try' ' pat <- c1 ; c2" :=
  (rbind c1 (fun x => match x with pat => c2 end))
  (at level 10, pat pattern, c1 at level 100, c2 at level 200).

(** [x / y] on numbers: Python raises on a zero divisor. *)
Definition py_div (x y : Q) : result Q :=
  if Qeq_bool y 0 then Raise ZeroDivisionError else Ok (x / y)%Q.

(** [a / t] for a float [a] and a number [t]. *)
Definition fl_div (a : fl) (t : Q) : result fl :=
  if Qeq_bool t 0 then Raise ZeroDivisionError
  else Ok match a with
          | Fin x => Fin (x / t)%Q
          | PInf => if Qltb 0 t then PInf else NInf
          | NInf => if Qltb 0 t then NInf else PInf
          | NaN => NaN
          end.

(** [l[i]] on a Python list: a negative index counts from the end. *)
Definition py_index {A} (l : list A) (i : Z) : result A :=
  let n := Z.of_nat (length l) in
  let j := if (i <? 0)%Z then (n + i)%Z else i in
  if (j <? 0)%Z then Raise IndexError
  else match nth_error l (Z.to_nat j) with
       | Some x => Ok x
       | None => Raise IndexError
       end.

(* ================================================================= *)
(** ** Dictionaries *)

Definition dict (V : Type) : Type := list (Z * V).

Fixpoint dict_get {V} (k : Z) (d : dict V) : option V :=
  match d with
  | [] => None
  | (k', v) :: d' => if (k =? k')%Z then Some v else dict_get k d'
  end.

(** [k in d] *)
Definition dict_mem {V} (k : Z) (d : dict V) : bool :=
  match dict_get k d with
  | Some _ => true
  | None => false
  end.

(** [d[k] = v] *)
Fixpoint dict_set {V} (k : Z) (v : V) (d : dict V) : dict V :=
  match d with
  | [] => [(k, v)]
  | (k', v') :: d' =>
      if (k =? k')%Z then (k', v) :: d' else (k', v') :: dict_set k v d'
  end.

Definition dict_keys {V} (d : dict V) : list Z := map fst d.
Definition dict_values {V} (d : dict V) : list V := map snd d.

(** [d[k]] *)
Definition dict_item {V} (k : Z) (d : dict V) : result V :=
  match dict_get k d with
  | Some v => Ok v
  | None => Raise KeyError
  end.

(** [d.get(k)] on a dictionary of optional values: an absent key and a
    key bound to [None] both give [None]. *)
Definition dict_get_or_none {V} (k : Z) (d : dict (option V)) : option V :=
  match dict_get k d with
  | Some v => v
  | None => None
  end.

(** [{k: None for k in ids}] *)
Definition dict_fromkeys (ids : list Z) : dict (option Z) :=
  fold_left (fun d k => dict_set k None d) ids [].

(* ================================================================= *)
(** ** The scenario ([problem.py]) *)

Record Device : Type := {
  dev_id : Z;
  dev_x : Q;
  dev_y : Q;
  cpu_demand : Q;
  memory_demand : Q;
  storage_demand : Q
}.

Record CloudletType : Type := {
  ct_id : Z;
  cpu_capacity : Q;
  memory_capacity : Q;
  storage_capacity : Q;
  coverage_radius : Q;
  base_cost : Q
}.

Record CandidatePoint : Type := {
  cp_id : Z;
  cp_x : Q;
  cp_y : Q;
  placement_cost_factor : Q
}.

Record CloudletPlacementProblem : Type := {
  devices : list Device;
  candidate_points : list CandidatePoint;
  cloudlet_types : list CloudletType;
  device_to_candidate_distances : list ((Z * Z) * Q)
}.

Fixpoint distance_lookup (k : Z * Z) (t : list ((Z * Z) * Q)) : option Q :=
  match t with
  | [] => None
  | ((d, c), v) :: t' =>
      if ((fst k =? d)%Z && (snd k =? c)%Z)%bool then Some v
      else distance_lookup k t'
  end.

(** [get_distance]: the stored distance, [inf] for an unknown pair. *)
Definition get_distance (p : CloudletPlacementProblem)
    (device_id candidate_id : Z) : fl :=
  match distance_lookup (device_id, candidate_id)
          (device_to_candidate_distances p) with
  | Some v => Fin v
  | None => PInf
  end.

(** *** Building a scenario *)

Definition set_distances (p : CloudletPlacementProblem)
    (t : list ((Z * Z) * Q)) : CloudletPlacementProblem :=
  {| devices := devices p; candidate_points := candidate_points p;
     cloudlet_types := cloudlet_types p;
     device_to_candidate_distances := t |}.

(** [t[(d, c)] = v] on the table of distances. *)
Fixpoint distance_set (k : Z * Z) (v : Q) (t : list ((Z * Z) * Q))
    : list ((Z * Z) * Q) :=
  match t with
  | [] => [(k, v)]
  | ((d, c), v') :: t' =>
      if ((fst k =? d)%Z && (snd k =? c)%Z)%bool then ((d, c), v) :: t'
      else ((d, c), v') :: distance_set k v t'
  end.

(** [l[:k]]: a negative [k] counts from the end. *)
Definition py_take {A} (k : Z) (l : list A) : list A :=
  if (k <? 0)%Z then take (Z.to_nat (Z.of_nat (length l) + k)) l
  else take (Z.to_nat k) l.

(** The table of [create_random_instance]: cpu, memory, storage,
    radius, cost. *)
Definition type_specs : list (Q * Q * Q * Q * Q) :=
  [(4, 8, 100, 150, 1000); (8, 16, 200, 200, 1800); (16, 32, 500, 300, 3200)]%Q.

Section Scenario.

(** [math.sqrt] on numbers. *)
Variable math_sqrt : Q -> Q.

(** [np.random.uniform(low, high)]: the draws of the generator after
    [np.random.seed(42)], by their position in the sequence. *)
Variable np_uniform : nat -> Q -> Q -> Q.

(** [calculate_distance] *)
Definition calculate_distance (x1 y1 x2 y2 : Q) : Q :=
  math_sqrt ((x1 - x2) ^ 2 + (y1 - y2) ^ 2)%Q.

(** The inner loop of [precompute_distances], for one device. *)
Definition distance_row (device : Device) (cands : list CandidatePoint)
    (t : list ((Z * Z) * Q)) : list ((Z * Z) * Q) :=
  fold_left (fun t candidate =>
    distance_set (dev_id device, cp_id candidate)
      (calculate_distance (dev_x device) (dev_y device)
         (cp_x candidate) (cp_y candidate)) t) cands t.

(** [precompute_distances]: the table gains or overwrites one entry
    for each device and each site, in that order. *)
Definition precompute_distances (p : CloudletPlacementProblem)
    : CloudletPlacementProblem :=
  set_distances p
    (fold_left (fun t device => distance_row device (candidate_points p) t)
       (devices p) (device_to_candidate_distances p)).

(** Device [i]: five draws, starting at draw [n]. *)
Definition random_device (i n : nat) : Device :=
  {| dev_id := Z.of_nat i;
     dev_x := np_uniform n 0 1000;
     dev_y := np_uniform (n + 1) 0 1000;
     cpu_demand := np_uniform (n + 2) (1 # 10) 2;
     memory_demand := np_uniform (n + 3) (1 # 2) 4;
     storage_demand := np_uniform (n + 4) 1 10 |}.

(** Site [i]: three draws, starting at draw [n]. *)
Definition random_candidate (i n : nat) : CandidatePoint :=
  {| cp_id := Z.of_nat i;
     cp_x := np_uniform n 0 1000;
     cp_y := np_uniform (n + 1) 0 1000;
     placement_cost_factor := np_uniform (n + 2) (8 # 10) (12 # 10) |}.

Definition type_of_spec (i : nat) (spec : Q * Q * Q * Q * Q) : CloudletType :=
  let '(cpu, mem, stor, radius, cost) := spec in
  {| ct_id := Z.of_nat i; cpu_capacity := cpu; memory_capacity := mem;
     storage_capacity := stor; coverage_radius := radius; base_cost := cost |}.

(** [create_random_instance]: the three lists are rebuilt, the table
    of distances of [self] is kept and filled. *)
Definition create_random_instance (self : CloudletPlacementProblem)
    (num_devices num_candidates num_cloudlet_types : Z)
    : CloudletPlacementProblem :=
  let nd := Z.to_nat num_devices in
  let nc := Z.to_nat num_candidates in
  precompute_distances
    {| devices := map (fun i => random_device i (5 * i)) (seq 0 nd);
       candidate_points :=
         map (fun i => random_candidate i (5 * nd + 3 * i)) (seq 0 nc);
       cloudlet_types :=
         imap type_of_spec (py_take num_cloudlet_types type_specs);
       device_to_candidate_distances := device_to_candidate_distances self |}.

End Scenario.

(* ================================================================= *)
(** ** The store and its monad *)

(** References are positions in the store. *)
Abbreviation loc := nat.

(** A [PlacementSolution] object: its two dictionaries are objects of
    their own, held by reference. *)
Record sol_obj : Type := {
  placement_map : loc;
  assignment_map : loc;
  total_cost : Q;
  total_latency : Q;
  fitness : fl;
  is_feasible : bool
}.

Record world : Type := {
  dicts : list (dict (option Z));
  sols : list sol_obj;
  tape : nat -> nat;
  cursor : nat
}.

Definition M (A : Type) : Type := world -> result (A * world).

Definition ret {A} (a : A) : M A := fun w => Ok (a, w).

Definition bind {A B} (c : M A) (k : A -> M B) : M B :=
  fun w => match c w with
           | Ok (a, w') => k a w'
           | Raise e => Raise e
           end.

Definition raise {A} (e : exn) : M A := fun _ => Raise e.

Definition lift {A} (r : result A) : M A :=
  fun w => match r with
           | Ok a => Ok (a, w)
           | Raise e => Raise e
           end.

Notation "'do' x <- c1 ; c2" := (bind c1 (fun x => c2))
  (at level 10, x name, c1 at level 100, c2 at level 200).
Notation "'do' ' pat <- c1 ; c2" :=
  (bind c1 (fun x => match x with pat => c2 end))
  (at level 10, pat pattern, c1 at level 100, c2 at level 200).
Notation "c1 ;; c2" := (bind c1 (fun _ => c2))
  (at level 100, c2 at level 200, right associativity).

Fixpoint for_each {A} (l : list A) (body : A -> M unit) : M unit :=
  match l with
  | [] => ret tt
  | x :: l' => body x ;; for_each l' body
  end.

Definition with_dicts (w : world) (ds : list (dict (option Z))) : world :=
  {| dicts := ds; sols := sols w; tape := tape w; cursor := cursor w |}.

Definition with_sols (w : world) (ss : list sol_obj) : world :=
  {| dicts := dicts w; sols := ss; tape := tape w; cursor := cursor w |}.

Definition alloc_dict (d : dict (option Z)) : M loc :=
  fun w => Ok (length (dicts w), with_dicts w (dicts w ++ [d])).

Definition read_dict (l : loc) : M (dict (option Z)) :=
  fun w => match dicts w !! l with
           | Some d => Ok (d, w)
           | None => Raise DanglingReference
           end.

Definition write_dict (l : loc) (d : dict (option Z)) : M unit :=
  fun w => match dicts w !! l with
           | Some _ => Ok (tt, with_dicts w (<[l := d]> (dicts w)))
           | None => Raise DanglingReference
           end.

Definition alloc_sol (o : sol_obj) : M loc :=
  fun w => Ok (length (sols w), with_sols w (sols w ++ [o])).

Definition read_sol (r : loc) : M sol_obj :=
  fun w => match sols w !! r with
           | Some o => Ok (o, w)
           | None => Raise DanglingReference
           end.

Definition write_sol (r : loc) (o : sol_obj) : M unit :=
  fun w => match sols w !! r with
           | Some _ => Ok (tt, with_sols w (<[r := o]> (sols w)))
           | None => Raise DanglingReference
           end.

(** [d[k] = v] on the dictionary object at [l]. *)
Definition dict_store (l : loc) (k : Z) (v : option Z) : M unit :=
  do d <- read_dict l;
  write_dict l (dict_set k v d).

(* ================================================================= *)
(** ** The [random] module *)

Definition draw : M nat :=
  fun w => Ok (tape w (cursor w),
               {| dicts := dicts w; sols := sols w; tape := tape w;
                  cursor := S (cursor w) |}).

(** [random.random()]: a number in [[0, 1)]. *)
Definition random_random : M Q :=
  do a <- draw;
  do b <- draw;
  ret (Z.of_nat (a mod S b) # Pos.of_succ_nat b)%Q.

(** [random.randint(a, b)]: an integer in [[a, b]]. *)
Definition random_randint (a b : Z) : M Z :=
  if (b <? a)%Z then raise ValueError
  else do n <- draw; ret (a + Z.of_nat n mod (b - a + 1))%Z.

(** [random.choice(l)] *)
Definition random_choice {A} (l : list A) : M A :=
  match l with
  | [] => raise IndexError
  | _ :: _ =>
      do n <- draw;
      match nth_error l (n mod length l) with
      | Some x => ret x
      | None => raise IndexError
      end
  end.

Fixpoint remove_nth {A} (i : nat) (l : list A) : list A :=
  match i, l with
  | _, [] => []
  | O, _ :: l' => l'
  | S i', x :: l' => x :: remove_nth i' l'
  end.

Fixpoint sample_from {A} (k : nat) (l : list A) : M (list A) :=
  match k with
  | O => ret []
  | S k' =>
      do n <- draw;
      let i := n mod length l in
      match nth_error l i with
      | Some x => do r <- sample_from k' (remove_nth i l); ret (x :: r)
      | None => raise ValueError
      end
  end.

(** [random.sample(l, k)]: [k] elements at distinct positions. *)
Definition random_sample {A} (l : list A) (k : nat) : M (list A) :=
  if (length l <? k)%nat then raise ValueError else sample_from k l.

(** [random.shuffle(l)], returning the shuffled list. *)
Definition random_shuffle {A} (l : list A) : M (list A) :=
  sample_from (length l) l.

(* ================================================================= *)
(** ** The candidate solution ([solution.py]) *)

(** [PlacementSolution.__init__] *)
Definition new_solution (p : CloudletPlacementProblem) : M loc :=
  do pm <- alloc_dict (dict_fromkeys (map cp_id (candidate_points p)));
  do am <- alloc_dict (dict_fromkeys (map dev_id (devices p)));
  alloc_sol {| placement_map := pm; assignment_map := am;
               total_cost := 0; total_latency := 0;
               fitness := Fin 0; is_feasible := false |}.

Definition set_placement_map (o : sol_obj) (l : loc) : sol_obj :=
  {| placement_map := l; assignment_map := assignment_map o;
     total_cost := total_cost o; total_latency := total_latency o;
     fitness := fitness o; is_feasible := is_feasible o |}.

Definition set_assignment_map (o : sol_obj) (l : loc) : sol_obj :=
  {| placement_map := placement_map o; assignment_map := l;
     total_cost := total_cost o; total_latency := total_latency o;
     fitness := fitness o; is_feasible := is_feasible o |}.

(** The four derived fields, stored together. *)
Definition set_scores (o : sol_obj) (c l : Q) (f : fl) (b : bool) : sol_obj :=
  {| placement_map := placement_map o; assignment_map := assignment_map o;
     total_cost := c; total_latency := l; fitness := f; is_feasible := b |}.

(** [clone]: a new object with copies of both dictionaries. *)
Definition clone (p : CloudletPlacementProblem) (self : loc) : M loc :=
  do o <- read_sol self;
  do new <- new_solution p;
  do pd <- read_dict (placement_map o);
  do pm <- alloc_dict pd;
  do n1 <- read_sol new;
  write_sol new (set_placement_map n1 pm) ;;
  do ad <- read_dict (assignment_map o);
  do am <- alloc_dict ad;
  do n2 <- read_sol new;
  write_sol new (set_assignment_map n2 am) ;;
  do n3 <- read_sol new;
  write_sol new (set_scores n3 (total_cost o) (total_latency o)
                   (fitness o) (is_feasible o)) ;;
  ret new.

(** [place_cloudlet] *)
Definition place_cloudlet (self : loc) (candidate_id cloudlet_type_id : Z)
    : M unit :=
  do o <- read_sol self;
  do pd <- read_dict (placement_map o);
  if dict_mem candidate_id pd
  then dict_store (placement_map o) candidate_id (Some cloudlet_type_id)
  else ret tt.

Definition is_some_eq (v : option Z) (c : Z) : bool :=
  match v with
  | Some x => (x =? c)%Z
  | None => false
  end.

(** [remove_cloudlet] *)
Definition remove_cloudlet (self : loc) (candidate_id : Z) : M unit :=
  do o <- read_sol self;
  do pd <- read_dict (placement_map o);
  if dict_mem candidate_id pd
  then
    dict_store (placement_map o) candidate_id None ;;
    do items <- read_dict (assignment_map o);
    for_each items (fun '(device_id, assigned) =>
      if is_some_eq assigned candidate_id
      then dict_store (assignment_map o) device_id None
      else ret tt)
  else ret tt.

(** [assign_device] *)
Definition assign_device (self : loc) (device_id candidate_id : Z) : M unit :=
  do o <- read_sol self;
  do pd <- read_dict (placement_map o);
  match dict_get candidate_id pd with
  | Some (Some _) => dict_store (assignment_map o) device_id (Some candidate_id)
  | _ => ret tt
  end.

(** The body of [get_devices_assigned_to], on the assignment dictionary. *)
Definition devices_assigned_to (p : CloudletPlacementProblem)
    (asg : dict (option Z)) (candidate_id : Z) : list Device :=
  let ids := map fst (List.filter (fun kv => is_some_eq (snd kv) candidate_id) asg) in
  List.filter (fun d => existsb (Z.eqb (dev_id d)) ids) (devices p).

(** [get_devices_assigned_to] *)
Definition get_devices_assigned_to (p : CloudletPlacementProblem)
    (self : loc) (candidate_id : Z) : M (list Device) :=
  do o <- read_sol self;
  do asg <- read_dict (assignment_map o);
  ret (devices_assigned_to p asg candidate_id).

(** *** [evaluate] *)

Record usage : Type := { u_cpu : Q; u_memory : Q; u_storage : Q }.

Definition zero_usage : usage := {| u_cpu := 0; u_memory := 0; u_storage := 0 |}.

Fixpoint rfold {A S} (f : S -> A -> result S) (l : list A) (s : S) : result S :=
  match l with
  | [] => Ok s
  | x :: l' => try s' <- f s x; rfold f l' s'
  end.

(** First loop: an entry that is [None], or names a site without a
    facility, clears the flag. *)
Definition check_entry (pl : dict (option Z)) (ok : bool)
    (kv : Z * option Z) : bool :=
  match snd kv with
  | None => false
  | Some cid =>
      match dict_get_or_none cid pl with
      | None => false
      | Some _ => ok
      end
  end.

(** [next(c for c in candidate_points if c.id == candidate_id)] *)
Definition find_candidate (p : CloudletPlacementProblem) (candidate_id : Z)
    : result CandidatePoint :=
  match find (fun c => (cp_id c =? candidate_id)%Z) (candidate_points p) with
  | Some c => Ok c
  | None => Raise StopIteration
  end.

(** Second loop: the cost of each placed facility, and a zeroed usage
    record for its site. *)
Definition add_cost (p : CloudletPlacementProblem) (st : Q * dict usage)
    (kv : Z * option Z) : result (Q * dict usage) :=
  match snd kv with
  | None => Ok st
  | Some tid =>
      try ct <- py_index (cloudlet_types p) tid;
      try cp <- find_candidate p (fst kv);
      Ok ((fst st + base_cost ct * placement_cost_factor cp)%Q,
          dict_set (fst kv) zero_usage (snd st))
  end.

Definition add_usage (u : usage) (d : Device) : usage :=
  {| u_cpu := (u_cpu u + cpu_demand d)%Q;
     u_memory := (u_memory u + memory_demand d)%Q;
     u_storage := (u_storage u + storage_demand d)%Q |}.

(** Third loop, over the devices; the state is the flag, the usage
    table and the latency so far. *)
Definition serve_device (p : CloudletPlacementProblem)
    (pl asg : dict (option Z)) (st : bool * dict usage * Q) (d : Device)
    : result (bool * dict usage * Q) :=
  let '(ok, ru, lat) := st in
  match dict_get_or_none (dev_id d) asg with
  | None => Ok (false, ru, lat)
  | Some cid =>
      match dict_get_or_none cid pl with
      | None => Ok (false, ru, lat)
      | Some tid =>
          try ct <- py_index (cloudlet_types p) tid;
          match get_distance p (dev_id d) cid with
          | Fin distance =>
              if Qltb (coverage_radius ct) distance then Ok (false, ru, lat)
              else
                try u <- dict_item cid ru;
                Ok (ok, dict_set cid (add_usage u d) ru, (lat + distance)%Q)
          | _ => Ok (false, ru, lat) (* [inf] exceeds every radius *)
          end
      end
  end.

Definition exceeds (u : usage) (ct : CloudletType) : bool :=
  Qltb (cpu_capacity ct) (u_cpu u)
  || Qltb (memory_capacity ct) (u_memory u)
  || Qltb (storage_capacity ct) (u_storage u).

(** Fourth loop: [true] when some site's usage exceeds a capacity (the
    loop stops at the first such site). *)
Fixpoint over_capacity (p : CloudletPlacementProblem) (pl : dict (option Z))
    (items : list (Z * usage)) : result bool :=
  match items with
  | [] => Ok false
  | (cid, u) :: rest =>
      try t <- dict_item cid pl;
      match t with
      | None => Raise TypeError
      | Some tid =>
          try ct <- py_index (cloudlet_types p) tid;
          if exceeds u ct then Ok true else over_capacity p pl rest
      end
  end.

Definition is_none (v : option Z) : bool :=
  match v with
  | None => true
  | Some _ => false
  end.

(** [sum(ct.base_cost * 1.2 for ct in cloudlet_types)] *)
Definition max_possible_cost (p : CloudletPlacementProblem) : Q :=
  fold_left (fun s ct => (s + base_cost ct * (12 # 10))%Q) (cloudlet_types p) 0%Q.

(** [len(devices) * 1000 * math.sqrt(2)] *)
Definition max_possible_latency (p : CloudletPlacementProblem) : Q :=
  (inject_Z (Z.of_nat (length (devices p))) * 1000 * math_sqrt_2)%Q.

Definition score (p : CloudletPlacementProblem) (alpha cost lat : Q)
    (ok : bool) : result fl :=
  if ok then
    try normalized_cost <- py_div cost (max_possible_cost p);
    try normalized_latency <- py_div lat (max_possible_latency p);
    Ok (Fin (alpha * normalized_cost + (1 - alpha) * normalized_latency)%Q)
  else Ok PInf.

(** The computation of [evaluate] on the contents of the two
    dictionaries: total cost, total latency, feasibility and fitness.
    The running totals are local here and stored in the object when the
    method returns; nothing reads the object in between. *)
Definition evaluate_maps (p : CloudletPlacementProblem) (alpha : Q)
    (pl asg : dict (option Z)) : result (Q * Q * bool * fl) :=
  let ok1 := fold_left (check_entry pl) asg true in
  try '(cost, ru0) <- rfold (add_cost p) pl (0%Q, []);
  try '(ok3, ru, lat) <- rfold (serve_device p pl asg) (devices p) (ok1, ru0, 0%Q);
  try over <- over_capacity p pl ru;
  let ok4 := if over then false else ok3 in
  let ok := if existsb is_none (dict_values asg) then false else ok4 in
  try fit <- score p alpha cost lat ok;
  Ok (cost, lat, ok, fit).

(** [evaluate] *)
Definition evaluate (p : CloudletPlacementProblem) (alpha : Q) (self : loc)
    : M fl :=
  do o <- read_sol self;
  do pl <- read_dict (placement_map o);
  do asg <- read_dict (assignment_map o);
  do '(cost, lat, ok, fit) <- lift (evaluate_maps p alpha pl asg);
  write_sol self (set_scores o cost lat fit ok) ;;
  ret fit.

(* ================================================================= *)
(** ** The engine ([ga.py]) *)

Record HybridGeneticAlgorithm : Type := {
  problem : CloudletPlacementProblem;
  population_size : nat;
  generations : nat;
  crossover_rate : Q;
  mutation_rate : Q;
  alpha : Q;
  use_sa : bool;
  population : list loc;
  best_solution : option loc;
  fitness_history : list fl;
  cost_history : list fl;
  latency_history : list fl
}.

(** [HybridGeneticAlgorithm.__init__] *)
Definition new_engine (p : CloudletPlacementProblem) (psize gens : nat)
    (cr mr al : Q) (sa : bool) : HybridGeneticAlgorithm :=
  {| problem := p; population_size := psize; generations := gens;
     crossover_rate := cr; mutation_rate := mr; alpha := al; use_sa := sa;
     population := []; best_solution := None;
     fitness_history := []; cost_history := []; latency_history := [] |}.

Definition set_population (ga : HybridGeneticAlgorithm) (pop : list loc)
    : HybridGeneticAlgorithm :=
  {| problem := problem ga; population_size := population_size ga;
     generations := generations ga; crossover_rate := crossover_rate ga;
     mutation_rate := mutation_rate ga; alpha := alpha ga;
     use_sa := use_sa ga;
     population := pop; best_solution := best_solution ga;
     fitness_history := fitness_history ga; cost_history := cost_history ga;
     latency_history := latency_history ga |}.

Definition set_best_solution (ga : HybridGeneticAlgorithm) (b : option loc)
    : HybridGeneticAlgorithm :=
  {| problem := problem ga; population_size := population_size ga;
     generations := generations ga; crossover_rate := crossover_rate ga;
     mutation_rate := mutation_rate ga; alpha := alpha ga;
     use_sa := use_sa ga;
     population := population ga; best_solution := b;
     fitness_history := fitness_history ga; cost_history := cost_history ga;
     latency_history := latency_history ga |}.

(** The three [append]s of one generation. *)
Definition record_history (ga : HybridGeneticAlgorithm) (f c l : list fl)
    : HybridGeneticAlgorithm :=
  {| problem := problem ga; population_size := population_size ga;
     generations := generations ga; crossover_rate := crossover_rate ga;
     mutation_rate := mutation_rate ga; alpha := alpha ga;
     use_sa := use_sa ga;
     population := population ga; best_solution := best_solution ga;
     fitness_history := fitness_history ga ++ f;
     cost_history := cost_history ga ++ c;
     latency_history := latency_history ga ++ l |}.

(** *** Comprehensions, [min] and [sorted] *)

Fixpoint filter_m {A} (f : A -> M bool) (l : list A) : M (list A) :=
  match l with
  | [] => ret []
  | x :: l' =>
      do b <- f x;
      do r <- filter_m f l';
      ret (if b then x :: r else r)
  end.

Fixpoint map_m {A B} (f : A -> M B) (l : list A) : M (list B) :=
  match l with
  | [] => ret []
  | x :: l' => do y <- f x; do r <- map_m f l'; ret (y :: r)
  end.

Fixpoint fold_m {A S} (f : S -> A -> M S) (l : list A) (s : S) : M S :=
  match l with
  | [] => ret s
  | x :: l' => do s' <- f s x; fold_m f l' s'
  end.

Fixpoint repeat_m {A} (n : nat) (c : M A) : M (list A) :=
  match n with
  | O => ret []
  | S n' => do x <- c; do r <- repeat_m n' c; ret (x :: r)
  end.

(** [a <= b] on floats. *)
Definition fl_leb (a b : fl) : bool :=
  match a, b with
  | Fin x, Fin y => Qle_bool x y
  | Fin _, PInf => true
  | NInf, Fin _ => true
  | NInf, PInf => true
  | PInf, PInf => true
  | NInf, NInf => true
  | _, _ => false
  end.

(** [min(x :: l, key=key)]: the first element with the least key. *)
Fixpoint min_by {A} (key : A -> fl) (best : A) (l : list A) : A :=
  match l with
  | [] => best
  | x :: l' => min_by key (if fl_ltb (key x) (key best) then x else best) l'
  end.

Fixpoint insert_by {A} (key : A -> fl) (x : A) (l : list A) : list A :=
  match l with
  | [] => [x]
  | y :: l' =>
      if fl_ltb (key y) (key x) then y :: insert_by key x l' else x :: y :: l'
  end.

(** [sorted(l, key=key)]: a stable sort. *)
Definition sorted_by {A} (key : A -> fl) (l : list A) : list A :=
  fold_right (insert_by key) [] l.

(** [self.placement_map[k]] and [self.assignment_map[k]], read and written. *)
Definition placement_item (self : loc) (k : Z) : M (option Z) :=
  do o <- read_sol self;
  do d <- read_dict (placement_map o);
  lift (dict_item k d).

Definition assignment_item (self : loc) (k : Z) : M (option Z) :=
  do o <- read_sol self;
  do d <- read_dict (assignment_map o);
  lift (dict_item k d).

Definition placement_store (self : loc) (k : Z) (v : option Z) : M unit :=
  do o <- read_sol self;
  dict_store (placement_map o) k v.

Definition assignment_store (self : loc) (k : Z) (v : option Z) : M unit :=
  do o <- read_sol self;
  dict_store (assignment_map o) k v.

(** [[(s, s.fitness) for s in l]] *)
Definition with_fitness (l : list loc) : M (list (loc * fl)) :=
  map_m (fun r => do o <- read_sol r; ret (r, fitness o)) l.

(** [[s for s in l if s.is_feasible]] *)
Definition feasible_members (l : list loc) : M (list loc) :=
  filter_m (fun r => do o <- read_sol r; ret (is_feasible o)) l.

(** [min(l, key=lambda s: s.fitness)] *)
Definition min_fitness (l : list loc) : M loc :=
  do keyed <- with_fitness l;
  match keyed with
  | [] => raise ValueError
  | x :: rest => ret (fst (min_by snd x rest))
  end.

(** [sum(f(d) for d in l)]: the demands added from the left, starting
    from 0. *)
Definition sum_of (f : Device -> Q) (l : list Device) : Q :=
  fold_left (fun s d => (s + f d)%Q) l 0%Q.

(** The three-fold capacity test of [repair_solution] and
    [reassign_devices]: the demand of the device is added last to the
    sum of those assigned. *)
Definition fits (assigned : list Device) (device : Device) (ct : CloudletType)
    : bool :=
  Qle_bool (sum_of cpu_demand assigned + cpu_demand device) (cpu_capacity ct)
  && Qle_bool (sum_of memory_demand assigned + memory_demand device)
       (memory_capacity ct)
  && Qle_bool (sum_of storage_demand assigned + storage_demand device)
       (storage_capacity ct).

(** [min(feasible, key=lambda c: get_distance(device.id, c.id))], then
    [assign_device]; nothing when [feasible] is empty. *)
Definition nearest (p : CloudletPlacementProblem) (device : Device)
    (c0 : CandidatePoint) (rest : list CandidatePoint) : CandidatePoint :=
  min_by (fun c => get_distance p (dev_id device) (cp_id c)) c0 rest.

(** *** [repair_solution] *)

(** The test under which [repair_solution] keeps an occupied site for a
    device. *)
Definition can_serve (p : CloudletPlacementProblem) (repaired : loc)
    (device : Device) (candidate : CandidatePoint) : M bool :=
  do t <- placement_item repaired (cp_id candidate);
  match t with
  | None => raise TypeError
  | Some ct_id =>
      do ct <- lift (py_index (cloudlet_types p) ct_id);
      let distance := get_distance p (dev_id device) (cp_id candidate) in
      if fl_leb distance (Fin (coverage_radius ct)) then
        do assigned <- get_devices_assigned_to p repaired (cp_id candidate);
        ret (fits assigned device ct)
      else ret false
  end.

(** The fallback of [repair_solution] at one site: when the site is
    empty, the first type whose radius reaches the device is placed and
    the device assigned there. *)
Definition force_place (p : CloudletPlacementProblem) (repaired : loc)
    (device : Device) (candidate : CandidatePoint) : M unit :=
  do t <- placement_item repaired (cp_id candidate);
  if is_none t then
    let distance := get_distance p (dev_id device) (cp_id candidate) in
    match find (fun ct => fl_leb distance (Fin (coverage_radius ct)))
            (cloudlet_types p) with
    | Some ct =>
        place_cloudlet repaired (cp_id candidate) (ct_id ct) ;;
        assign_device repaired (dev_id device) (cp_id candidate)
    | None => ret tt
    end
  else ret tt.

Definition repair_device (p : CloudletPlacementProblem) (repaired : loc)
    (device : Device) : M unit :=
  do candidate_with_cloudlets <-
    filter_m (fun c => do t <- placement_item repaired (cp_id c);
                       ret (negb (is_none t))) (candidate_points p);
  do feasible <- filter_m (can_serve p repaired device) candidate_with_cloudlets;
  match feasible with
  | c0 :: rest =>
      assign_device repaired (dev_id device) (cp_id (nearest p device c0 rest))
  | [] => for_each (candidate_points p) (force_place p repaired device)
  end.

Definition repair_solution (ga : HybridGeneticAlgorithm) (solution : loc)
    : M loc :=
  let p := problem ga in
  do repaired <- clone p solution;
  do unassigned <-
    filter_m (fun d => do a <- assignment_item repaired (dev_id d);
                       ret (is_none a)) (devices p);
  for_each unassigned (repair_device p repaired) ;;
  evaluate p (alpha ga) repaired ;;
  ret repaired.

(** *** [create_random_solution] *)

Definition covers (p : CloudletPlacementProblem) (solution : loc)
    (device : Device) (candidate : CandidatePoint) : M bool :=
  do t <- placement_item solution (cp_id candidate);
  match t with
  | None => ret false
  | Some ct_id =>
      do ct <- lift (py_index (cloudlet_types p) ct_id);
      ret (fl_leb (get_distance p (dev_id device) (cp_id candidate))
             (Fin (coverage_radius ct)))
  end.

Definition create_random_solution (ga : HybridGeneticAlgorithm) : M loc :=
  let p := problem ga in
  do solution <- new_solution p;
  do num_cloudlets <-
    random_randint 1 (Z.min (Z.of_nat (length (candidate_points p)))
                            (Z.of_nat (length (cloudlet_types p)) * 2));
  do selected_candidates <-
    random_sample (candidate_points p) (Z.to_nat num_cloudlets);
  for_each selected_candidates (fun candidate =>
    do cloudlet_type <- random_choice (cloudlet_types p);
    place_cloudlet solution (cp_id candidate) (ct_id cloudlet_type)) ;;
  do unassigned_devices <- random_shuffle (devices p);
  for_each unassigned_devices (fun device =>
    do feasible <- filter_m (covers p solution device) (candidate_points p);
    match feasible with
    | c0 :: rest =>
        assign_device solution (dev_id device) (cp_id (nearest p device c0 rest))
    | [] => ret tt
    end) ;;
  evaluate p (alpha ga) solution ;;
  do o <- read_sol solution;
  if is_feasible o then ret solution else repair_solution ga solution.

(** *** [tournament_selection] *)

Definition tournament_selection (ga : HybridGeneticAlgorithm)
    (tournament_size : nat) : M loc :=
  do tournament <- random_sample (population ga) tournament_size;
  min_fitness tournament.

(** *** [reassign_devices] *)

Definition try_site (p : CloudletPlacementProblem) (new_solution : loc)
    (device : Device) (best : option Z * fl) (candidate : CandidatePoint)
    : M (option Z * fl) :=
  do t <- placement_item new_solution (cp_id candidate);
  match t with
  | None => ret best
  | Some ct_id =>
      do ct <- lift (py_index (cloudlet_types p) ct_id);
      let dist := get_distance p (dev_id device) (cp_id candidate) in
      if fl_leb dist (Fin (coverage_radius ct)) then
        do assigned <- get_devices_assigned_to p new_solution (cp_id candidate);
        if fits assigned device ct then
          if fl_ltb dist (snd best) then ret (Some (cp_id candidate), dist)
          else ret best
        else ret best
      else ret best
  end.

Definition reassign_devices (ga : HybridGeneticAlgorithm) (solution : loc)
    : M loc :=
  let p := problem ga in
  do new_solution <- clone p solution;
  do o <- read_sol new_solution;
  do asg <- read_dict (assignment_map o);
  for_each (dict_keys asg) (fun device_id =>
    assignment_store new_solution device_id None) ;;
  for_each (devices p) (fun device =>
    do best <- fold_m (try_site p new_solution device) (candidate_points p)
                 (None, PInf);
    match fst best with
    | Some best_cand => assign_device new_solution (dev_id device) best_cand
    | None => ret tt
    end) ;;
  ret new_solution.

(** *** [crossover] *)

(** [range(a, b)] *)
Definition py_range (a b : Z) : list Z :=
  map (fun i => (a + Z.of_nat i)%Z) (seq 0 (Z.to_nat (b - a))).

Definition swap_segment (parent1 parent2 child1 child2 : loc)
    (keys : list Z) (i : Z) : M unit :=
  do k <- lift (py_index keys i);
  do v2 <- placement_item parent2 k;
  do v1 <- placement_item parent1 k;
  placement_store child1 k v2 ;;
  placement_store child2 k v1.

Definition crossover (ga : HybridGeneticAlgorithm) (parent1 parent2 : loc)
    : M (loc * loc) :=
  let p := problem ga in
  do child1 <- clone p parent1;
  do child2 <- clone p parent2;
  do u <- random_random;
  do '(child1, child2) <-
    (if Qltb u (crossover_rate ga) then
       do o1 <- read_sol parent1;
       do pd1 <- read_dict (placement_map o1);
       let keys := dict_keys pd1 in
       let n := Z.of_nat (length keys) in
       if (2 <=? n)%Z then
         do p1 <- random_randint 0 (n - 2);
         do p2 <- random_randint (p1 + 1) (n - 1);
         for_each (py_range p1 (p2 + 1))
           (swap_segment parent1 parent2 child1 child2 keys) ;;
         do c1 <- reassign_devices ga child1;
         do c2 <- reassign_devices ga child2;
         ret (c1, c2)
       else ret (child1, child2)
     else ret (child1, child2));
  evaluate p (alpha ga) child1 ;;
  evaluate p (alpha ga) child2 ;;
  ret (child1, child2).

(** *** [mutate] *)

Inductive mutation_type : Type := MAdd | MRemove | MChange | MSwap.

(** [[cid for cid, ct in placement_map.items() if ct is not None]] *)
Definition used_sites (self : loc) : M (list Z) :=
  do o <- read_sol self;
  do pd <- read_dict (placement_map o);
  ret (map fst (List.filter (fun kv => negb (is_none (snd kv))) pd)).

Definition differs (current : option Z) (t : Z) : bool :=
  match current with
  | Some c => negb (t =? c)%Z
  | None => true
  end.

Definition apply_mutation (p : CloudletPlacementProblem) (mutated : loc)
    (mt : mutation_type) : M unit :=
  match mt with
  | MAdd =>
      do unused <-
        filter_m (fun c => do t <- placement_item mutated (cp_id c);
                           ret (is_none t)) (candidate_points p);
      match unused with
      | [] => ret tt
      | _ :: _ =>
          do c <- random_choice unused;
          do ct <- random_choice (cloudlet_types p);
          place_cloudlet mutated (cp_id c) (ct_id ct)
      end
  | MRemove =>
      do used <- used_sites mutated;
      match used with
      | [] => ret tt
      | _ :: _ => do cid <- random_choice used; remove_cloudlet mutated cid
      end
  | MChange =>
      do used <- used_sites mutated;
      match used with
      | [] => ret tt
      | _ :: _ =>
          do cid <- random_choice used;
          do current <- placement_item mutated cid;
          let avail :=
            map ct_id (List.filter (fun ct => differs current (ct_id ct))
                         (cloudlet_types p)) in
          match avail with
          | [] => ret tt
          | _ :: _ => do t <- random_choice avail; place_cloudlet mutated cid t
          end
      end
  | MSwap =>
      do used <- used_sites mutated;
      if (2 <=? length used)%nat then
        do pair <- random_sample used 2;
        match pair with
        | [c1; c2] =>
            do t1 <- placement_item mutated c1;
            do t2 <- placement_item mutated c2;
            placement_store mutated c1 t2 ;;
            placement_store mutated c2 t1
        | _ => raise ValueError
        end
      else ret tt
  end.

Definition mutate (ga : HybridGeneticAlgorithm) (solution : loc) : M loc :=
  let p := problem ga in
  do mutated <- clone p solution;
  do u <- random_random;
  do mutated <-
    (if Qltb u (mutation_rate ga) then
       do mt <- random_choice [MAdd; MRemove; MChange; MSwap];
       apply_mutation p mutated mt ;;
       reassign_devices ga mutated
     else ret mutated);
  evaluate p (alpha ga) mutated ;;
  ret mutated.

(** *** [update_best_solution] *)

Definition update_best_solution (ga : HybridGeneticAlgorithm)
    : M HybridGeneticAlgorithm :=
  do feasible <- feasible_members (population ga);
  match feasible with
  | [] => ret ga
  | _ :: _ =>
      do current_best <- min_fitness feasible;
      do cb <- read_sol current_best;
      match best_solution ga with
      | None =>
          do c <- clone (problem ga) current_best;
          ret (set_best_solution ga (Some c))
      | Some b =>
          do bo <- read_sol b;
          if fl_ltb (fitness cb) (fitness bo) then
            do c <- clone (problem ga) current_best;
            ret (set_best_solution ga (Some c))
          else ret ga
      end
  end.

(** [initialize_population] *)
Definition initialize_population (ga : HybridGeneticAlgorithm)
    : M HybridGeneticAlgorithm :=
  do pop <- repeat_m (population_size ga) (create_random_solution ga);
  update_best_solution (set_population ga pop).

Section Engine.

(** [math.exp] on numbers. *)
Variable math_exp : Q -> Q.

Definition fl_exp (a : fl) : fl :=
  match a with
  | Fin x => Fin (math_exp x)
  | PInf => PInf
  | NInf => Fin 0
  | NaN => NaN
  end.

(** *** [simulated_annealing_improvement] *)

(** One pass of the loop body; the state is [current] and
    [current_fitness]. *)
Definition sa_step (ga : HybridGeneticAlgorithm) (temperature : Q)
    (st : loc * fl) : M (loc * fl) :=
  let '(current, current_fitness) := st in
  do neighbor <- mutate ga current;
  do n <- read_sol neighbor;
  if fl_ltb (fitness n) current_fitness then ret (neighbor, fitness n)
  else
    let delta := fl_sub (fitness n) current_fitness in
    do u <- random_random;
    do x <- lift (fl_div (fl_neg delta) temperature);
    if fl_ltb (Fin u) (fl_exp x) then ret (neighbor, fitness n)
    else ret (current, current_fitness).

Fixpoint iterate_m {S} (n : nat) (f : S -> M S) (s : S) : M S :=
  match n with
  | O => ret s
  | S n' => do s' <- f s; iterate_m n' f s'
  end.

Definition simulated_annealing_improvement (ga : HybridGeneticAlgorithm)
    (solution : loc) (temperature : Q) : M loc :=
  if negb (use_sa ga) || Qltb temperature (1 # 10) then ret solution
  else
    do current <- clone (problem ga) solution;
    do o <- read_sol current;
    do st <- iterate_m 5 (sa_step ga temperature) (current, fitness o);
    ret (fst st).

(** *** [evolve] *)

Definition repair_if_infeasible (ga : HybridGeneticAlgorithm) (c : loc)
    : M loc :=
  do o <- read_sol c;
  if is_feasible o then ret c else repair_solution ga c.

(** One pass of the [while] loop: two parents, two children. *)
Definition breed_pair (ga : HybridGeneticAlgorithm) (temperature : Q)
    : M (list loc) :=
  do p1 <- tournament_selection ga 3;
  do p2 <- tournament_selection ga 3;
  do '(c1, c2) <- crossover ga p1 p2;
  do c1 <- mutate ga c1;
  do c2 <- mutate ga c2;
  do '(c1, c2) <-
    (if use_sa ga then
       do c1 <- simulated_annealing_improvement ga c1 temperature;
       do c2 <- simulated_annealing_improvement ga c2 temperature;
       ret (c1, c2)
     else ret (c1, c2));
  do c1 <- repair_if_infeasible ga c1;
  do c2 <- repair_if_infeasible ga c2;
  ret [c1; c2].

(** [while len(new_population) < population_size]: each pass adds two
    members, so [population_size - len(new_population)] passes are
    enough; [fuel] starts at that number. *)
Fixpoint breed (ga : HybridGeneticAlgorithm) (temperature : Q) (fuel : nat)
    (new_population : list loc) : M (list loc) :=
  match fuel with
  | O => ret new_population
  | S fuel' =>
      if (length new_population <? population_size ga)%nat then
        do cs <- breed_pair ga temperature;
        breed ga temperature fuel' (new_population ++ cs)
      else ret new_population
  end.

(** The history entries of one generation. *)
Definition record_generation (ga : HybridGeneticAlgorithm)
    : M HybridGeneticAlgorithm :=
  do feasible <- feasible_members (population ga);
  do keyed <- with_fitness feasible;
  match map snd keyed with
  | f0 :: fs =>
      let best_fitness := min_by (fun f => f) f0 fs in
      match best_solution ga with
      | Some b =>
          do bo <- read_sol b;
          ret (record_history ga [best_fitness] [Fin (total_cost bo)]
                 [Fin (total_latency bo)])
      | None => ret (record_history ga [best_fitness] [] [])
      end
  | [] => ret (record_history ga [PInf] [PInf] [PInf])
  end.

(** The body of the generational loop. *)
Definition generation_step (ga : HybridGeneticAlgorithm) (generation : nat)
    : M HybridGeneticAlgorithm :=
  let temperature :=
    (1 - (inject_Z (Z.of_nat generation)
          / inject_Z (Z.of_nat (generations ga))))%Q in
  let elite_size := Nat.max 2 (population_size ga / 10) in
  do feasible <- feasible_members (population ga);
  do keyed <- with_fitness feasible;
  let sorted_pop := map fst (sorted_by snd keyed) in
  let new_population := take elite_size sorted_pop in
  do new_population <-
    breed ga temperature (population_size ga - length new_population)
      new_population;
  let ga := set_population ga (take (population_size ga) new_population) in
  do ga <- update_best_solution ga;
  record_generation ga.

(** Generations [0 .. n-1] of the loop. *)
Fixpoint run_generations (n : nat) (ga : HybridGeneticAlgorithm)
    : M HybridGeneticAlgorithm :=
  match n with
  | O => ret ga
  | S n' =>
      do ga' <- run_generations n' ga;
      generation_step ga' n'
  end.

(** [evolve]: the returned incumbent and the engine after the run. *)
Definition evolve (ga : HybridGeneticAlgorithm)
    : M (option loc * HybridGeneticAlgorithm) :=
  do ga <- initialize_population ga;
  do ga <- run_generations (generations ga) ga;
  ret (best_solution ga, ga).

End Engine.

(* ================================================================= *)
(** ** Specification-side notions *)

(** No key occurs twice. *)
Fixpoint distinct (l : list Z) : bool :=
  match l with
  | [] => true
  | x :: r => negb (existsb (Z.eqb x) r) && distinct r
  end.

(** Every key of the assignment dictionary is the id of a device. *)
Definition keys_are_devices (p : CloudletPlacementProblem)
    (asg : dict (option Z)) : bool :=
  forallb (fun k => existsb (fun d => (dev_id d =? k)%Z) (devices p))
    (dict_keys asg).

(** The site a device is assigned to, if any. *)
Definition assigned_site (asg : dict (option Z)) (d : Device) : option Z :=
  dict_get_or_none (dev_id d) asg.

Definition within (ds : list Device) (ct : CloudletType) : Prop :=
  (sum_of cpu_demand ds <= cpu_capacity ct)%Q
  /\ (sum_of memory_demand ds <= memory_capacity ct)%Q
  /\ (sum_of storage_demand ds <= storage_capacity ct)%Q.

(** The four clauses of feasibility, on the two mappings. *)
Record feasible_spec (p : CloudletPlacementProblem)
    (pl asg : dict (option Z)) : Prop := {
  all_assigned :
    forall d, In d (devices p) -> assigned_site asg d <> None;
  sites_occupied :
    forall d s, In d (devices p) -> assigned_site asg d = Some s ->
      dict_get_or_none s pl <> None;
  within_radius :
    forall d s t ct, In d (devices p) -> assigned_site asg d = Some s ->
      dict_get_or_none s pl = Some t ->
      py_index (cloudlet_types p) t = Ok ct ->
      fl_leb (get_distance p (dev_id d) s) (Fin (coverage_radius ct)) = true;
  within_capacity :
    forall s t ct, dict_get_or_none s pl = Some t ->
      py_index (cloudlet_types p) t = Ok ct ->
      within (devices_assigned_to p asg s) ct
}.


(** The entry test of the first loop of [evaluate]. *)
Definition entry_ok (pl : dict (option Z)) (kv : Z * option Z) : bool :=
  match snd kv with
  | None => false
  | Some cid => negb (is_none (dict_get_or_none cid pl))
  end.

(** A device passes the third loop: it has a site, the site has a type
    and the distance is within the radius. *)
Definition served (p : CloudletPlacementProblem) (pl asg : dict (option Z))
    (d : Device) (s : Z) : Prop :=
  assigned_site asg d = Some s /\
  exists t ct dist,
    dict_get_or_none s pl = Some t /\
    py_index (cloudlet_types p) t = Ok ct /\
    get_distance p (dev_id d) s = Fin dist /\
    Qltb (coverage_radius ct) dist = false.

(** The device's own entry names site [s]. *)
Definition at_site (asg : dict (option Z)) (s : Z) (d : Device) : bool :=
  is_some_eq (assigned_site asg d) s.



(** The fitness as the specification words it: cost normalised by the
    types' base costs at the largest site multiplier of the scenario,
    latency by the device count times the scenario's diagonal. *)
Definition max_site_multiplier (p : CloudletPlacementProblem) : Q :=
  fold_left (fun m c => if Qltb m (placement_cost_factor c)
                        then placement_cost_factor c else m)
    (candidate_points p) 0%Q.

Definition scenario_fitness (p : CloudletPlacementProblem)
    (al cost lat diagonal : Q) : Q :=
  (al * (cost / fold_left (fun s ct => s + base_cost ct * max_site_multiplier p)
                  (cloudlet_types p) 0)
   + (1 - al) * (lat / (inject_Z (Z.of_nat (length (devices p))) * diagonal)))%Q.

(** The sum of the types' base costs. *)
Definition total_base_cost (p : CloudletPlacementProblem) : Q :=
  fold_right (fun ct s => (base_cost ct + s)%Q) 0%Q (cloudlet_types p).

(** *** A small scenario: three devices on a line, one site, one type *)

Definition line_device (i : Z) (x demand : Q) : Device :=
  {| dev_id := i; dev_x := x; dev_y := 0;
     cpu_demand := demand; memory_demand := demand; storage_demand := demand |}.

Definition line_problem (capacity : Q) : CloudletPlacementProblem :=
  {| devices := [line_device 0 0 1; line_device 1 10 1; line_device 2 20 1];
     candidate_points :=
       [{| cp_id := 0; cp_x := 10; cp_y := 0; placement_cost_factor := 1 |}];
     cloudlet_types :=
       [{| ct_id := 0; cpu_capacity := capacity; memory_capacity := capacity;
           storage_capacity := capacity; coverage_radius := 15;
           base_cost := 100 |}];
     device_to_candidate_distances :=
       [((0, 0)%Z, 10%Q); ((1, 0)%Z, 0%Q); ((2, 0)%Z, 10%Q)] |}.

Definition blank_sol (pm am : loc) : sol_obj :=
  {| placement_map := pm; assignment_map := am; total_cost := 0;
     total_latency := 0; fitness := Fin 0; is_feasible := false |}.

(** A store with one solution: the facility placed, every device
    assigned to it. *)
Definition line_world : world :=
  {| dicts := [[(0%Z, Some 0%Z)];
               [(0%Z, Some 0%Z); (1%Z, Some 0%Z); (2%Z, Some 0%Z)]];
     sols := [blank_sol 0 1];
     tape := fun _ => 0;
     cursor := 0 |}.


(* ================================================================= *)
(** ** Framing *)

(** Between [w] and [w'] the objects below the marks [n] (solutions)
    and [m] (dictionaries) are untouched, and nothing is deallocated. *)
Definition stable (n m : nat) (w w' : world) : Prop :=
  (forall r, r < n -> sols w' !! r = sols w !! r) /\
  (forall l, l < m -> dicts w' !! l = dicts w !! l) /\
  length (sols w) <= length (sols w') /\
  length (dicts w) <= length (dicts w') /\
  tape w' = tape w.

(** The marks lie inside the store, a solution created after the mark
    holds dictionaries created after the mark, and every solution of
    the store satisfies [good]. *)
Definition owned (good : sol_obj -> Prop) (n m : nat) (w : world) : Prop :=
  n <= length (sols w) /\ m <= length (dicts w) /\
  (forall r o, n <= r -> sols w !! r = Some o ->
     m <= placement_map o /\ m <= assignment_map o) /\
  (forall r o, sols w !! r = Some o -> good o).

(** [c] writes only to objects above the marks, keeps [good], and its
    result satisfies [R]. *)
Definition safe (good : sol_obj -> Prop) (n m : nat) {A} (c : M A)
    (R : A -> Prop) : Prop :=
  forall w a w', owned good n m w -> c w = Ok (a, w') ->
    stable n m w w' /\ owned good n m w' /\ R a.

(** What a property of stored solutions must satisfy to be kept by the
    methods that write them. *)
Record kept (good : sol_obj -> Prop) : Prop := {
  kept_blank : forall pm am, good (blank_sol pm am);
  kept_placement_map : forall o l, good o -> good (set_placement_map o l);
  kept_assignment_map : forall o l, good o -> good (set_assignment_map o l);
  kept_copy : forall o o', good o -> good o' ->
    good (set_scores o' (total_cost o) (total_latency o) (fitness o)
            (is_feasible o));
  kept_scores : forall p al pl asg c l ok f o,
    evaluate_maps p al pl asg = Ok (c, l, ok, f) -> good o ->
    good (set_scores o c l f ok)
}.

(** A feasible solution has a finite fitness. *)
Definition finite_when_feasible (o : sol_obj) : Prop :=
  is_feasible o = true -> exists q, fitness o = Fin q.

(** A reference is either a given one or above the mark. *)
Definition same_or_new (n : nat) (r0 r : loc) : Prop := r = r0 \/ n <= r.

(** What can be observed of a solution: its two mappings and its four
    derived fields. *)
Definition solution_state (w : world) (r : loc)
    : option (dict (option Z) * dict (option Z) * Q * Q * bool * fl) :=
  match sols w !! r with
  | Some o =>
      match dicts w !! placement_map o, dicts w !! assignment_map o with
      | Some pl, Some asg =>
          Some (pl, asg, total_cost o, total_latency o, is_feasible o, fitness o)
      | _, _ => None
      end
  | None => None
  end.

(** Every solution of [w] is in [w'] in the same state. *)
Definition preserved (w w' : world) : Prop :=
  forall r, solution_state w r <> None ->
    solution_state w' r = solution_state w r.

(** A rational minorant of the exponential ([exp x >= 1 + x] and
    [exp x > 0]), to run the annealing on: a draw accepted under it is
    accepted under [math.exp]. *)
Definition exp_lower (x : Q) : Q :=
  if Qle_bool (1 + x) 0 then 0%Q else (1 + x)%Q.

(** The line scenario's engine: three members, two generations. *)
Definition line_engine (sa : bool) : HybridGeneticAlgorithm :=
  new_engine (line_problem 4) 3 2 (8 # 10) (2 # 10) (1 # 2) sa.

(** The store after [clone] of an object [o] whose dictionaries hold
    [pd] and [ad]: the two dictionaries of the constructor, the two
    copies, and the new object. *)
Definition cloned (p : CloudletPlacementProblem) (o : sol_obj)
    (pd ad : dict (option Z)) (w : world) : world :=
  {| dicts := dicts w ++ [dict_fromkeys (map cp_id (candidate_points p));
                          dict_fromkeys (map dev_id (devices p)); pd; ad];
     sols := sols w ++ [{| placement_map := length (dicts w) + 2;
                           assignment_map := length (dicts w) + 3;
                           total_cost := total_cost o;
                           total_latency := total_latency o;
                           fitness := fitness o;
                           is_feasible := is_feasible o |}];
     tape := tape w;
     cursor := cursor w |}.

(** The line store after [evaluate] of its solution. *)
Definition line_world_scored : world :=
  Eval vm_compute in
    match evaluate (line_problem 4) (1 # 2) 0 line_world with
    | Ok (_, w) => w
    | Raise _ => line_world
    end.

(** The line scenario's engine with both rates zero. *)
Definition neutral_engine : HybridGeneticAlgorithm :=
  new_engine (line_problem 4) 3 2 0 0 (1 # 2) true.

(* ================================================================= *)
(** ** The annealing walk, as the specification words it *)

Section Walk.

Variable math_exp : Q -> Q.
Variable ga : HybridGeneticAlgorithm.
Variable temperature : Q.

(** The Metropolis test on a draw [u]:
    [u < exp(-(neighbor - current) / temperature)]. *)
Definition metropolis (current_fitness neighbor_fitness : fl) (u : Q)
    : result bool :=
  try x <- fl_div (fl_neg (fl_sub neighbor_fitness current_fitness)) temperature;
  Ok (fl_ltb (Fin u) (fl_exp math_exp x)).

(** [walk k w (current, f) w' (last, f')]: [k] neighbor steps lead from
    the current solution in store [w] to the current solution [last]
    in store [w'].  Each step mutates the current solution; an
    improving neighbor becomes current; any other becomes current when
    the Metropolis test on one draw passes, and is dropped when it
    fails. *)
Inductive walk : nat -> world -> loc * fl -> world -> loc * fl -> Prop :=
| walk_end w st : walk 0 w st w st
| walk_improving k w current f neighbor o w1 w' st' :
    mutate ga current w = Ok (neighbor, w1) ->
    sols w1 !! neighbor = Some o ->
    fl_ltb (fitness o) f = true ->
    walk k w1 (neighbor, fitness o) w' st' ->
    walk (S k) w (current, f) w' st'
| walk_accepted k w current f neighbor o w1 u w2 w' st' :
    mutate ga current w = Ok (neighbor, w1) ->
    sols w1 !! neighbor = Some o ->
    fl_ltb (fitness o) f = false ->
    random_random w1 = Ok (u, w2) ->
    metropolis f (fitness o) u = Ok true ->
    walk k w2 (neighbor, fitness o) w' st' ->
    walk (S k) w (current, f) w' st'
| walk_rejected k w current f neighbor o w1 u w2 w' st' :
    mutate ga current w = Ok (neighbor, w1) ->
    sols w1 !! neighbor = Some o ->
    fl_ltb (fitness o) f = false ->
    random_random w1 = Ok (u, w2) ->
    metropolis f (fitness o) u = Ok false ->
    walk k w2 (current, f) w' st' ->
    walk (S k) w (current, f) w' st'.

End Walk.

(** *** A scenario with a second, unreachable site *)

Definition two_site_problem : CloudletPlacementProblem :=
  {| devices := [line_device 0 0 1; line_device 1 10 1; line_device 2 20 1];
     candidate_points :=
       [{| cp_id := 0; cp_x := 10; cp_y := 0; placement_cost_factor := 1 |};
        {| cp_id := 1; cp_x := 500; cp_y := 0; placement_cost_factor := 1 |}];
     cloudlet_types :=
       [{| ct_id := 0; cpu_capacity := 4; memory_capacity := 4;
           storage_capacity := 4; coverage_radius := 15; base_cost := 100 |}];
     device_to_candidate_distances :=
       [((0, 0)%Z, 10%Q); ((1, 0)%Z, 0%Q); ((2, 0)%Z, 10%Q)] |}.

Definition two_site_engine : HybridGeneticAlgorithm :=
  new_engine two_site_problem 3 2 (8 # 10) (2 # 10) (1 # 2) true.

(** One evaluated solution: a facility at site 0 serving the three
    devices, site 1 empty. *)
Definition two_site_world : world :=
  Eval vm_compute in
    let w := {| dicts := [[(0%Z, Some 0%Z); (1%Z, None)];
                          [(0%Z, Some 0%Z); (1%Z, Some 0%Z); (2%Z, Some 0%Z)]];
                sols := [blank_sol 0 1];
                tape := fun _ => 0;
                cursor := 0 |} in
    match evaluate two_site_problem (1 # 2) 0 w with
    | Ok (_, w') => w'
    | Raise _ => w
    end.

(** *** A scenario whose only device no site can reach *)

Definition far_problem : CloudletPlacementProblem :=
  {| devices := [line_device 0 0 1];
     candidate_points :=
       [{| cp_id := 0; cp_x := 10; cp_y := 0; placement_cost_factor := 1 |}];
     cloudlet_types :=
       [{| ct_id := 0; cpu_capacity := 4; memory_capacity := 4;
           storage_capacity := 4; coverage_radius := 5; base_cost := 100 |}];
     device_to_candidate_distances := [((0, 0)%Z, 10%Q)] |}.

Definition empty_world : world :=
  {| dicts := []; sols := []; tape := fun _ => 0; cursor := 0 |}.

(* ================================================================= *)
(** ** The best member of a population *)

Definition feasible_at (w : world) (r : loc) : bool :=
  match sols w !! r with
  | Some o => is_feasible o
  | None => false
  end.

Definition fitness_at (w : world) (r : loc) : fl :=
  match sols w !! r with
  | Some o => fitness o
  | None => NaN
  end.

(** The feasible member with the lowest fitness, the first of them in
    population order when several share it. *)
Definition best_member (w : world) (pop : list loc) : option loc :=
  match List.filter (feasible_at w) pop with
  | [] => None
  | x :: rest => Some (min_by (fitness_at w) x rest)
  end.

(** [a] is [b] or lies below it. *)
Definition fl_le (a b : fl) : Prop := a = b \/ fl_ltb a b = true.

(** The three history entries that a population calls for: fitness,
    total cost and total latency of its best member, [inf] three times
    when it has no feasible member. *)
Definition generation_entry (w : world) (pop : list loc) : fl * fl * fl :=
  match best_member w pop with
  | Some r =>
      match sols w !! r with
      | Some o => (fitness o, Fin (total_cost o), Fin (total_latency o))
      | None => (NaN, NaN, NaN)
      end
  | None => (PInf, PInf, PInf)
  end.

Definition is_finite (f : fl) : bool :=
  match f with
  | Fin _ => true
  | _ => false
  end.

(** Every feasible solution of the store has a finite fitness. *)
Definition scored_store (w : world) : bool :=
  forallb (fun o => negb (is_feasible o) || is_finite (fitness o)) (sols w).

(** Two solution objects agree on fitness, total cost and total latency. *)
Definition same_scores (a b : sol_obj) : Prop :=
  fitness a = fitness b /\ total_cost a = total_cost b /\
  total_latency a = total_latency b.

(** The incumbent follows the population: when the population has a
    feasible member, the incumbent carries the scores of its best
    member; when it has none, there is no incumbent. *)
Definition incumbent_follows (ga : HybridGeneticAlgorithm) (w : world) : Prop :=
  match best_member w (population ga) with
  | Some r =>
      exists b ro bo,
        best_solution ga = Some b /\ sols w !! r = Some ro /\
        sols w !! b = Some bo /\ same_scores bo ro
  | None => best_solution ga = None
  end.

(** What holds of the engine between generations. *)
Definition engine_ok (ga : HybridGeneticAlgorithm) (w : world) : Prop :=
  scored_store w = true /\ incumbent_follows ga w /\
  (population_size ga = 0 -> population ga = []).

(** The line engine and its store after [initialize_population]. *)
Definition line_started : HybridGeneticAlgorithm * world :=
  Eval vm_compute in
    match initialize_population (line_engine true) empty_world with
    | Ok x => x
    | Raise _ => (line_engine true, empty_world)
    end.

(* ================================================================= *)
(** ** Repair and capacity *)

(** No occupied site's summed demands exceed the capacities of the
    facility type placed there. *)
Definition capacity_respected (p : CloudletPlacementProblem)
    (pl asg : dict (option Z)) : Prop :=
  forall s t ct, dict_get_or_none s pl = Some t ->
    py_index (cloudlet_types p) t = Ok ct ->
    within (devices_assigned_to p asg s) ct.

(** The two mappings of a solution whose dictionaries are two distinct
    objects of the store. *)
Definition own (w : world) (r : loc) (pl asg : dict (option Z)) : Prop :=
  exists o, sols w !! r = Some o /\
    placement_map o <> assignment_map o /\
    dicts w !! placement_map o = Some pl /\
    dicts w !! assignment_map o = Some asg.







(** The line scenario's store with the facility placed and the middle
    device unassigned. *)
Definition gap_world : world :=
  {| dicts := [[(0%Z, Some 0%Z)];
               [(0%Z, Some 0%Z); (1%Z, None); (2%Z, Some 0%Z)]];
     sols := [blank_sol 0 1];
     tape := fun _ => 0;
     cursor := 0 |}.

(* ================================================================= *)
(** ** Well-formed inputs *)

(** Every occupied site of the placement is a site of the scenario and
    holds an index into the list of facility types (a negative index
    counting from the end, as Python reads it). *)
Definition placement_ok (p : CloudletPlacementProblem)
    (pl : dict (option Z)) : bool :=
  forallb (fun kv =>
    match snd kv with
    | None => true
    | Some t =>
        existsb (fun c => (cp_id c =? fst kv)%Z) (candidate_points p)
        && (- Z.of_nat (length (cloudlet_types p)) <=? t)%Z
        && (t <? Z.of_nat (length (cloudlet_types p)))%Z
    end) pl.

(** The line scenario without its devices. *)
Definition no_device_problem : CloudletPlacementProblem :=
  {| devices := [];
     candidate_points := candidate_points (line_problem 4);
     cloudlet_types := cloudlet_types (line_problem 4);
     device_to_candidate_distances := [] |}.

(* ================================================================= *)
(** ** Reassignment *)

(** Every device of [done] that the assignment puts at an occupied
    site passed the capacity test of the code on the devices of that
    site that come before it in [done]. *)
Definition tested (p : CloudletPlacementProblem)
    (pl asg : dict (option Z)) (done : list Device) : Prop :=
  forall pre d post s t ct, done = pre ++ d :: post ->
    assigned_site asg d = Some s ->
    dict_get s pl = Some (Some t) ->
    py_index (cloudlet_types p) t = Ok ct ->
    fits (List.filter (at_site asg s) pre) d ct = true.

(** Every entry that names a site names an occupied one whose type
    reaches the device. *)
Definition reached (p : CloudletPlacementProblem)
    (pl asg : dict (option Z)) : Prop :=
  forall k s, dict_get_or_none k asg = Some s ->
    exists t ct, dict_get s pl = Some (Some t) /\
      py_index (cloudlet_types p) t = Ok ct /\
      fl_leb (get_distance p k s) (Fin (coverage_radius ct)) = true.

(** The assignment as [reassign_devices] builds it on the placement:
    every device passed the capacity test against the devices of its
    site that precede it in the scenario, and every entry that names a
    site names an occupied one whose type reaches the device. *)
Definition assignment_sound (p : CloudletPlacementProblem)
    (pl asg : dict (option Z)) : Prop :=
  tested p pl asg (devices p) /\ reached p pl asg.

(** The site that the scan of [reassign_devices] holds for a device,
    if any, is occupied, reaches the device and has room for it. *)
Definition site_found (p : CloudletPlacementProblem)
    (pl asg : dict (option Z)) (d : Device) (best : option Z * fl) : Prop :=
  forall c, fst best = Some c ->
    exists t ct, dict_get c pl = Some (Some t) /\
      py_index (cloudlet_types p) t = Ok ct /\
      fl_leb (get_distance p (dev_id d) c) (Fin (coverage_radius ct)) = true /\
      fits (devices_assigned_to p asg c) d ct = true.

(** The invariant of the loop of [reassign_devices] over the devices
    still to be treated, [done] being those treated; [o] is the
    solution object, which the loop does not write. *)
Definition reassign_inv (p : CloudletPlacementProblem) (pl : dict (option Z))
    (r : loc) (o : sol_obj) (rest : list Device) (w : world) : Prop :=
  sols w !! r = Some o /\
  exists done asg,
    devices p = done ++ rest /\
    own w r pl asg /\ NoDup (dict_keys asg) /\
    tested p pl asg done /\ reached p pl asg /\
    (forall d, In d rest -> dict_get_or_none (dev_id d) asg = None).

(* ================================================================= *)
(** ** What the operators return *)

(** [pl], [asg] keep every facility of [pl0] and every assignment of
    [asg0]. *)
Definition grows (pl0 asg0 pl asg : dict (option Z)) : Prop :=
  (forall s t, dict_get s pl0 = Some (Some t) -> dict_get s pl = Some (Some t))
  /\ (forall k s, dict_get k asg0 = Some (Some s) ->
        dict_get k asg = Some (Some s)).

(** The scores stored in solution [r] are those that [evaluate]
    computes from the mappings of [r]. *)
Definition freshly_scored (p : CloudletPlacementProblem) (al : Q)
    (w : world) (r : loc) : Prop :=
  exists pl asg c l ok f,
    solution_state w r = Some (pl, asg, c, l, ok, f) /\
    evaluate_maps p al pl asg = Ok (c, l, ok, f).

(** At every site the two children hold what the two parents hold:
    each its own parent's entry, or each the other parent's. *)
Definition segment_swapped (pl1 pl2 ch1 ch2 : dict (option Z)) : Prop :=
  forall k,
    (dict_get k ch1 = dict_get k pl1 /\ dict_get k ch2 = dict_get k pl2)
    \/ (dict_get k ch1 = dict_get k pl2 /\ dict_get k ch2 = dict_get k pl1).

(** The placement, and the assignment, that solution [r] holds. *)
Definition placement_of (w : world) (r : loc) (pl : dict (option Z)) : Prop :=
  exists o, sols w !! r = Some o /\ dicts w !! placement_map o = Some pl.

Definition assignment_of (w : world) (r : loc) (asg : dict (option Z)) : Prop :=
  exists o, sols w !! r = Some o /\ dicts w !! assignment_map o = Some asg.

(** The placement dictionaries of the two children [a] and [b] are two
    dictionaries, and neither is a dictionary of a parent or an
    assignment of a child. *)
Definition clones_apart (w : world) (p1 p2 a b : loc) : Prop :=
  exists op1 op2 oa ob,
    sols w !! p1 = Some op1 /\ sols w !! p2 = Some op2 /\
    sols w !! a = Some oa /\ sols w !! b = Some ob /\
    placement_map oa <> placement_map ob /\
    placement_map op1 <> placement_map oa /\
    placement_map op1 <> placement_map ob /\
    placement_map op2 <> placement_map oa /\
    placement_map op2 <> placement_map ob /\
    assignment_map oa <> placement_map oa /\
    assignment_map oa <> placement_map ob /\
    assignment_map ob <> placement_map oa /\
    assignment_map ob <> placement_map ob.

(** The invariant of the swap loop of [crossover]. *)
Definition swap_inv (p1 p2 a b : loc) (pl1 asg1 pl2 asg2 : dict (option Z))
    (w : world) : Prop :=
  clones_apart w p1 p2 a b /\
  placement_of w p1 pl1 /\ placement_of w p2 pl2 /\
  assignment_of w a asg1 /\ assignment_of w b asg2 /\
  exists ch1 ch2,
    placement_of w a ch1 /\ placement_of w b ch2 /\
    dict_keys ch1 = dict_keys pl1 /\ dict_keys ch2 = dict_keys pl2 /\
    segment_swapped pl1 pl2 ch1 ch2.

(* ================================================================= *)
(** ** The greedy assignment *)

(** Site [c] can take device [d]: it is occupied, the radius of its
    type reaches the device and the three capacities have room. *)
Definition serves (p : CloudletPlacementProblem) (pl asg : dict (option Z))
    (d : Device) (c : CandidatePoint) : bool :=
  match dict_get (cp_id c) pl with
  | Some (Some t) =>
      match py_index (cloudlet_types p) t with
      | Ok ct =>
          fl_leb (get_distance p (dev_id d) (cp_id c)) (Fin (coverage_radius ct))
          && fits (devices_assigned_to p asg (cp_id c)) d ct
      | Raise _ => false
      end
  | _ => false
  end.

(** The device goes to the nearest site that can take it, the first
    such in the order of the sites; it stays as it is when none can. *)
Definition greedy_step (p : CloudletPlacementProblem) (pl : dict (option Z))
    (asg : dict (option Z)) (d : Device) : dict (option Z) :=
  match List.filter (serves p pl asg d) (candidate_points p) with
  | [] => asg
  | c0 :: rest => dict_set (dev_id d) (Some (cp_id (nearest p d c0 rest))) asg
  end.

(** Every key bound to [None]. *)
Definition unassign_all (asg : dict (option Z)) : dict (option Z) :=
  fold_left (fun a k => dict_set k (@None Z) a) (dict_keys asg) asg.

(** The devices taken one after the other, in the order of the
    scenario, from an assignment in which no device has a site. *)
Definition greedy_assignment (p : CloudletPlacementProblem)
    (pl asg : dict (option Z)) : dict (option Z) :=
  fold_left (greedy_step p pl) (devices p) (unassign_all asg).

(* ================================================================= *)
(** * Properties *)

(* ================================================================= *)
(** ** Basic facts *)

Lemma rbind_ok {A B} (c : result A) (k : A -> result B) (b : B) :
  rbind c k = Ok b -> exists a, c = Ok a /\ k a = Ok b.
Proof. destruct c; simpl; intros H; [eauto | discriminate]. Qed.

Lemma bind_ok {A B} (c : M A) (k : A -> M B) w r :
  bind c k w = Ok r -> exists a w1, c w = Ok (a, w1) /\ k a w1 = Ok r.
Proof.
  unfold bind. destruct (c w) as [[a w1]|e]; intros H; [eauto | discriminate].
Qed.

Lemma read_sol_ok r w o w' :
  read_sol r w = Ok (o, w') -> w' = w /\ sols w !! r = Some o.
Proof.
  unfold read_sol. destruct (sols w !! r); intros H; inversion H; auto.
Qed.

Lemma read_dict_ok l w d w' :
  read_dict l w = Ok (d, w') -> w' = w /\ dicts w !! l = Some d.
Proof.
  unfold read_dict. destruct (dicts w !! l); intros H; inversion H; auto.
Qed.

Lemma lift_ok {A} (r : result A) w a w' :
  lift r w = Ok (a, w') -> w' = w /\ r = Ok a.
Proof. unfold lift. destruct r; intros H; inversion H; auto. Qed.

Lemma write_sol_ok r o w u w' :
  write_sol r o w = Ok (u, w') ->
  w' = with_sols w (<[r := o]> (sols w)) /\ r < length (sols w).
Proof.
  unfold write_sol. destruct (sols w !! r) eqn:E; intros H; inversion H.
  split; [reflexivity | eapply lookup_lt_Some; eauto].
Qed.

Lemma write_dict_ok l d w u w' :
  write_dict l d w = Ok (u, w') ->
  w' = with_dicts w (<[l := d]> (dicts w)) /\ l < length (dicts w).
Proof.
  unfold write_dict. destruct (dicts w !! l) eqn:E; intros H; inversion H.
  split; [reflexivity | eapply lookup_lt_Some; eauto].
Qed.

Lemma Qltb_false x y : Qltb x y = false <-> (y <= x)%Q.
Proof.
  unfold Qltb. rewrite negb_false_iff. apply Qle_bool_iff.
Qed.

Lemma Qltb_true x y : Qltb x y = true <-> (x < y)%Q.
Proof.
  unfold Qltb. rewrite negb_true_iff. split; intros H.
  - apply Qnot_le_lt. intros C. apply Qle_bool_iff in C. congruence.
  - destruct (Qle_bool y x) eqn:E; [|reflexivity].
    apply Qle_bool_iff in E. exfalso. eapply Qlt_not_le; eauto.
Qed.

(** *** Dictionaries *)

Lemma distinct_NoDup l : distinct l = true -> NoDup l.
Proof.
  induction l as [|x r IH]; simpl; intros H; [constructor|].
  apply andb_true_iff in H as [H1 H2]. constructor; [|auto].
  intros C. apply negb_true_iff in H1.
  assert (existsb (Z.eqb x) r = true); [|congruence].
  apply existsb_exists. exists x. split; [|apply Z.eqb_refl].
  apply list_elem_of_In. exact C.
Qed.

Lemma dict_get_In {V} k (v : V) d : dict_get k d = Some v -> In (k, v) d.
Proof.
  induction d as [|[k' v'] d IH]; simpl; [discriminate|].
  destruct (Z.eqb_spec k k'); intros H.
  - inversion H; subst; auto.
  - auto.
Qed.

Lemma dict_get_None {V} k (d : dict V) :
  dict_get k d = None <-> ~ In k (dict_keys d).
Proof.
  induction d as [|[k' v'] d IH]; simpl; [tauto|].
  destruct (Z.eqb_spec k k'); split; intros H.
  - discriminate.
  - exfalso. apply H. auto.
  - intros [C|C]; [congruence | tauto].
  - apply IH. tauto.
Qed.

Lemma In_dict_get {V} k (v : V) d :
  distinct (dict_keys d) = true -> In (k, v) d -> dict_get k d = Some v.
Proof.
  induction d as [|[k' v'] d IH]; simpl; [tauto|].
  intros H [E|I]; apply andb_true_iff in H as [H1 H2].
  - inversion E; subst. rewrite Z.eqb_refl. reflexivity.
  - destruct (Z.eqb_spec k k') as [->|N]; [|auto].
    exfalso. apply negb_true_iff in H1.
    assert (existsb (Z.eqb k') (dict_keys d) = true); [|congruence].
    apply existsb_exists. exists k'. split; [|apply Z.eqb_refl].
    apply (in_map fst) in I. exact I.
Qed.

Lemma dict_get_set_eq {V} k (v : V) d : dict_get k (dict_set k v d) = Some v.
Proof.
  induction d as [|[k' v'] d IH]; simpl.
  - rewrite Z.eqb_refl. reflexivity.
  - destruct (Z.eqb_spec k k') as [->|N]; simpl.
    + rewrite Z.eqb_refl. reflexivity.
    + destruct (Z.eqb_spec k k'); [contradiction | exact IH].
Qed.

Lemma dict_get_set_ne {V} k k' (v : V) d :
  k <> k' -> dict_get k' (dict_set k v d) = dict_get k' d.
Proof.
  intros N. induction d as [|[k0 v0] d IH]; simpl.
  - destruct (Z.eqb_spec k' k); [congruence | reflexivity].
  - destruct (Z.eqb_spec k k0) as [->|N0]; simpl.
    + destruct (Z.eqb_spec k' k0); [congruence | reflexivity].
    + destruct (Z.eqb_spec k' k0); [reflexivity | exact IH].
Qed.

Lemma dict_keys_set_mem {V} k (v v0 : V) d :
  dict_get k d = Some v0 -> dict_keys (dict_set k v d) = dict_keys d.
Proof.
  induction d as [|[k' v'] d IH]; simpl; [discriminate|].
  destruct (Z.eqb_spec k k'); simpl; intros H; [reflexivity|].
  f_equal. auto.
Qed.

Lemma dict_keys_set_new {V} k (v : V) d :
  dict_get k d = None -> dict_keys (dict_set k v d) = dict_keys d ++ [k].
Proof.
  induction d as [|[k' v'] d IH]; simpl; [reflexivity|].
  destruct (Z.eqb_spec k k'); simpl; intros H; [discriminate|].
  f_equal. auto.
Qed.

Lemma In_dict_get_nodup {V} k (v : V) d :
  NoDup (dict_keys d) -> In (k, v) d -> dict_get k d = Some v.
Proof.
  induction d as [|[k' v'] d IH]; simpl; [tauto|].
  intros H [E|I]; apply NoDup_cons in H as [H1 H2].
  - inversion E; subst. rewrite Z.eqb_refl. reflexivity.
  - destruct (Z.eqb_spec k k') as [->|N]; [|auto].
    exfalso. apply H1. apply list_elem_of_In.
    apply (in_map fst) in I. exact I.
Qed.

Lemma dict_set_nodup {V} k (v : V) d :
  NoDup (dict_keys d) -> NoDup (dict_keys (dict_set k v d)).
Proof.
  intros H. destruct (dict_get k d) eqn:E.
  - erewrite dict_keys_set_mem; eauto.
  - rewrite dict_keys_set_new by exact E.
    apply NoDup_app. split; [exact H|]. split.
    + intros x Hx Hk. apply list_elem_of_In in Hx.
      apply list_elem_of_In in Hk. simpl in Hk. destruct Hk as [<-|[]].
      apply dict_get_None in E. contradiction.
    + apply NoDup_singleton.
Qed.

(** *** The loops of [evaluate] *)


Lemma check_entries pl asg b :
  fold_left (check_entry pl) asg b = b && forallb (entry_ok pl) asg.
Proof.
  revert b. induction asg as [|kv asg IH]; intros b; simpl.
  - rewrite andb_true_r. reflexivity.
  - rewrite IH. unfold check_entry, entry_ok.
    destruct (snd kv) as [cid|]; simpl.
    + destruct (dict_get_or_none cid pl); simpl; [reflexivity|].
      rewrite andb_false_r. reflexivity.
    + rewrite andb_false_r. reflexivity.
Qed.

Lemma add_cost_usage p st kv st' s :
  add_cost p st kv = Ok st' ->
  dict_get s (snd st') =
    if (s =? fst kv)%Z && negb (is_none (snd kv)) then Some zero_usage
    else dict_get s (snd st).
Proof.
  unfold add_cost. destruct (snd kv) as [tid|]; simpl.
  - intros H. apply rbind_ok in H as (ct & _ & H).
    apply rbind_ok in H as (cp & _ & H). inversion H; subst; simpl.
    rewrite andb_true_r. destruct (Z.eqb_spec s (fst kv)) as [->|N].
    + apply dict_get_set_eq.
    + apply dict_get_set_ne. congruence.
  - intros H. inversion H; subst. rewrite andb_false_r. reflexivity.
Qed.

Lemma add_cost_nodup p st kv st' :
  add_cost p st kv = Ok st' ->
  NoDup (dict_keys (snd st)) -> NoDup (dict_keys (snd st')).
Proof.
  unfold add_cost. destruct (snd kv) as [tid|]; simpl.
  - intros H. apply rbind_ok in H as (ct & _ & H).
    apply rbind_ok in H as (cp & _ & H). inversion H; subst; simpl.
    apply dict_set_nodup.
  - intros H. inversion H; subst. auto.
Qed.

Lemma costs_usage p pl st st' s :
  rfold (add_cost p) pl st = Ok st' ->
  dict_get s (snd st') =
    if existsb (fun kv => (s =? fst kv)%Z && negb (is_none (snd kv))) pl
    then Some zero_usage else dict_get s (snd st).
Proof.
  revert st. induction pl as [|kv pl IH]; intros st; simpl.
  - intros H. inversion H; subst. reflexivity.
  - intros H. apply rbind_ok in H as (st1 & H1 & H).
    rewrite (IH _ H). rewrite (add_cost_usage s H1).
    destruct (existsb _ pl); [rewrite orb_true_r; reflexivity|].
    rewrite orb_false_r. reflexivity.
Qed.

Lemma costs_nodup p pl st st' :
  rfold (add_cost p) pl st = Ok st' ->
  NoDup (dict_keys (snd st)) -> NoDup (dict_keys (snd st')).
Proof.
  revert st. induction pl as [|kv pl IH]; intros st; simpl.
  - intros H. inversion H; subst. auto.
  - intros H N. apply rbind_ok in H as (st1 & H1 & H).
    eapply IH; eauto. eapply add_cost_nodup; eauto.
Qed.

Lemma placed_has_usage pl s t :
  dict_get s pl = Some (Some t) ->
  existsb (fun kv => (s =? fst kv)%Z && negb (is_none (snd kv))) pl = true.
Proof.
  intros H. apply dict_get_In in H. apply existsb_exists.
  exists (s, Some t). split; [exact H|]. simpl. rewrite Z.eqb_refl. reflexivity.
Qed.


Lemma serve_device_true p pl asg ok ru lat d ru' lat' :
  serve_device p pl asg (ok, ru, lat) d = Ok (true, ru', lat') ->
  ok = true /\
  exists s u, served p pl asg d s /\ dict_get s ru = Some u /\
              ru' = dict_set s (add_usage u d) ru.
Proof.
  unfold serve_device.
  destruct (dict_get_or_none (dev_id d) asg) as [s|] eqn:Ea; [|discriminate].
  destruct (dict_get_or_none s pl) as [t|] eqn:Ep; [|discriminate].
  intros H. apply rbind_ok in H as (ct & Hct & H).
  destruct (get_distance p (dev_id d) s) as [dist| | |] eqn:Ed; try discriminate.
  destruct (Qltb (coverage_radius ct) dist) eqn:Eq; [discriminate|].
  apply rbind_ok in H as (u & Hu & H). inversion H; subst.
  split; [reflexivity|]. exists s, u. split; [|split].
  - split; [exact Ea|]. exists t, ct, dist. auto.
  - unfold dict_item in Hu. destruct (dict_get s ru); inversion Hu; auto.
  - reflexivity.
Qed.

Lemma serve_device_flag p pl asg ok ru lat d ok' ru' lat' :
  serve_device p pl asg (ok, ru, lat) d = Ok (ok', ru', lat') ->
  ok' = true -> ok = true.
Proof.
  intros H E. subst. apply serve_device_true in H. tauto.
Qed.


Lemma serve_loop_true p pl asg devs ok ru lat ru' lat' :
  rfold (serve_device p pl asg) devs (ok, ru, lat) = Ok (true, ru', lat') ->
  ok = true /\
  (forall d, In d devs -> exists s, served p pl asg d s) /\
  (forall s, dict_get s ru' =
     option_map (fun u => fold_left add_usage (List.filter (at_site asg s) devs) u)
       (dict_get s ru)).
Proof.
  revert ok ru lat. induction devs as [|d devs IH]; intros ok ru lat; simpl.
  - intros H. inversion H; subst. split; [reflexivity|]. split; [tauto|].
    intros s. destruct (dict_get s _); reflexivity.
  - intros H. apply rbind_ok in H as ([[ok1 ru1] lat1] & H1 & H).
    apply IH in H as (-> & Hall & Hru).
    apply serve_device_true in H1 as (-> & s & u & Hs & Hu & ->).
    split; [reflexivity|]. split.
    + intros d' [<-|I]; eauto.
    + intros s'. rewrite Hru. destruct Hs as [Ha _]. simpl List.filter.
      assert (at_site asg s' d = Z.eqb s s') as E.
      { unfold at_site. rewrite Ha. reflexivity. }
      rewrite E. destruct (Z.eqb_spec s s') as [Heq|N].
      * subst s'. rewrite dict_get_set_eq, Hu. reflexivity.
      * rewrite dict_get_set_ne by exact N. reflexivity.
Qed.

Lemma get_distance_cases p a b :
  get_distance p a b = PInf \/ exists q, get_distance p a b = Fin q.
Proof.
  unfold get_distance. destruct (distance_lookup _ _); eauto.
Qed.

Lemma serve_device_keeps p pl asg ok ru lat d st' s t :
  assigned_site asg d = Some s ->
  dict_get_or_none s pl = Some t ->
  (forall ct, py_index (cloudlet_types p) t = Ok ct ->
     fl_leb (get_distance p (dev_id d) s) (Fin (coverage_radius ct)) = true) ->
  serve_device p pl asg (ok, ru, lat) d = Ok st' ->
  fst (fst st') = ok.
Proof.
  intros Ha Hp Hr. unfold serve_device. unfold assigned_site in Ha.
  rewrite Ha, Hp. intros H. apply rbind_ok in H as (ct & Hct & H).
  specialize (Hr ct Hct).
  destruct (get_distance_cases p (dev_id d) s) as [G|[dist G]];
    rewrite G in Hr, H; simpl in Hr; [discriminate|].
  assert (E : Qltb (coverage_radius ct) dist = false).
  { apply Qltb_false. apply Qle_bool_iff. exact Hr. }
  rewrite E in H. apply rbind_ok in H as (u & _ & H).
  inversion H; subst. reflexivity.
Qed.

Lemma serve_loop_keeps p pl asg devs ok ru lat st' :
  (forall d, In d devs -> exists s t,
     assigned_site asg d = Some s /\ dict_get_or_none s pl = Some t /\
     forall ct, py_index (cloudlet_types p) t = Ok ct ->
       fl_leb (get_distance p (dev_id d) s) (Fin (coverage_radius ct)) = true) ->
  rfold (serve_device p pl asg) devs (ok, ru, lat) = Ok st' ->
  fst (fst st') = ok.
Proof.
  revert ok ru lat. induction devs as [|d devs IH]; intros ok ru lat Hd; simpl.
  - intros H. inversion H; subst. reflexivity.
  - intros H. apply rbind_ok in H as ([[ok1 ru1] lat1] & H1 & H).
    destruct (Hd d) as (s & t & Ha & Hp & Hr); [left; reflexivity|].
    pose proof (serve_device_keeps Ha Hp Hr H1) as E. simpl in E. subst ok1.
    eapply IH; [|exact H]. intros d' I. apply Hd. right. exact I.
Qed.

Lemma over_capacity_false p pl items :
  over_capacity p pl items = Ok false ->
  forall s u, In (s, u) items ->
    exists t ct, dict_get s pl = Some (Some t) /\
      py_index (cloudlet_types p) t = Ok ct /\ exceeds u ct = false.
Proof.
  induction items as [|[s0 u0] items IH]; simpl; [tauto|].
  intros H s u I. apply rbind_ok in H as (t & Ht & H).
  destruct t as [t|]; [|discriminate].
  apply rbind_ok in H as (ct & Hct & H).
  destruct (exceeds u0 ct) eqn:E; [discriminate|].
  destruct I as [I|I]; [|eauto].
  inversion I; subst. exists t, ct. split; [|auto].
  unfold dict_item in Ht. destruct (dict_get s pl); inversion Ht; auto.
Qed.

Lemma over_capacity_true p pl items :
  over_capacity p pl items = Ok true ->
  exists s u t ct, In (s, u) items /\ dict_get s pl = Some (Some t) /\
    py_index (cloudlet_types p) t = Ok ct /\ exceeds u ct = true.
Proof.
  induction items as [|[s0 u0] items IH]; simpl; [discriminate|].
  intros H. apply rbind_ok in H as (t & Ht & H).
  destruct t as [t|]; [|discriminate].
  apply rbind_ok in H as (ct & Hct & H).
  destruct (exceeds u0 ct) eqn:E.
  - exists s0, u0, t, ct. split; [left; reflexivity|]. split; [|auto].
    unfold dict_item in Ht. destruct (dict_get s0 pl); inversion Ht; auto.
  - destruct (IH H) as (s & u & t' & ct' & I & R). exists s, u, t', ct'.
    split; [right; exact I | exact R].
Qed.

Lemma usage_sums ds u :
  u_cpu (fold_left add_usage ds u)
    = fold_left (fun s d => (s + cpu_demand d)%Q) ds (u_cpu u)
  /\ u_memory (fold_left add_usage ds u)
    = fold_left (fun s d => (s + memory_demand d)%Q) ds (u_memory u)
  /\ u_storage (fold_left add_usage ds u)
    = fold_left (fun s d => (s + storage_demand d)%Q) ds (u_storage u).
Proof.
  revert u. induction ds as [|d ds IH]; intros u; simpl; [auto|].
  apply (IH (add_usage u d)).
Qed.

Lemma exceeds_false u ct :
  exceeds u ct = false <->
  (u_cpu u <= cpu_capacity ct)%Q /\ (u_memory u <= memory_capacity ct)%Q
  /\ (u_storage u <= storage_capacity ct)%Q.
Proof.
  unfold exceeds. rewrite !orb_false_iff, !Qltb_false. tauto.
Qed.

Lemma within_usage ds ct :
  exceeds (fold_left add_usage ds zero_usage) ct = false <-> within ds ct.
Proof.
  rewrite exceeds_false. destruct (usage_sums ds zero_usage) as (-> & -> & ->).
  reflexivity.
Qed.

(** With distinct keys, the devices that [get_devices_assigned_to]
    returns are those whose own entry names the site. *)
Lemma assigned_ids asg s k :
  NoDup (dict_keys asg) ->
  existsb (Z.eqb k)
    (map fst (List.filter (fun kv => is_some_eq (snd kv) s) asg))
  = is_some_eq (dict_get_or_none k asg) s.
Proof.
  intros N. apply eq_true_iff_eq. rewrite existsb_exists. split.
  - intros (k' & I & E). apply Z.eqb_eq in E. subst k'.
    apply in_map_iff in I as ([k' v] & E & I). simpl in E. subst k'.
    apply filter_In in I as [I F]. simpl in F.
    unfold dict_get_or_none. rewrite (In_dict_get_nodup N I). exact F.
  - intros H. unfold dict_get_or_none in H.
    destruct (dict_get k asg) as [v|] eqn:E; [|discriminate].
    exists k. split; [|apply Z.eqb_refl].
    apply in_map_iff. exists (k, v). split; [reflexivity|].
    apply filter_In. split; [apply dict_get_In; exact E | exact H].
Qed.

Lemma devices_assigned_at p asg s :
  NoDup (dict_keys asg) ->
  devices_assigned_to p asg s = List.filter (at_site asg s) (devices p).
Proof.
  intros N. unfold devices_assigned_to. apply filter_ext. intros d.
  apply assigned_ids. exact N.
Qed.

Lemma keys_are_devices_spec p asg k :
  keys_are_devices p asg = true -> In k (dict_keys asg) ->
  exists d, In d (devices p) /\ dev_id d = k.
Proof.
  unfold keys_are_devices. rewrite forallb_forall. intros H I.
  specialize (H k I). apply existsb_exists in H as (d & Id & E).
  apply Z.eqb_eq in E. eauto.
Qed.

(** Under the four clauses every entry of the assignment dictionary
    names an occupied site. *)
Lemma entry_of_spec p pl asg k v :
  distinct (dict_keys asg) = true -> keys_are_devices p asg = true ->
  feasible_spec p pl asg -> In (k, v) asg ->
  exists s, v = Some s /\ dict_get_or_none s pl <> None.
Proof.
  intros D K F I.
  destruct (keys_are_devices_spec (k:=k) K) as (d & Id & E).
  { apply (in_map fst) in I. exact I. }
  pose proof (all_assigned F Id) as A. unfold assigned_site in A.
  destruct (dict_get_or_none (dev_id d) asg) as [s|] eqn:Es; [|congruence].
  exists s. split.
  - unfold dict_get_or_none in Es. rewrite E in Es.
    rewrite (In_dict_get D I) in Es. exact Es.
  - eapply sites_occupied; eauto.
Qed.

Lemma serve_device_keys p pl asg st d st' :
  serve_device p pl asg st d = Ok st' ->
  dict_keys (snd (fst st')) = dict_keys (snd (fst st)).
Proof.
  destruct st as [[ok ru] lat]. unfold serve_device.
  destruct (dict_get_or_none (dev_id d) asg) as [s|];
    [|intros H; inversion H; reflexivity].
  destruct (dict_get_or_none s pl) as [t|];
    [|intros H; inversion H; reflexivity].
  intros H. apply rbind_ok in H as (ct & _ & H).
  destruct (get_distance p (dev_id d) s) as [dist| | |];
    try (inversion H; reflexivity).
  destruct (Qltb (coverage_radius ct) dist); [inversion H; reflexivity|].
  apply rbind_ok in H as (u & Hu & H). inversion H; subst. simpl.
  unfold dict_item in Hu. destruct (dict_get s ru) eqn:E; [|discriminate].
  eapply dict_keys_set_mem; eauto.
Qed.

Lemma serve_loop_keys p pl asg devs st st' :
  rfold (serve_device p pl asg) devs st = Ok st' ->
  dict_keys (snd (fst st')) = dict_keys (snd (fst st)).
Proof.
  revert st. induction devs as [|d devs IH]; intros st; simpl.
  - intros H. inversion H; reflexivity.
  - intros H. apply rbind_ok in H as (st1 & H1 & H).
    rewrite (IH _ H). eapply serve_device_keys; eauto.
Qed.

(** The evaluator's verdict on the two mappings. *)
Lemma evaluate_maps_feasible p al pl asg cost lat ok fit :
  distinct (dict_keys asg) = true -> keys_are_devices p asg = true ->
  evaluate_maps p al pl asg = Ok (cost, lat, ok, fit) ->
  ok = true <-> feasible_spec p pl asg.
Proof.
  intros D K H. unfold evaluate_maps in H.
  apply rbind_ok in H as ([cost0 ru0] & H2 & H).
  apply rbind_ok in H as ([[ok3 ru] lat3] & H3 & H).
  apply rbind_ok in H as (over & H4 & H).
  apply rbind_ok in H as (fit0 & _ & H). inversion H; subst; clear H.
  pose proof (distinct_NoDup D) as N.
  assert (Hru0 : forall s t, dict_get s pl = Some (Some t) ->
                   dict_get s ru0 = Some zero_usage).
  { intros s t E. pose proof (costs_usage s H2) as X. simpl in X.
    rewrite X, (placed_has_usage E). reflexivity. }
  assert (Nru0 : NoDup (dict_keys ru0)).
  { apply (costs_nodup H2). simpl. constructor. }
  rewrite check_entries in H3. simpl in H3.
  split.
  - (* the flag is set: the clauses hold *)
    intros E.
    destruct (existsb is_none (dict_values asg)); [discriminate|].
    destruct over; [discriminate|]. subst ok3.
    apply serve_loop_true in H3 as (E1 & Hall & Hru).
    constructor.
    + intros d Id. destruct (Hall d Id) as (s & Ha & _). congruence.
    + intros d s Id Ha. destruct (Hall d Id) as (s' & Ha' & t & ct & dist & Hp & _).
      congruence.
    + intros d s t ct Id Ha Hp Hct.
      destruct (Hall d Id) as (s' & Ha' & t' & ct' & dist & Hp' & Hct' & Hd & Hq).
      assert (s' = s) by congruence. subst s'.
      assert (t' = t) by congruence. subst t'.
      assert (ct' = ct) by congruence. subst ct'.
      rewrite Hd. simpl. apply Qle_bool_iff. apply Qltb_false. exact Hq.
    + intros s t ct Hp Hct. rewrite (devices_assigned_at p s N).
      apply within_usage.
      assert (Eg : dict_get s pl = Some (Some t)).
      { unfold dict_get_or_none in Hp. destruct (dict_get s pl) as [[x|]|];
          congruence. }
      pose proof (Hru s) as Es. rewrite (Hru0 _ _ Eg) in Es. simpl in Es.
      apply dict_get_In in Es.
      destruct (over_capacity_false H4 Es) as (t' & ct' & Hp' & Hct' & X).
      assert (t' = t) by congruence. subst t'.
      assert (ct' = ct) by congruence. subst ct'. exact X.
  - (* the clauses hold: the flag is set *)
    intros F.
    assert (E1 : forallb (entry_ok pl) asg = true).
    { apply forallb_forall. intros [k v] I.
      destruct (entry_of_spec D K F I) as (s & -> & Hs).
      unfold entry_ok. simpl. destruct (dict_get_or_none s pl); [reflexivity|].
      congruence. }
    rewrite E1 in H3.
    assert (E3 : ok3 = true).
    { apply (serve_loop_keeps (p:=p) (pl:=pl) (asg:=asg)) in H3.
      - exact H3.
      - intros d Id. pose proof (all_assigned F Id) as A.
        destruct (assigned_site asg d) as [s|] eqn:Ea; [|congruence].
        pose proof (sites_occupied F Id Ea) as O.
        destruct (dict_get_or_none s pl) as [t|] eqn:Ep; [|congruence].
        exists s, t. split; [reflexivity|]. split; [exact Ep|].
        intros ct Hct. eapply within_radius; eauto. }
    subst ok3.
    assert (E4 : over = false).
    { destruct over; [|reflexivity]. exfalso.
      apply over_capacity_true in H4 as (s & u & t & ct & I & Hp & Hct & X).
      assert (Nru : NoDup (dict_keys ru)).
      { pose proof (serve_loop_keys H3) as Ek. simpl in Ek. rewrite Ek.
        exact Nru0. }
      apply serve_loop_true in H3 as (_ & _ & Hru).
      pose proof (Hru s) as Es. rewrite (Hru0 _ _ Hp) in Es. simpl in Es.
      rewrite (In_dict_get_nodup Nru I) in Es. inversion Es; subst u.
      assert (Hg : dict_get_or_none s pl = Some t).
      { unfold dict_get_or_none. rewrite Hp. reflexivity. }
      pose proof (within_capacity F Hg Hct) as W.
      rewrite (devices_assigned_at p s N) in W.
      apply within_usage in W. congruence. }
    subst over.
    assert (E5 : existsb is_none (dict_values asg) = false).
    { destruct (existsb is_none (dict_values asg)) eqn:E; [|reflexivity].
      apply existsb_exists in E as (v & I & Hv).
      apply in_map_iff in I as ([k v'] & Ev & I). simpl in Ev. subst v'.
      destruct (entry_of_spec D K F I) as (s & -> & _). discriminate. }
    rewrite E5. reflexivity.
Qed.



Lemma evaluate_ok p al self w f w' :
  evaluate p al self w = Ok (f, w') ->
  exists o pl asg cost lat ok,
    sols w !! self = Some o /\
    dicts w !! placement_map o = Some pl /\
    dicts w !! assignment_map o = Some asg /\
    evaluate_maps p al pl asg = Ok (cost, lat, ok, f) /\
    w' = with_sols w (<[self := set_scores o cost lat f ok]> (sols w)).
Proof.
  unfold evaluate. intros H.
  apply bind_ok in H as (o & w1 & H1 & H). apply read_sol_ok in H1 as [-> Ho].
  apply bind_ok in H as (pl & w1 & H1 & H). apply read_dict_ok in H1 as [-> Hp].
  apply bind_ok in H as (asg & w1 & H1 & H). apply read_dict_ok in H1 as [-> Ha].
  apply bind_ok in H as ([[[cost lat] ok] fit] & w1 & H1 & H).
  apply lift_ok in H1 as [-> Hm].
  apply bind_ok in H as ([] & w1 & H1 & H). apply write_sol_ok in H1 as [-> Hl].
  inversion H; subst. exists o, pl, asg, cost, lat, ok. auto.
Qed.

(** C1. After [evaluate], the feasibility flag of the solution is set
    exactly when: every device has a site; every such site holds a
    facility; every device is within the radius of its site's facility
    type; and at every occupied site the summed cpu, memory and storage
    demands of the devices assigned to it are within the type's three
    capacities.  The solution's assignment mapping is keyed by device
    ids, each once; the two mappings are left as they were. *)
Theorem evaluate_feasibility p al self w o pl asg f w' :
  sols w !! self = Some o ->
  dicts w !! placement_map o = Some pl ->
  dicts w !! assignment_map o = Some asg ->
  distinct (dict_keys asg) = true ->
  keys_are_devices p asg = true ->
  evaluate p al self w = Ok (f, w') ->
  exists o',
    sols w' !! self = Some o' /\
    placement_map o' = placement_map o /\
    assignment_map o' = assignment_map o /\
    dicts w' = dicts w /\
    (is_feasible o' = true <-> feasible_spec p pl asg).
Proof.
  intros Ho Hp Ha D K H.
  apply evaluate_ok in H as (o1 & pl1 & asg1 & cost & lat & ok & Ho1 & Hp1 & Ha1 & Hm & ->).
  rewrite Ho in Ho1. inversion Ho1; subst o1.
  rewrite Hp in Hp1. inversion Hp1; subst pl1.
  rewrite Ha in Ha1. inversion Ha1; subst asg1.
  exists (set_scores o cost lat f ok). split; [|split; [|split; [|split]]];
    try reflexivity.
  - simpl. apply list_lookup_insert_eq. eapply lookup_lt_Some; eauto.
  - simpl. eapply evaluate_maps_feasible; eauto.
Qed.

Lemma evaluate_feasibility_witness :
  exists f w' o',
    evaluate (line_problem 4) (1 # 2) 0 line_world = Ok (f, w') /\
    sols w' !! 0 = Some o' /\
    (is_feasible o' = true <->
     feasible_spec (line_problem 4) [(0%Z, Some 0%Z)]
       [(0%Z, Some 0%Z); (1%Z, Some 0%Z); (2%Z, Some 0%Z)]).
Proof.
  destruct (evaluate (line_problem 4) (1 # 2) 0 line_world) as [[f w']|e] eqn:E;
    [|vm_compute in E; discriminate].
  destruct (@evaluate_feasibility (line_problem 4) (1 # 2) 0 line_world
              (blank_sol 0 1) [(0%Z, Some 0%Z)]
              [(0%Z, Some 0%Z); (1%Z, Some 0%Z); (2%Z, Some 0%Z)] f w')
    as (o' & Ho & _ & _ & _ & Hf);
    [reflexivity | reflexivity | reflexivity | reflexivity | reflexivity
    | exact E |].
  exists f, w', o'. auto.
Defined.

(* ================================================================= *)
(** ** Unknown ids *)

(** C8, as stated, fails: [assign_device] with a device id that the
    scenario and the assignment mapping do not know, and a site that
    holds a facility, adds the id as a new key. *)
Lemma assign_device_unknown_device_adds_key :
  existsb (fun d => (dev_id d =? 99)%Z) (devices (line_problem 4)) = false /\
  dicts line_world !! 1 = Some [(0%Z, Some 0%Z); (1%Z, Some 0%Z); (2%Z, Some 0%Z)] /\
  exists w',
    assign_device 0 99 0 line_world = Ok (tt, w') /\
    dicts w' !! 1 = Some [(0%Z, Some 0%Z); (1%Z, Some 0%Z); (2%Z, Some 0%Z);
                          (99%Z, Some 0%Z)].
Proof.
  split; [reflexivity|]. split; [reflexivity|].
  eexists. split; reflexivity.
Qed.

(** C8, amended. [place_cloudlet] with an unknown site id, and
    [assign_device] with a site id that is unknown or holds no
    facility, leave the store exactly as it was, whatever the device
    id, and raise nothing. *)
Theorem unknown_site_is_noop self w o pd device_id candidate_id cloudlet_type_id :
  sols w !! self = Some o ->
  dicts w !! placement_map o = Some pd ->
  (dict_mem candidate_id pd = false ->
   place_cloudlet self candidate_id cloudlet_type_id w = Ok (tt, w))
  /\ (dict_get_or_none candidate_id pd = None ->
      assign_device self device_id candidate_id w = Ok (tt, w)).
Proof.
  intros Ho Hp. split; intros H.
  - unfold place_cloudlet, bind, read_sol, read_dict. rewrite Ho, Hp, H.
    reflexivity.
  - unfold assign_device, bind, read_sol, read_dict. rewrite Ho, Hp.
    unfold dict_get_or_none in H.
    destruct (dict_get candidate_id pd) as [[t|]|]; [discriminate | |];
      reflexivity.
Qed.

Lemma unknown_site_is_noop_witness :
  place_cloudlet 0 7 0 line_world = Ok (tt, line_world)
  /\ assign_device 0 99 7 line_world = Ok (tt, line_world).
Proof.
  destruct (@unknown_site_is_noop 0 line_world (blank_sol 0 1)
              [(0%Z, Some 0%Z)] 99 7 0) as [P A];
    [reflexivity | reflexivity |].
  split; [apply P | apply A]; reflexivity.
Defined.

(* ================================================================= *)
(** ** The fitness formula *)

Lemma max_possible_cost_sum p :
  (max_possible_cost p == (12 # 10) * total_base_cost p)%Q.
Proof.
  unfold max_possible_cost, total_base_cost.
  assert (G : forall l a,
            (fold_left (fun s ct => s + base_cost ct * (12 # 10)) l a
             == a + (12 # 10) * fold_right (fun ct s => base_cost ct + s) 0 l)%Q).
  { induction l as [|ct l IH]; intros a; simpl.
    - ring.
    - rewrite IH. ring. }
  rewrite G. ring.
Qed.

(** C2, as stated, fails: on the line scenario, whose only site has
    multiplier 1, the cost weight 1 gives fitness 5/6 (cost 100 over
    100 * 1.2), where normalising by the scenario's own largest
    multiplier gives 1 whatever the diagonal. *)
Lemma fitness_uses_fixed_constants :
  exists f w' o',
    evaluate (line_problem 4) 1 0 line_world = Ok (Fin f, w') /\
    sols w' !! 0 = Some o' /\ is_feasible o' = true /\
    (f == 5 # 6)%Q /\
    forall diagonal,
      ~ (f == scenario_fitness (line_problem 4) 1 (total_cost o')
                (total_latency o') diagonal)%Q.
Proof.
  destruct (evaluate (line_problem 4) 1 0 line_world) as [[f w']|e] eqn:E;
    vm_compute in E; [|discriminate].
  inversion E; subst. do 3 eexists. split; [reflexivity|].
  split; [reflexivity|]. split; [reflexivity|]. split; [reflexivity|].
  intros diagonal. simpl. unfold scenario_fitness. simpl.
  intros C.
  assert (X : forall a b, (1 * a + (1 - 1) * b == a)%Q) by (intros; ring).
  rewrite X in C. vm_compute in C. discriminate.
Qed.

(** C2, amended. When [evaluate] returns on a solution that it finds
    feasible, the fitness is
    [alpha * (total_cost / (1.2 * sum of the base costs))
     + (1 - alpha) * (total_latency / (device count * 1000 * sqrt 2))],
    with the fixed constants 1.2 and 1000 * sqrt 2 whatever the
    scenario; on a solution that it finds infeasible the fitness is
    [inf], whatever [alpha].  The returned value is the stored
    fitness. *)
Theorem evaluate_fitness p al self w f w' :
  evaluate p al self w = Ok (f, w') ->
  exists o',
    sols w' !! self = Some o' /\ fitness o' = f /\
    (is_feasible o' = false -> f = PInf) /\
    (is_feasible o' = true ->
     exists q, f = Fin q /\
       (q == al * (total_cost o' / ((12 # 10) * total_base_cost p))
             + (1 - al) * (total_latency o'
                           / (inject_Z (Z.of_nat (length (devices p)))
                              * 1000 * math_sqrt_2)))%Q).
Proof.
  intros H.
  apply evaluate_ok in H as (o & pl & asg & cost & lat & ok & Ho & Hp & Ha & Hm & ->).
  exists (set_scores o cost lat f ok). split; [|split].
  - simpl. apply list_lookup_insert_eq. eapply lookup_lt_Some; eauto.
  - reflexivity.
  - simpl. unfold evaluate_maps in Hm.
    apply rbind_ok in Hm as ([cost0 ru0] & _ & Hm).
    apply rbind_ok in Hm as ([[ok3 ru] lat3] & _ & Hm).
    apply rbind_ok in Hm as (over & _ & Hm).
    apply rbind_ok in Hm as (fit & Hs & Hm). inversion Hm; subst; clear Hm.
    unfold score in Hs. split; intros E; rewrite E in Hs.
    + inversion Hs; reflexivity.
    + apply rbind_ok in Hs as (nc & Hc & Hs).
      apply rbind_ok in Hs as (nl & Hl & Hs). inversion Hs; subst.
      eexists. split; [reflexivity|].
      unfold py_div in Hc, Hl.
      destruct (Qeq_bool (max_possible_cost p) 0); [discriminate|].
      destruct (Qeq_bool (max_possible_latency p) 0); [discriminate|].
      inversion Hc; inversion Hl; subst.
      unfold max_possible_latency. rewrite max_possible_cost_sum. reflexivity.
Qed.

Lemma evaluate_fitness_witness :
  exists f w' o',
    evaluate (line_problem 4) (1 # 2) 0 line_world = Ok (f, w') /\
    sols w' !! 0 = Some o' /\ fitness o' = f /\
    (is_feasible o' = false -> f = PInf) /\
    (is_feasible o' = true ->
     exists q, f = Fin q /\
       (q == (1 # 2) * (total_cost o' / ((12 # 10) * total_base_cost (line_problem 4)))
             + (1 - (1 # 2)) * (total_latency o'
                           / (inject_Z (Z.of_nat (length (devices (line_problem 4))))
                              * 1000 * math_sqrt_2)))%Q).
Proof.
  destruct (evaluate (line_problem 4) (1 # 2) 0 line_world) as [[f w']|e] eqn:E;
    [|vm_compute in E; discriminate].
  destruct (@evaluate_fitness (line_problem 4) (1 # 2) 0 line_world f w' E)
    as (o' & R).
  exists f, w', o'. split; [reflexivity | exact R].
Defined.

(* ================================================================= *)
(** ** Framing: what an operation may write *)

Lemma stable_refl n m w : stable n m w w.
Proof. unfold stable. auto 6. Qed.

Lemma stable_trans n m w1 w2 w3 :
  stable n m w1 w2 -> stable n m w2 w3 -> stable n m w1 w3.
Proof.
  intros (A1 & B1 & C1 & D1 & E1) (A2 & B2 & C2 & D2 & E2).
  repeat split.
  - intros r L. rewrite A2, A1; auto.
  - intros l L. rewrite B2, B1; auto.
  - lia.
  - lia.
  - congruence.
Qed.

Section Rules.

Variable good : sol_obj -> Prop.
Variables n m : nat.

Lemma safe_ret {A} (a : A) (R : A -> Prop) : R a -> safe good n m (ret a) R.
Proof.
  intros H w a' w' O E. inversion E; subst. auto using stable_refl.
Qed.

Lemma safe_raise {A} e (R : A -> Prop) : safe good n m (raise e) R.
Proof. intros w a w' O E. discriminate. Qed.

Lemma safe_lift {A} (r : result A) : safe good n m (lift r) (fun a => r = Ok a).
Proof.
  intros w a w' O E. apply lift_ok in E as [-> E]. auto using stable_refl.
Qed.

Lemma safe_bind {A B} (c : M A) (k : A -> M B) (R1 : A -> Prop) (R2 : B -> Prop) :
  safe good n m c R1 -> (forall a, R1 a -> safe good n m (k a) R2) ->
  safe good n m (bind c k) R2.
Proof.
  intros Hc Hk w b w' O E. apply bind_ok in E as (a & w1 & E1 & E2).
  destruct (Hc _ _ _ O E1) as (S1 & O1 & Ra).
  destruct (Hk _ Ra _ _ _ O1 E2) as (S2 & O2 & Rb).
  eauto using stable_trans.
Qed.

Lemma safe_weaken {A} (c : M A) (R R' : A -> Prop) :
  safe good n m c R -> (forall a, R a -> R' a) -> safe good n m c R'.
Proof.
  intros Hc HR w a w' O E. destruct (Hc _ _ _ O E) as (S1 & O1 & Ra). auto.
Qed.

Lemma safe_read_sol r :
  safe good n m (read_sol r)
    (fun o => good o /\
              (n <= r -> m <= placement_map o /\ m <= assignment_map o)).
Proof.
  intros w o w' O E. apply read_sol_ok in E as [-> E].
  split; [apply stable_refl|]. split; [exact O|].
  destruct O as (_ & _ & O & G). split; [eauto|]. intros L. eauto.
Qed.

Lemma safe_read_dict l : safe good n m (read_dict l) (fun _ => True).
Proof.
  intros w o w' O E. apply read_dict_ok in E as [-> E].
  auto using stable_refl.
Qed.

Lemma safe_draw : safe good n m draw (fun _ => True).
Proof.
  intros w a w' O E. inversion E; subst. split; [|split; [|exact I]].
  - unfold stable. simpl. auto 6.
  - exact O.
Qed.

Lemma safe_alloc_dict d : safe good n m (alloc_dict d) (fun l => m <= l).
Proof.
  intros w l w' (On & Om & O & G) E. inversion E; subst. simpl.
  split; [|split; [|exact Om]].
  - unfold stable. simpl. repeat split; try lia.
    + intros l L. apply lookup_app_l. lia.
    + rewrite length_app. lia.
  - unfold owned. simpl. rewrite length_app.
    split; [lia|]. split; [lia|]. split; [exact O | exact G].
Qed.

Lemma safe_alloc_sol o :
  good o -> m <= placement_map o -> m <= assignment_map o ->
  safe good n m (alloc_sol o) (fun r => n <= r).
Proof.
  intros Hg Hp Ha w r w' (On & Om & O & G) E. inversion E; subst. simpl.
  split; [|split; [|exact On]].
  - unfold stable. simpl. repeat split; try lia.
    + intros r L. apply lookup_app_l. lia.
    + rewrite length_app. lia.
  - unfold owned. simpl. rewrite length_app. split; [lia|]. split; [lia|].
    split.
    + intros r o' L E'. apply lookup_app_Some in E' as [E'|[_ E']].
      * eauto.
      * destruct (r - length (sols w)); simpl in E'; [|discriminate].
        inversion E'; subst. auto.
    + intros r o' E'. apply lookup_app_Some in E' as [E'|[_ E']].
      * eauto.
      * destruct (r - length (sols w)); simpl in E'; [|discriminate].
        inversion E'; subst. auto.
Qed.

Lemma safe_write_sol r o :
  good o -> n <= r -> m <= placement_map o -> m <= assignment_map o ->
  safe good n m (write_sol r o) (fun _ => True).
Proof.
  intros Hg Hr Hp Ha w u w' (On & Om & O & G) E.
  apply write_sol_ok in E as [-> L].
  split; [|split; [|exact I]].
  - unfold stable. simpl. rewrite length_insert. repeat split; try lia.
    intros r' L'. apply list_lookup_insert_ne. lia.
  - unfold owned. simpl. rewrite length_insert. split; [lia|]. split; [lia|].
    split.
    + intros r' o' L' E'. destruct (Nat.eq_dec r r') as [<-|N].
      * rewrite list_lookup_insert_eq in E' by exact L. inversion E'; subst. auto.
      * rewrite list_lookup_insert_ne in E' by exact N. eauto.
    + intros r' o' E'. destruct (Nat.eq_dec r r') as [<-|N].
      * rewrite list_lookup_insert_eq in E' by exact L. inversion E'; subst. auto.
      * rewrite list_lookup_insert_ne in E' by exact N. eauto.
Qed.

Lemma safe_write_dict l d :
  m <= l -> safe good n m (write_dict l d) (fun _ => True).
Proof.
  intros Hl w u w' (On & Om & O & G) E. apply write_dict_ok in E as [-> L].
  split; [|split; [|exact I]].
  - unfold stable. simpl. rewrite length_insert. repeat split; try lia.
    intros l' L'. apply list_lookup_insert_ne. lia.
  - unfold owned. simpl. rewrite length_insert. split; [lia|]. split; [lia|].
    split; [exact O | exact G].
Qed.

(** *** Loops *)

Lemma safe_for_each {A} (l : list A) (body : A -> M unit) :
  (forall x, safe good n m (body x) (fun _ => True)) ->
  safe good n m (for_each l body) (fun _ => True).
Proof.
  intros H. induction l as [|x l IH]; simpl.
  - apply safe_ret. exact I.
  - eapply safe_bind; [apply H | intros _ _; exact IH].
Qed.

Lemma safe_filter_m {A} (f : A -> M bool) (l : list A) (R : A -> Prop) :
  (forall x, safe good n m (f x) (fun _ => True)) ->
  Forall R l -> safe good n m (filter_m f l) (Forall R).
Proof.
  intros H. induction l as [|x l IH]; simpl; intros F.
  - apply safe_ret. constructor.
  - apply Forall_cons in F as [Fx F].
    eapply safe_bind; [apply H | intros b _].
    eapply safe_bind; [apply IH; exact F | intros r Hr].
    apply safe_ret. destruct b; [constructor|]; auto.
Qed.

Lemma safe_map_m {A B} (f : A -> M B) (l : list A) (R : B -> Prop) :
  (forall x, safe good n m (f x) R) -> safe good n m (map_m f l) (Forall R).
Proof.
  intros H. induction l as [|x l IH]; simpl.
  - apply safe_ret. constructor.
  - eapply safe_bind; [apply H | intros y Hy].
    eapply safe_bind; [apply IH | intros r Hr].
    apply safe_ret. constructor; auto.
Qed.

Lemma safe_fold_m {A S} (f : S -> A -> M S) (l : list A) (s : S) (R : S -> Prop) :
  (forall s x, R s -> safe good n m (f s x) R) -> R s ->
  safe good n m (fold_m f l s) R.
Proof.
  intros H. revert s. induction l as [|x l IH]; simpl; intros s Rs.
  - apply safe_ret. exact Rs.
  - eapply safe_bind; [apply H; exact Rs | intros s' Hs'; apply IH; exact Hs'].
Qed.

Lemma safe_repeat_m {A} (k : nat) (c : M A) (R : A -> Prop) :
  safe good n m c R -> safe good n m (repeat_m k c) (Forall R).
Proof.
  intros H. induction k as [|k IH]; simpl.
  - apply safe_ret. constructor.
  - eapply safe_bind; [apply H | intros y Hy].
    eapply safe_bind; [apply IH | intros r Hr].
    apply safe_ret. constructor; auto.
Qed.

Lemma safe_iterate_m {S} (k : nat) (f : S -> M S) (s : S) (R : S -> Prop) :
  (forall s, R s -> safe good n m (f s) R) -> R s ->
  safe good n m (iterate_m k f s) R.
Proof.
  intros H. revert s. induction k as [|k IH]; simpl; intros s Rs.
  - apply safe_ret. exact Rs.
  - eapply safe_bind; [apply H; exact Rs | intros s' Hs'; apply IH; exact Hs'].
Qed.

(** *** The random module *)

Lemma safe_random_random : safe good n m random_random (fun u => (0 <= u)%Q).
Proof.
  unfold random_random.
  eapply safe_bind; [apply safe_draw | intros a _].
  eapply safe_bind; [apply safe_draw | intros b _].
  apply safe_ret. unfold Qle. simpl. lia.
Qed.

Lemma safe_random_randint a b : safe good n m (random_randint a b) (fun _ => True).
Proof.
  unfold random_randint. destruct (b <? a)%Z; [apply safe_raise|].
  eapply safe_bind; [apply safe_draw | intros x _]. apply safe_ret. exact I.
Qed.

Lemma safe_random_choice {A} (l : list A) (R : A -> Prop) :
  Forall R l -> safe good n m (random_choice l) R.
Proof.
  intros F. unfold random_choice. destruct l as [|x l]; [apply safe_raise|].
  eapply safe_bind; [apply safe_draw | intros k _].
  destruct (nth_error (x :: l) (k mod length (x :: l))) as [y|] eqn:E;
    [|apply safe_raise].
  apply safe_ret. rewrite Forall_forall in F. apply F.
  apply list_elem_of_In. eapply nth_error_In; eauto.
Qed.

Lemma remove_nth_In {A} i (l : list A) x : In x (remove_nth i l) -> In x l.
Proof.
  revert i. induction l as [|y l IH]; intros i; destruct i; simpl; auto.
  intros [H|H]; eauto.
Qed.

Lemma safe_sample_from {A} k (l : list A) (R : A -> Prop) :
  Forall R l -> safe good n m (sample_from k l) (Forall R).
Proof.
  revert l. induction k as [|k IH]; simpl; intros l F.
  - apply safe_ret. constructor.
  - eapply safe_bind; [apply safe_draw | intros j _].
    destruct (nth_error l (j mod length l)) as [x|] eqn:E; [|apply safe_raise].
    eapply safe_bind.
    + apply IH. rewrite Forall_forall in *. intros y Hy. apply F.
      apply list_elem_of_In. apply list_elem_of_In in Hy.
      eapply remove_nth_In; eauto.
    + intros r Hr. apply safe_ret. constructor; [|exact Hr].
      rewrite Forall_forall in F. apply F. apply list_elem_of_In.
      eapply nth_error_In; eauto.
Qed.

Lemma safe_random_sample {A} (l : list A) k (R : A -> Prop) :
  Forall R l -> safe good n m (random_sample l k) (Forall R).
Proof.
  intros F. unfold random_sample. destruct (length l <? k)%nat;
    [apply safe_raise | apply safe_sample_from; exact F].
Qed.

Lemma safe_random_shuffle {A} (l : list A) (R : A -> Prop) :
  Forall R l -> safe good n m (random_shuffle l) (Forall R).
Proof. apply safe_sample_from. Qed.

End Rules.

(* ================================================================= *)
(** ** Framing of the methods and operators *)

Create HintDb safe.

#[export] Hint Resolve safe_raise safe_lift safe_read_sol safe_read_dict
  safe_draw safe_alloc_dict safe_random_random safe_random_randint : safe.

(** Walks through a monadic term, leaving the side conditions that the
    hints do not settle. *)
Ltac safe_go :=
  lazymatch goal with
  | |- safe _ _ _ (bind _ _) _ =>
      eapply safe_bind; [safe_go | intros; safe_go]
  | |- safe _ _ _ (ret _) _ => apply safe_ret; auto
  | |- safe _ _ _ (if ?b then _ else _) _ => destruct b; safe_go
  | |- safe _ _ _ (match ?x with _ => _ end) _ => destruct x; safe_go
  | |- safe _ _ _ _ _ => first [solve [eauto with safe] | idtac]
  | |- _ => idtac
  end.

Section Methods.

Variable good : sol_obj -> Prop.
Hypothesis K : kept good.
Variables n m : nat.

Lemma safe_true {A} (c : M A) (R : A -> Prop) :
  safe good n m c R -> safe good n m c (fun _ => True).
Proof. intros H. eapply safe_weaken; eauto. Qed.

Lemma safe_dict_store l k v :
  m <= l -> safe good n m (dict_store l k v) (fun _ => True).
Proof.
  intros L. unfold dict_store. safe_go. apply safe_write_dict. exact L.
Qed.

Lemma safe_new_solution p : safe good n m (new_solution p) (fun r => n <= r).
Proof.
  unfold new_solution. safe_go.
  apply safe_alloc_sol; [apply (kept_blank K) | simpl; assumption ..].
Qed.

Lemma safe_clone p self : safe good n m (clone p self) (fun r => n <= r).
Proof.
  unfold clone.
  eapply safe_bind; [apply safe_read_sol | intros o [Go _]].
  eapply safe_bind; [apply safe_new_solution | intros new Hn].
  eapply safe_bind; [apply safe_read_dict | intros pd _].
  eapply safe_bind; [apply safe_alloc_dict | intros pm Hpm].
  eapply safe_bind; [apply safe_read_sol | intros n1 [G1 H1]].
  eapply safe_bind;
    [apply safe_write_sol;
     [apply (kept_placement_map K); exact G1 | simpl in *; tauto ..]
    | intros _ _].
  eapply safe_bind; [apply safe_read_dict | intros ad _].
  eapply safe_bind; [apply safe_alloc_dict | intros am Ham].
  eapply safe_bind; [apply safe_read_sol | intros n2 [G2 H2]].
  eapply safe_bind;
    [apply safe_write_sol;
     [apply (kept_assignment_map K); exact G2 | simpl in *; tauto ..]
    | intros _ _].
  eapply safe_bind; [apply safe_read_sol | intros n3 [G3 H3]].
  eapply safe_bind;
    [apply safe_write_sol;
     [apply (kept_copy K); assumption | simpl in *; tauto ..]
    | intros _ _].
  apply safe_ret. exact Hn.
Qed.

Lemma safe_place_cloudlet self c t :
  n <= self -> safe good n m (place_cloudlet self c t) (fun _ => True).
Proof.
  intros L. unfold place_cloudlet.
  eapply safe_bind; [apply safe_read_sol | intros o Ho].
  eapply safe_bind; [apply safe_read_dict | intros pd _].
  destruct (dict_mem c pd); [|apply safe_ret; exact I].
  apply safe_dict_store. simpl in *. tauto.
Qed.

Lemma safe_remove_cloudlet self c :
  n <= self -> safe good n m (remove_cloudlet self c) (fun _ => True).
Proof.
  intros L. unfold remove_cloudlet.
  eapply safe_bind; [apply safe_read_sol | intros o Ho].
  eapply safe_bind; [apply safe_read_dict | intros pd _].
  destruct (dict_mem c pd); [|apply safe_ret; exact I].
  eapply safe_bind; [apply safe_dict_store; simpl in *; tauto | intros _ _].
  eapply safe_bind; [apply safe_read_dict | intros items _].
  apply safe_for_each. intros [k v].
  destruct (is_some_eq v c); [|apply safe_ret; exact I].
  apply safe_dict_store. simpl in *. tauto.
Qed.

Lemma safe_assign_device self d c :
  n <= self -> safe good n m (assign_device self d c) (fun _ => True).
Proof.
  intros L. unfold assign_device.
  eapply safe_bind; [apply safe_read_sol | intros o Ho].
  eapply safe_bind; [apply safe_read_dict | intros pd _].
  destruct (dict_get c pd) as [[t|]|]; try (apply safe_ret; exact I).
  apply safe_dict_store. simpl in *. tauto.
Qed.

Lemma safe_get_devices_assigned_to p self c :
  safe good n m (get_devices_assigned_to p self c) (fun _ => True).
Proof. unfold get_devices_assigned_to. safe_go. Qed.

Lemma safe_evaluate p al self :
  n <= self -> safe good n m (evaluate p al self) (fun _ => True).
Proof.
  intros L. unfold evaluate.
  eapply safe_bind; [apply safe_read_sol | intros o [Go Ho]].
  eapply safe_bind; [apply safe_read_dict | intros pl _].
  eapply safe_bind; [apply safe_read_dict | intros asg _].
  eapply safe_bind; [apply safe_lift | intros [[[cost lat] ok] fit] E].
  eapply safe_bind;
    [apply safe_write_sol;
     [eapply (kept_scores K); eauto | simpl in *; tauto ..]
    | intros _ _].
  apply safe_ret. exact I.
Qed.

Lemma safe_placement_item self k :
  safe good n m (placement_item self k) (fun _ => True).
Proof. unfold placement_item. safe_go. eapply safe_true, safe_lift. Qed.

Lemma safe_assignment_item self k :
  safe good n m (assignment_item self k) (fun _ => True).
Proof. unfold assignment_item. safe_go. eapply safe_true, safe_lift. Qed.

Lemma safe_placement_store self k v :
  n <= self -> safe good n m (placement_store self k v) (fun _ => True).
Proof.
  intros L. unfold placement_store.
  eapply safe_bind; [apply safe_read_sol | intros o Ho].
  apply safe_dict_store. simpl in *. tauto.
Qed.

Lemma safe_assignment_store self k v :
  n <= self -> safe good n m (assignment_store self k v) (fun _ => True).
Proof.
  intros L. unfold assignment_store.
  eapply safe_bind; [apply safe_read_sol | intros o Ho].
  apply safe_dict_store. simpl in *. tauto.
Qed.

Lemma safe_with_fitness l : safe good n m (with_fitness l) (fun _ => True).
Proof.
  unfold with_fitness. eapply safe_true, (@safe_map_m good n m _ _ _ _ (fun _ => True)).
  intros r. safe_go.
Qed.

Lemma safe_feasible_members l (R : loc -> Prop) :
  Forall R l -> safe good n m (feasible_members l) (Forall R).
Proof.
  intros F. unfold feasible_members. apply safe_filter_m; [|exact F].
  intros r. safe_go.
Qed.

End Methods.

#[export] Hint Resolve safe_new_solution safe_clone safe_place_cloudlet
  safe_remove_cloudlet safe_assign_device safe_get_devices_assigned_to
  safe_evaluate safe_placement_item safe_assignment_item
  safe_placement_store safe_assignment_store safe_with_fitness
  safe_dict_store : safe.

Lemma min_by_In {A} (key : A -> fl) x l : In (min_by key x l) (x :: l).
Proof.
  revert x. induction l as [|y l IH]; intros x; simpl; [auto|].
  destruct (IH (if fl_ltb (key y) (key x) then y else x)) as [E|I].
  - rewrite <- E. destruct (fl_ltb (key y) (key x)); auto.
  - auto.
Qed.

Section Operators.

Variable good : sol_obj -> Prop.
Hypothesis K : kept good.
Variables n m : nat.

Lemma safe_map_m_in {A B} (f : A -> M B) (l : list A) (P : A -> Prop)
    (R : B -> Prop) :
  (forall x, P x -> safe good n m (f x) R) -> Forall P l ->
  safe good n m (map_m f l) (Forall R).
Proof.
  intros H. induction l as [|x l IH]; simpl; intros F.
  - apply safe_ret. constructor.
  - apply Forall_cons in F as [Fx F].
    eapply safe_bind; [apply H; exact Fx | intros y Hy].
    eapply safe_bind; [apply IH; exact F | intros r Hr].
    apply safe_ret. constructor; auto.
Qed.

Lemma safe_min_fitness l (R : loc -> Prop) :
  Forall R l -> safe good n m (min_fitness l) R.
Proof.
  intros F. unfold min_fitness.
  eapply safe_bind.
  - unfold with_fitness.
    apply (@safe_map_m_in _ _ _ l R (fun pr => R (fst pr))); [|exact F].
    intros r Hr. eapply safe_bind; [apply safe_read_sol | intros o _].
    apply safe_ret. exact Hr.
  - intros keyed Hk. destruct keyed as [|x rest]; [apply safe_raise|].
    apply safe_ret. rewrite Forall_forall in Hk.
    apply (Hk (min_by snd x rest)). apply list_elem_of_In. apply min_by_In.
Qed.

Lemma safe_tournament_selection ga k (R : loc -> Prop) :
  Forall R (population ga) -> safe good n m (tournament_selection ga k) R.
Proof.
  intros F. unfold tournament_selection.
  eapply safe_bind; [apply safe_random_sample; exact F | intros t Ht].
  apply safe_min_fitness. exact Ht.
Qed.

Lemma safe_can_serve p r device c :
  safe good n m (can_serve p r device c) (fun _ => True).
Proof.
  unfold can_serve.
  eapply safe_bind; [apply safe_placement_item | intros t _].
  destruct t as [t|]; [|apply safe_raise].
  eapply safe_bind; [apply safe_lift | intros ct _].
  destruct (fl_leb _ _); [|apply safe_ret; exact I].
  eapply safe_bind; [apply safe_get_devices_assigned_to | intros a _].
  apply safe_ret. exact I.
Qed.

Lemma safe_force_place p r device c :
  n <= r -> safe good n m (force_place p r device c) (fun _ => True).
Proof.
  intros L. unfold force_place.
  eapply safe_bind; [apply safe_placement_item | intros t _].
  destruct (is_none t); [|apply safe_ret; exact I].
  destruct (find _ _) as [ct|]; [|apply safe_ret; exact I].
  eapply safe_bind; [apply safe_place_cloudlet; exact L | intros _ _].
  apply safe_assign_device. exact L.
Qed.

Lemma safe_repair_device p r device :
  n <= r -> safe good n m (repair_device p r device) (fun _ => True).
Proof.
  intros L. unfold repair_device.
  eapply safe_bind.
  { apply (@safe_filter_m good n m _ _ _ (fun _ => True)).
    - intros c. eapply safe_bind; [apply safe_placement_item | intros t _].
      apply safe_ret. exact I.
    - apply Forall_forall. auto. }
  intros cwc _.
  eapply safe_bind.
  { apply (@safe_filter_m good n m _ _ _ (fun _ => True)).
    - intros c. apply safe_can_serve.
    - apply Forall_forall. auto. }
  intros feasible _. destruct feasible as [|c0 rest].
  - apply safe_for_each. intros c. apply safe_force_place. exact L.
  - apply safe_assign_device. exact L.
Qed.

Lemma safe_repair_solution ga s :
  safe good n m (repair_solution ga s) (fun r => n <= r).
Proof.
  unfold repair_solution.
  eapply safe_bind; [apply (safe_clone K) | intros r Hr].
  eapply safe_bind.
  { apply (@safe_filter_m good n m _ _ _ (fun _ => True)).
    - intros d. eapply safe_bind; [apply safe_assignment_item | intros t _].
      apply safe_ret. exact I.
    - apply Forall_forall. auto. }
  intros un _.
  eapply safe_bind.
  { apply safe_for_each. intros d. apply safe_repair_device. exact Hr. }
  intros _ _.
  eapply safe_bind; [apply (safe_evaluate K); exact Hr | intros _ _].
  apply safe_ret. exact Hr.
Qed.

Lemma safe_covers p r device c : safe good n m (covers p r device c) (fun _ => True).
Proof.
  unfold covers.
  eapply safe_bind; [apply safe_placement_item | intros t _].
  destruct t as [t|]; [|apply safe_ret; exact I].
  eapply safe_bind; [apply safe_lift | intros ct _]. apply safe_ret. exact I.
Qed.

Lemma safe_create_random_solution ga :
  safe good n m (create_random_solution ga) (fun r => n <= r).
Proof.
  unfold create_random_solution.
  eapply safe_bind; [apply (safe_new_solution K) | intros s Hs].
  eapply safe_bind; [apply safe_random_randint | intros k _].
  eapply safe_bind.
  { apply (@safe_random_sample good n m _ _ _ (fun _ => True)).
    apply Forall_forall. auto. }
  intros sel _.
  eapply safe_bind.
  { apply safe_for_each. intros c.
    eapply safe_bind.
    - apply (@safe_random_choice good n m _ _ (fun _ => True)).
      apply Forall_forall. auto.
    - intros ct _. apply safe_place_cloudlet. exact Hs. }
  intros _ _.
  eapply safe_bind.
  { apply (@safe_random_shuffle good n m _ _ (fun _ => True)).
    apply Forall_forall. auto. }
  intros un _.
  eapply safe_bind.
  { apply safe_for_each. intros d.
    eapply safe_bind.
    - apply (@safe_filter_m good n m _ _ _ (fun _ => True)).
      + intros c. apply safe_covers.
      + apply Forall_forall. auto.
    - intros feasible _. destruct feasible as [|c0 rest].
      + apply safe_ret. exact I.
      + apply safe_assign_device. exact Hs. }
  intros _ _.
  eapply safe_bind; [apply (safe_evaluate K); exact Hs | intros _ _].
  eapply safe_bind; [apply safe_read_sol | intros o _].
  destruct (is_feasible o); [apply safe_ret; exact Hs|].
  apply safe_repair_solution.
Qed.

Lemma safe_try_site p r device best c :
  safe good n m (try_site p r device best c) (fun _ => True).
Proof.
  unfold try_site.
  eapply safe_bind; [apply safe_placement_item | intros t _].
  destruct t as [t|]; [|apply safe_ret; exact I].
  eapply safe_bind; [apply safe_lift | intros ct _].
  destruct (fl_leb _ _); [|apply safe_ret; exact I].
  eapply safe_bind; [apply safe_get_devices_assigned_to | intros a _].
  destruct (fits _ _ _); [|apply safe_ret; exact I].
  destruct (fl_ltb _ _); apply safe_ret; exact I.
Qed.

Lemma safe_reassign_devices ga s :
  safe good n m (reassign_devices ga s) (fun r => n <= r).
Proof.
  unfold reassign_devices.
  eapply safe_bind; [apply (safe_clone K) | intros r Hr].
  eapply safe_bind; [apply safe_read_sol | intros o Ho].
  eapply safe_bind; [apply safe_read_dict | intros asg _].
  eapply safe_bind.
  { apply safe_for_each. intros k. apply safe_assignment_store. exact Hr. }
  intros _ _.
  eapply safe_bind.
  { apply safe_for_each. intros d.
    eapply safe_bind.
    - apply (@safe_fold_m good n m _ _ _ _ _ (fun _ => True)); [|exact I].
      intros b c _. apply safe_try_site.
    - intros best _. destruct (fst best); [|apply safe_ret; exact I].
      apply safe_assign_device. exact Hr. }
  intros _ _. apply safe_ret. exact Hr.
Qed.

Lemma safe_swap_segment p1 p2 c1 c2 keys i :
  n <= c1 -> n <= c2 ->
  safe good n m (swap_segment p1 p2 c1 c2 keys i) (fun _ => True).
Proof.
  intros L1 L2. unfold swap_segment.
  eapply safe_bind; [apply safe_lift | intros k _].
  eapply safe_bind; [apply safe_placement_item | intros v2 _].
  eapply safe_bind; [apply safe_placement_item | intros v1 _].
  eapply safe_bind; [apply safe_placement_store; exact L1 | intros _ _].
  apply safe_placement_store. exact L2.
Qed.

Lemma safe_crossover ga p1 p2 :
  safe good n m (crossover ga p1 p2) (fun cs => n <= fst cs /\ n <= snd cs).
Proof.
  unfold crossover.
  eapply safe_bind; [apply (safe_clone K) | intros c1 H1].
  eapply safe_bind; [apply (safe_clone K) | intros c2 H2].
  eapply safe_bind; [apply safe_random_random | intros u _].
  eapply safe_bind with (R1 := fun cs => n <= fst cs /\ n <= snd cs).
  - destruct (Qltb u (crossover_rate ga)); [|apply safe_ret; simpl; auto].
    eapply safe_bind; [apply safe_read_sol | intros o1 _].
    eapply safe_bind; [apply safe_read_dict | intros pd1 _].
    destruct (2 <=? _)%Z; [|apply safe_ret; simpl; auto].
    eapply safe_bind; [apply safe_random_randint | intros a _].
    eapply safe_bind; [apply safe_random_randint | intros b _].
    eapply safe_bind.
    { apply safe_for_each. intros i. apply safe_swap_segment; assumption. }
    intros _ _.
    eapply safe_bind; [apply safe_reassign_devices | intros d1 Hd1].
    eapply safe_bind; [apply safe_reassign_devices | intros d2 Hd2].
    apply safe_ret. simpl. auto.
  - intros [d1 d2] [Hd1 Hd2]. simpl in *.
    eapply safe_bind; [apply (safe_evaluate K); exact Hd1 | intros _ _].
    eapply safe_bind; [apply (safe_evaluate K); exact Hd2 | intros _ _].
    apply safe_ret. simpl. auto.
Qed.

Lemma safe_used_sites self : safe good n m (used_sites self) (fun _ => True).
Proof. unfold used_sites. safe_go. Qed.

Lemma safe_apply_mutation p r mt :
  n <= r -> safe good n m (apply_mutation p r mt) (fun _ => True).
Proof.
  intros L. destruct mt; unfold apply_mutation.
  - eapply safe_bind.
    { apply (@safe_filter_m good n m _ _ _ (fun _ => True)).
      - intros c. eapply safe_bind; [apply safe_placement_item | intros t _].
        apply safe_ret. exact I.
      - apply Forall_forall. auto. }
    intros unused _. destruct unused as [|c0 rest]; [apply safe_ret; exact I|].
    eapply safe_bind.
    { apply (@safe_random_choice good n m _ _ (fun _ => True)).
      apply Forall_forall. auto. }
    intros c _.
    eapply safe_bind.
    { apply (@safe_random_choice good n m _ _ (fun _ => True)).
      apply Forall_forall. auto. }
    intros ct _. apply safe_place_cloudlet. exact L.
  - eapply safe_bind; [apply safe_used_sites | intros used _].
    destruct used as [|c0 rest]; [apply safe_ret; exact I|].
    eapply safe_bind.
    { apply (@safe_random_choice good n m _ _ (fun _ => True)).
      apply Forall_forall. auto. }
    intros c _. apply safe_remove_cloudlet. exact L.
  - eapply safe_bind; [apply safe_used_sites | intros used _].
    destruct used as [|c0 rest]; [apply safe_ret; exact I|].
    eapply safe_bind.
    { apply (@safe_random_choice good n m _ _ (fun _ => True)).
      apply Forall_forall. auto. }
    intros c _.
    eapply safe_bind; [apply safe_placement_item | intros cur _].
    destruct (map ct_id _) as [|t0 ts]; [apply safe_ret; exact I|].
    eapply safe_bind.
    { apply (@safe_random_choice good n m _ _ (fun _ => True)).
      apply Forall_forall. auto. }
    intros t _. apply safe_place_cloudlet. exact L.
  - eapply safe_bind; [apply safe_used_sites | intros used _].
    destruct (2 <=? length used)%nat; [|apply safe_ret; exact I].
    eapply safe_bind.
    { apply (@safe_random_sample good n m _ _ _ (fun _ => True)).
      apply Forall_forall. auto. }
    intros pair _.
    destruct pair as [|c1 [|c2 [|c3 rest]]]; try apply safe_raise.
    eapply safe_bind; [apply safe_placement_item | intros t1 _].
    eapply safe_bind; [apply safe_placement_item | intros t2 _].
    eapply safe_bind; [apply safe_placement_store; exact L | intros _ _].
    apply safe_placement_store. exact L.
Qed.

Lemma safe_mutate ga s : safe good n m (mutate ga s) (fun r => n <= r).
Proof.
  unfold mutate.
  eapply safe_bind; [apply (safe_clone K) | intros r Hr].
  eapply safe_bind; [apply safe_random_random | intros u _].
  eapply safe_bind with (R1 := fun r => n <= r).
  - destruct (Qltb u (mutation_rate ga)); [|apply safe_ret; exact Hr].
    eapply safe_bind.
    { apply (@safe_random_choice good n m _ _ (fun _ => True)).
      apply Forall_forall. auto. }
    intros mt _.
    eapply safe_bind; [apply safe_apply_mutation; exact Hr | intros _ _].
    apply safe_reassign_devices.
  - intros r' Hr'.
    eapply safe_bind; [apply (safe_evaluate K); exact Hr' | intros _ _].
    apply safe_ret. exact Hr'.
Qed.

Lemma safe_update_best_solution ga (R : loc -> Prop) :
  (forall r, n <= r -> R r) ->
  match best_solution ga with Some b => R b | None => True end ->
  safe good n m (update_best_solution ga)
    (fun ga' => population ga' = population ga /\
                match best_solution ga' with Some b => R b | None => True end).
Proof.
  intros HR Hb. unfold update_best_solution.
  eapply safe_bind.
  { apply (@safe_feasible_members good n m _ (fun _ => True)).
    apply Forall_forall. auto. }
  intros feasible _. destruct feasible as [|x rest]; [apply safe_ret; auto|].
  eapply safe_bind.
  { apply (@safe_min_fitness _ (fun _ => True)). apply Forall_forall. auto. }
  intros cb _.
  eapply safe_bind; [apply safe_read_sol | intros cbo _].
  destruct (best_solution ga) as [b|] eqn:Eb.
  - eapply safe_bind; [apply safe_read_sol | intros bo _].
    destruct (fl_ltb _ _).
    + eapply safe_bind; [apply (safe_clone K) | intros c Hc].
      apply safe_ret. simpl. auto.
    + apply safe_ret. rewrite Eb. auto.
  - eapply safe_bind; [apply (safe_clone K) | intros c Hc].
    apply safe_ret. simpl. auto.
Qed.

End Operators.

Section Annealing.

Variable math_exp : Q -> Q.
Variable good : sol_obj -> Prop.
Hypothesis K : kept good.
Variables n m : nat.

Lemma safe_sa_step ga t st :
  safe good n m (sa_step math_exp ga t st) (fun st' => fst st' = fst st \/ n <= fst st').
Proof.
  destruct st as [cur cf]. unfold sa_step.
  eapply safe_bind; [apply (safe_mutate K) | intros nb Hnb].
  eapply safe_bind; [apply safe_read_sol | intros o _].
  destruct (fl_ltb (fitness o) cf); [apply safe_ret; simpl; auto|].
  eapply safe_bind; [apply safe_random_random | intros u _].
  eapply safe_bind; [apply safe_lift | intros x _].
  destruct (fl_ltb _ _); apply safe_ret; simpl; auto.
Qed.

Lemma safe_annealing_enabled ga s t :
  negb (use_sa ga) || Qltb t (1 # 10) = false ->
  safe good n m (simulated_annealing_improvement math_exp ga s t) (fun r => n <= r).
Proof.
  intros E. unfold simulated_annealing_improvement. rewrite E.
  eapply safe_bind; [apply (safe_clone K) | intros cur Hc].
  eapply safe_bind; [apply safe_read_sol | intros o _].
  eapply safe_bind.
  - apply (@safe_iterate_m good n m _ _ _ _ (fun st => n <= fst st)); [|exact Hc].
    intros st Hst. eapply safe_weaken; [apply safe_sa_step|].
    intros st' [E'|L]; simpl; [rewrite E'; exact Hst | exact L].
  - intros st Hst. apply safe_ret. exact Hst.
Qed.

Lemma safe_simulated_annealing_improvement ga s t :
  safe good n m (simulated_annealing_improvement math_exp ga s t) (same_or_new n s).
Proof.
  destruct (negb (use_sa ga) || Qltb t (1 # 10)) eqn:E.
  - unfold simulated_annealing_improvement. rewrite E.
    apply safe_ret. left. reflexivity.
  - eapply safe_weaken; [apply safe_annealing_enabled; exact E|].
    intros r L. right. exact L.
Qed.

End Annealing.

(* ================================================================= *)
(** ** The operators leave their inputs alone *)

Lemma kept_true : kept (fun _ => True).
Proof. constructor; auto. Qed.

Lemma evaluate_maps_fitness p al pl asg c l ok f :
  evaluate_maps p al pl asg = Ok (c, l, ok, f) ->
  if ok then exists q, f = Fin q else f = PInf.
Proof.
  unfold evaluate_maps. intros H.
  apply rbind_ok in H as ([cost0 ru0] & _ & H).
  apply rbind_ok in H as ([[ok3 ru] lat3] & _ & H).
  apply rbind_ok in H as (over & _ & H).
  apply rbind_ok in H as (fit & Hs & H). inversion H; subst; clear H.
  unfold score in Hs.
  destruct (if existsb is_none (dict_values asg) then false
            else if over then false else ok3).
  - apply rbind_ok in Hs as (nc & _ & Hs).
    apply rbind_ok in Hs as (nl & _ & Hs). inversion Hs. eauto.
  - inversion Hs. reflexivity.
Qed.

Lemma kept_finite : kept finite_when_feasible.
Proof.
  constructor; unfold finite_when_feasible; simpl; auto.
  - discriminate.
  - intros p al pl asg c l ok f o H _ E. subst ok.
    apply (evaluate_maps_fitness H).
Qed.

Lemma owned_at_end good w :
  (forall r o, sols w !! r = Some o -> good o) ->
  owned good (length (sols w)) (length (dicts w)) w.
Proof.
  intros G. unfold owned. split; [lia|]. split; [lia|]. split; [|exact G].
  intros r o L E. apply lookup_lt_Some in E. lia.
Qed.

Lemma stable_preserved w w' :
  stable (length (sols w)) (length (dicts w)) w w' -> preserved w w'.
Proof.
  intros (A & B & _) r H. unfold solution_state in *.
  destruct (sols w !! r) as [o|] eqn:Eo; [|congruence].
  rewrite A, Eo by (eapply lookup_lt_Some; eauto).
  destruct (dicts w !! placement_map o) as [pl|] eqn:Ep; [|congruence].
  destruct (dicts w !! assignment_map o) as [asg|] eqn:Ea; [|congruence].
  rewrite !B, Ep, Ea by (eapply lookup_lt_Some; eauto). reflexivity.
Qed.

(** From the frame of an operation to what its caller sees. *)
Lemma safe_run {A} (c : M A) (R : A -> Prop) w a w' :
  safe (fun _ => True) (length (sols w)) (length (dicts w)) c R ->
  c w = Ok (a, w') -> preserved w w' /\ R a.
Proof.
  intros H E.
  destruct (H _ _ _ (@owned_at_end (fun _ => True) w (fun _ _ _ => I)) E)
    as (S1 & _ & Ra).
  split; [apply stable_preserved; exact S1 | exact Ra].
Qed.

Lemma new_is_fresh w r : length (sols w) <= r -> sols w !! r = None.
Proof. intros L. apply lookup_ge_None. exact L. Qed.

(** C10, as stated, fails in its last part: with annealing disabled,
    [simulated_annealing_improvement] returns the very object it was
    given, not a clone. *)
Lemma annealing_returns_its_input :
  simulated_annealing_improvement exp_lower (line_engine false) 0 1 line_world
  = Ok (0, line_world).
Proof. reflexivity. Qed.

(** C10, amended.  [crossover], [mutate], [repair_solution],
    [reassign_devices] and [simulated_annealing_improvement] leave
    every solution of the store, so every solution passed to them, in
    the state it had: placement mapping, assignment mapping, total
    cost, total latency, feasibility flag and fitness.  The first four
    return objects that did not exist before the call;
    [simulated_annealing_improvement] returns its input object itself
    when annealing is disabled or the temperature is below 0.1, and an
    object that did not exist before otherwise. *)
Theorem operators_preserve_inputs math_exp ga w :
  (forall p1 p2 c1 c2 w',
     crossover ga p1 p2 w = Ok ((c1, c2), w') ->
     preserved w w' /\ sols w !! c1 = None /\ sols w !! c2 = None)
  /\ (forall s r w',
        mutate ga s w = Ok (r, w') -> preserved w w' /\ sols w !! r = None)
  /\ (forall s r w',
        repair_solution ga s w = Ok (r, w') ->
        preserved w w' /\ sols w !! r = None)
  /\ (forall s r w',
        reassign_devices ga s w = Ok (r, w') ->
        preserved w w' /\ sols w !! r = None)
  /\ (forall s t r w',
        simulated_annealing_improvement math_exp ga s t w = Ok (r, w') ->
        preserved w w' /\
        if negb (use_sa ga) || Qltb t (1 # 10) then r = s /\ w' = w
        else sols w !! r = None).
Proof.
  split; [|split; [|split; [|split]]].
  - intros p1 p2 c1 c2 w' H.
    destruct (safe_run (@safe_crossover _ kept_true _ _ ga p1 p2) H) as [P [L1 L2]].
    auto using new_is_fresh.
  - intros s r w' H.
    destruct (safe_run (@safe_mutate _ kept_true _ _ ga s) H) as [P L].
    auto using new_is_fresh.
  - intros s r w' H.
    destruct (safe_run (@safe_repair_solution _ kept_true _ _ ga s) H) as [P L].
    auto using new_is_fresh.
  - intros s r w' H.
    destruct (safe_run (@safe_reassign_devices _ kept_true _ _ ga s) H) as [P L].
    auto using new_is_fresh.
  - intros s t r w' H.
    destruct (negb (use_sa ga) || Qltb t (1 # 10)) eqn:E.
    + unfold simulated_annealing_improvement in H. rewrite E in H.
      inversion H; subst. split; [|auto]. intros x _. reflexivity.
    + destruct (safe_run (@safe_annealing_enabled math_exp _ kept_true _ _ ga s t E) H)
        as [P L].
      auto using new_is_fresh.
Qed.

(* ================================================================= *)
(** ** What [clone] and [evaluate] compute *)

Lemma lookup_snoc {A} (l : list A) x : (l ++ [x]) !! length l = Some x.
Proof. rewrite lookup_app_r, Nat.sub_diag by lia. reflexivity. Qed.

Lemma insert_snoc {A} (l : list A) x y : <[length l := y]> (l ++ [x]) = l ++ [y].
Proof.
  rewrite insert_app_r_alt, Nat.sub_diag by lia. reflexivity.
Qed.

Lemma bind_run {A B} (c : M A) (k : A -> M B) w a w1 :
  c w = Ok (a, w1) -> bind c k w = k a w1.
Proof. unfold bind. intros ->. reflexivity. Qed.

Lemma read_sol_run r w o : sols w !! r = Some o -> read_sol r w = Ok (o, w).
Proof. unfold read_sol. intros ->. reflexivity. Qed.

Lemma read_dict_run l w d : dicts w !! l = Some d -> read_dict l w = Ok (d, w).
Proof. unfold read_dict. intros ->. reflexivity. Qed.

Lemma write_sol_run r w o o' :
  sols w !! r = Some o ->
  write_sol r o' w = Ok (tt, with_sols w (<[r := o']> (sols w))).
Proof. unfold write_sol. intros ->. reflexivity. Qed.

Lemma write_dict_run l w d d' :
  dicts w !! l = Some d ->
  write_dict l d' w = Ok (tt, with_dicts w (<[l := d']> (dicts w))).
Proof. unfold write_dict. intros ->. reflexivity. Qed.

Lemma new_solution_run p w :
  new_solution p w =
  Ok (length (sols w),
      {| dicts := (dicts w ++ [dict_fromkeys (map cp_id (candidate_points p))])
                  ++ [dict_fromkeys (map dev_id (devices p))];
         sols := sols w ++ [blank_sol (length (dicts w)) (S (length (dicts w)))];
         tape := tape w; cursor := cursor w |}).
Proof.
  unfold new_solution, bind, alloc_dict, alloc_sol. simpl.
  rewrite length_app. simpl. rewrite Nat.add_1_r. reflexivity.
Qed.

Lemma clone_run p s w o pd ad :
  sols w !! s = Some o ->
  dicts w !! placement_map o = Some pd ->
  dicts w !! assignment_map o = Some ad ->
  clone p s w = Ok (length (sols w), cloned p o pd ad w).
Proof.
  intros Ho Hp Ha. unfold clone.
  rewrite (bind_run _ (read_sol_run Ho)).
  rewrite (bind_run _ (new_solution_run p w)).
  cbn [with_dicts with_sols dicts sols tape cursor].
  erewrite bind_run
    by (apply read_dict_run; cbn [dicts]; rewrite <- app_assoc;
        apply lookup_app_l_Some; exact Hp).
  rewrite (bind_run _ (eq_refl : alloc_dict _ _ = Ok _)).
  cbn [with_dicts with_sols dicts sols tape cursor].
  erewrite bind_run by (apply read_sol_run; cbn [sols]; apply lookup_snoc).
  erewrite bind_run by (eapply write_sol_run; cbn [sols]; apply lookup_snoc).
  cbn [with_dicts with_sols dicts sols tape cursor].
  erewrite bind_run
    by (apply read_dict_run; cbn [dicts]; rewrite <- !app_assoc;
        apply lookup_app_l_Some; exact Ha).
  rewrite (bind_run _ (eq_refl : alloc_dict _ _ = Ok _)).
  cbn [with_dicts with_sols dicts sols tape cursor].
  rewrite insert_snoc.
  erewrite bind_run by (apply read_sol_run; cbn [sols]; apply lookup_snoc).
  erewrite bind_run by (eapply write_sol_run; cbn [sols]; apply lookup_snoc).
  cbn [with_dicts with_sols dicts sols tape cursor].
  rewrite insert_snoc.
  erewrite bind_run by (apply read_sol_run; cbn [sols]; apply lookup_snoc).
  erewrite bind_run by (eapply write_sol_run; cbn [sols]; apply lookup_snoc).
  cbn [with_dicts with_sols dicts sols tape cursor].
  rewrite insert_snoc. unfold ret, cloned. f_equal. f_equal.
  unfold set_scores, set_assignment_map, set_placement_map. simpl.
  rewrite <- !app_assoc. simpl. rewrite !length_app. simpl.
  repeat f_equal; lia.
Qed.

Lemma solution_state_Some w r pl asg c l ok f :
  solution_state w r = Some (pl, asg, c, l, ok, f) <->
  exists o, sols w !! r = Some o /\
    dicts w !! placement_map o = Some pl /\
    dicts w !! assignment_map o = Some asg /\
    total_cost o = c /\ total_latency o = l /\ is_feasible o = ok /\
    fitness o = f.
Proof.
  unfold solution_state. split.
  - destruct (sols w !! r) as [o|] eqn:Eo; [|discriminate].
    destruct (dicts w !! placement_map o) eqn:Ep; [|discriminate].
    destruct (dicts w !! assignment_map o) eqn:Ea; [|discriminate].
    intros H. inversion H; subst. exists o. auto 10.
  - intros (o & -> & -> & -> & <- & <- & <- & <-). reflexivity.
Qed.

(** [clone] on a solution of the store: the copy is a new object in the
    same state, and the store is otherwise as before. *)
Lemma clone_state p s w x :
  solution_state w s = Some x ->
  exists w',
    clone p s w = Ok (length (sols w), w') /\
    solution_state w' (length (sols w)) = Some x /\
    length (sols w') = S (length (sols w)) /\
    (forall r y, solution_state w r = Some y -> solution_state w' r = Some y).
Proof.
  destruct x as [[[[[pl asg] c] l] ok] f]. intros H.
  apply solution_state_Some in H as (o & Ho & Hp & Ha & <- & <- & <- & <-).
  exists (cloned p o pl asg w). split; [apply clone_run; assumption|].
  split; [|split].
  - apply solution_state_Some. eexists. unfold cloned. cbn [sols dicts].
    split; [apply lookup_snoc|]. cbn [placement_map assignment_map total_cost
      total_latency is_feasible fitness].
    split; [|split; [|auto]].
    + rewrite lookup_app_r by lia.
      replace (length (dicts w) + 2 - length (dicts w)) with 2 by lia.
      reflexivity.
    + rewrite lookup_app_r by lia.
      replace (length (dicts w) + 3 - length (dicts w)) with 3 by lia.
      reflexivity.
  - unfold cloned. cbn [sols]. rewrite length_app. simpl. lia.
  - intros r [[[[[pl' asg'] c'] l'] ok'] f'] H.
    apply solution_state_Some in H as (o' & Ho' & Hp' & Ha' & E).
    apply solution_state_Some. exists o'. unfold cloned. cbn [sols dicts].
    split; [apply lookup_app_l_Some; exact Ho'|].
    split; [apply lookup_app_l_Some; exact Hp'|].
    split; [apply lookup_app_l_Some; exact Ha' | exact E].
Qed.

(** [evaluate] on a solution of the store, when the computation on its
    two mappings raises nothing. *)
Lemma evaluate_state p al s w pl asg c0 l0 ok0 f0 c l ok f :
  solution_state w s = Some (pl, asg, c0, l0, ok0, f0) ->
  evaluate_maps p al pl asg = Ok (c, l, ok, f) ->
  exists w',
    evaluate p al s w = Ok (f, w') /\
    solution_state w' s = Some (pl, asg, c, l, ok, f) /\
    length (sols w') = length (sols w) /\
    (forall r, r <> s -> solution_state w' r = solution_state w r).
Proof.
  intros H Hm.
  apply solution_state_Some in H as (o & Ho & Hp & Ha & _).
  exists (with_sols w (<[s := set_scores o c l f ok]> (sols w))).
  split; [|split; [|split]].
  - unfold evaluate.
    rewrite (bind_run _ (read_sol_run Ho)).
    rewrite (bind_run _ (read_dict_run Hp)).
    rewrite (bind_run _ (read_dict_run Ha)).
    unfold lift at 1. rewrite Hm.
    rewrite (bind_run (w:=w) _ (eq_refl : (fun w => Ok (_, w)) w = Ok (_, w))).
    rewrite (bind_run _ (write_sol_run _ Ho)). reflexivity.
  - apply solution_state_Some. exists (set_scores o c l f ok). simpl.
    split; [apply list_lookup_insert_eq; eapply lookup_lt_Some; eauto|].
    auto 10.
  - simpl. apply length_insert.
  - intros r N. unfold solution_state. simpl.
    rewrite list_lookup_insert_ne by congruence. reflexivity.
Qed.

Lemma random_random_run w :
  exists u w',
    random_random w = Ok (u, w') /\ (0 <= u)%Q /\
    sols w' = sols w /\ dicts w' = dicts w.
Proof.
  unfold random_random, bind, draw, ret. simpl. do 2 eexists.
  split; [reflexivity|]. split; [|auto]. unfold Qle. simpl. lia.
Qed.

Lemma solution_state_same w w' r :
  sols w' = sols w -> dicts w' = dicts w ->
  solution_state w' r = solution_state w r.
Proof. unfold solution_state. intros -> ->. reflexivity. Qed.

Lemma rate_zero u rate : (0 <= u)%Q -> (rate == 0)%Q -> Qltb u rate = false.
Proof. intros H E. apply Qltb_false. rewrite E. exact H. Qed.

(* ================================================================= *)
(** ** Neutral rates *)

(** C7. With [crossover_rate] zero, [crossover] on two solutions whose
    stored fitness is the one [evaluate] computes on their mappings
    returns two children that have the placement mapping, the
    assignment mapping and the fitness of their respective parents;
    with [mutation_rate] zero, [mutate] on such a solution returns a
    solution with the placement mapping, the assignment mapping and the
    fitness of its input. *)
Theorem neutral_rates ga w :
  ((crossover_rate ga == 0)%Q ->
   forall p1 p2 pl1 asg1 c1 l1 ok1 f1 c1' l1' ok1' pl2 asg2 c2 l2 ok2 f2 c2' l2' ok2',
     solution_state w p1 = Some (pl1, asg1, c1, l1, ok1, f1) ->
     evaluate_maps (problem ga) (alpha ga) pl1 asg1 = Ok (c1', l1', ok1', f1) ->
     solution_state w p2 = Some (pl2, asg2, c2, l2, ok2, f2) ->
     evaluate_maps (problem ga) (alpha ga) pl2 asg2 = Ok (c2', l2', ok2', f2) ->
     exists ch1 ch2 w',
       crossover ga p1 p2 w = Ok ((ch1, ch2), w') /\
       solution_state w' ch1 = Some (pl1, asg1, c1', l1', ok1', f1) /\
       solution_state w' ch2 = Some (pl2, asg2, c2', l2', ok2', f2))
  /\ ((mutation_rate ga == 0)%Q ->
      forall s pl asg c l ok f c' l' ok',
        solution_state w s = Some (pl, asg, c, l, ok, f) ->
        evaluate_maps (problem ga) (alpha ga) pl asg = Ok (c', l', ok', f) ->
        exists r w',
          mutate ga s w = Ok (r, w') /\
          solution_state w' r = Some (pl, asg, c', l', ok', f)).
Proof.
  split.
  - intros Hrate p1 p2 pl1 asg1 c1 l1 ok1 f1 c1' l1' ok1'
      pl2 asg2 c2 l2 ok2 f2 c2' l2' ok2' S1 E1 S2 E2.
    destruct (clone_state (problem ga) S1) as (w1 & R1 & T1 & L1 & P1).
    pose proof (P1 _ _ S2) as S2'.
    destruct (clone_state (problem ga) S2') as (w2 & R2 & T2 & L2 & P2).
    pose proof (P2 _ _ T1) as T1'.
    destruct (random_random_run w2) as (u & w3 & R3 & Hu & Es & Ed).
    rewrite <- (solution_state_same (length (sols w)) Es Ed) in T1'.
    rewrite <- (solution_state_same (length (sols w1)) Es Ed) in T2.
    destruct (evaluate_state (al:=alpha ga) T1' E1) as (w4 & R4 & T4 & L4 & P4).
    rewrite <- (P4 (length (sols w1))) in T2 by lia.
    destruct (evaluate_state (al:=alpha ga) T2 E2) as (w5 & R5 & T5 & L5 & P5).
    rewrite <- (P5 (length (sols w))) in T4 by lia.
    exists (length (sols w)), (length (sols w1)), w5.
    split; [|auto]. unfold crossover.
    rewrite (bind_run _ R1), (bind_run _ R2), (bind_run _ R3).
    rewrite (rate_zero Hu Hrate).
    rewrite (bind_run (w:=w3) _ (eq_refl : ret _ _ = Ok (_, w3))).
    rewrite (bind_run _ R4), (bind_run _ R5). reflexivity.
  - intros Hrate s pl asg c l ok f c' l' ok' S1 E1.
    destruct (clone_state (problem ga) S1) as (w1 & R1 & T1 & L1 & P1).
    destruct (random_random_run w1) as (u & w2 & R2 & Hu & Es & Ed).
    rewrite <- (solution_state_same (length (sols w)) Es Ed) in T1.
    destruct (evaluate_state (al:=alpha ga) T1 E1) as (w3 & R3 & T3 & L3 & P3).
    exists (length (sols w)), w3. split; [|exact T3]. unfold mutate.
    rewrite (bind_run _ R1), (bind_run _ R2).
    rewrite (rate_zero Hu Hrate).
    rewrite (bind_run (w:=w2) _ (eq_refl : ret _ _ = Ok (_, w2))).
    rewrite (bind_run _ R3). reflexivity.
Qed.

Lemma neutral_rates_witness :
  (exists ch1 ch2 w' x,
     solution_state line_world_scored 0 = Some x /\
     crossover neutral_engine 0 0 line_world_scored = Ok ((ch1, ch2), w') /\
     solution_state w' ch1 = Some x /\ solution_state w' ch2 = Some x)
  /\ (exists r w' x,
        solution_state line_world_scored 0 = Some x /\
        mutate neutral_engine 0 line_world_scored = Ok (r, w') /\
        solution_state w' r = Some x).
Proof.
  destruct (neutral_rates neutral_engine line_world_scored) as [HC HM].
  split.
  - assert (Z1 : (crossover_rate neutral_engine == 0)%Q) by reflexivity.
    edestruct (HC Z1 0 0) as (ch1 & ch2 & w' & R & S1 & S2);
      [reflexivity | vm_compute; reflexivity
      | reflexivity | vm_compute; reflexivity |].
    exists ch1, ch2, w'. eexists. split; [reflexivity|]. split; [exact R|].
    split; [exact S1 | exact S2].
  - assert (Z1 : (mutation_rate neutral_engine == 0)%Q) by reflexivity.
    edestruct (HM Z1 0) as (r & w' & R & S1);
      [reflexivity | vm_compute; reflexivity |].
    exists r, w'. eexists. split; [reflexivity|]. split; [exact R | exact S1].
Defined.

Lemma operators_preserve_inputs_witness :
  (exists c1 c2 w',
     crossover (line_engine true) 0 0 line_world_scored = Ok ((c1, c2), w') /\
     preserved line_world_scored w' /\
     sols line_world_scored !! c1 = None /\ sols line_world_scored !! c2 = None)
  /\ (exists r w',
        mutate (line_engine true) 0 line_world_scored = Ok (r, w') /\
        preserved line_world_scored w' /\ sols line_world_scored !! r = None)
  /\ (exists r w',
        repair_solution (line_engine true) 0 line_world_scored = Ok (r, w') /\
        preserved line_world_scored w' /\ sols line_world_scored !! r = None)
  /\ (exists r w',
        reassign_devices (line_engine true) 0 line_world_scored = Ok (r, w') /\
        preserved line_world_scored w' /\ sols line_world_scored !! r = None)
  /\ (exists r w',
        simulated_annealing_improvement exp_lower (line_engine true) 0 1
          line_world_scored = Ok (r, w') /\
        preserved line_world_scored w' /\ sols line_world_scored !! r = None).
Proof.
  destruct (operators_preserve_inputs exp_lower (line_engine true)
              line_world_scored) as (HC & HM & HR & HA & HS).
  split; [|split; [|split; [|split]]].
  - destruct (crossover (line_engine true) 0 0 line_world_scored)
      as [[[c1 c2] w']|e] eqn:E; [|vm_compute in E; discriminate].
    exists c1, c2, w'. split; [reflexivity|]. exact (HC _ _ _ _ _ E).
  - destruct (mutate (line_engine true) 0 line_world_scored)
      as [[r w']|e] eqn:E; [|vm_compute in E; discriminate].
    exists r, w'. split; [reflexivity|]. exact (HM _ _ _ E).
  - destruct (repair_solution (line_engine true) 0 line_world_scored)
      as [[r w']|e] eqn:E; [|vm_compute in E; discriminate].
    exists r, w'. split; [reflexivity|]. exact (HR _ _ _ E).
  - destruct (reassign_devices (line_engine true) 0 line_world_scored)
      as [[r w']|e] eqn:E; [|vm_compute in E; discriminate].
    exists r, w'. split; [reflexivity|]. exact (HA _ _ _ E).
  - destruct (simulated_annealing_improvement exp_lower (line_engine true) 0 1
                line_world_scored) as [[r w']|e] eqn:E;
      [|vm_compute in E; discriminate].
    exists r, w'. split; [reflexivity|]. exact (HS _ _ _ _ E).
Defined.

(* ================================================================= *)
(** ** The annealing walk *)

Lemma sa_steps_walk math_exp ga t k st w st' w' :
  iterate_m k (sa_step math_exp ga t) st w = Ok (st', w') ->
  walk math_exp ga t k w st w' st'.
Proof.
  revert st w. induction k as [|k IH]; intros [cur f] w; simpl.
  - intros H. inversion H; subst. constructor.
  - intros H. apply bind_ok in H as ([cur1 f1] & w1 & H1 & H).
    apply IH in H. unfold sa_step in H1.
    apply bind_ok in H1 as (nb & w2 & Hm & H1).
    apply bind_ok in H1 as (o & w3 & Ho & H1).
    apply read_sol_ok in Ho as [-> Ho].
    destruct (fl_ltb (fitness o) f) eqn:E.
    + inversion H1; subst. eapply walk_improving; eauto.
    + apply bind_ok in H1 as (u & w3 & Hu & H1).
      apply bind_ok in H1 as (x & w4 & Hx & H1).
      apply lift_ok in Hx as [-> Hx].
      change (match fl_exp math_exp x with
              | Fin y => Qltb u y
              | PInf => true
              | _ => false
              end) with (fl_ltb (Fin u) (fl_exp math_exp x)) in H1.
      destruct (fl_ltb (Fin u) (fl_exp math_exp x)) eqn:Ea;
        inversion H1; subst.
      * eapply walk_accepted; [exact Hm | exact Ho | exact E | exact Hu | | exact H].
        unfold metropolis. rewrite Hx. cbn [rbind]. rewrite Ea. reflexivity.
      * eapply walk_rejected; [exact Hm | exact Ho | exact E | exact Hu | | exact H].
        unfold metropolis. rewrite Hx. cbn [rbind]. rewrite Ea. reflexivity.
Qed.

(** C5, as stated, fails in its last part: from an evaluated solution
    with one facility, the walk at temperature 1 accepts the costlier
    neighbor with two facilities (draw 0) and returns a solution whose
    fitness is strictly above that of the input it started from. *)
Lemma annealing_returns_a_worse_solution :
  exists r w' o_in o_out,
    simulated_annealing_improvement exp_lower two_site_engine 0 1
      two_site_world = Ok (r, w') /\
    sols two_site_world !! 0 = Some o_in /\
    sols w' !! r = Some o_out /\
    is_feasible o_in = true /\ is_feasible o_out = true /\
    fl_ltb (fitness o_in) (fitness o_out) = true.
Proof.
  destruct (simulated_annealing_improvement exp_lower two_site_engine 0 1
              two_site_world) as [[r w']|e] eqn:E;
    vm_compute in E; [|discriminate].
  inversion E; subst. do 4 eexists.
  split; [reflexivity|]. split; [reflexivity|]. split; [reflexivity|].
  split; [reflexivity|]. split; reflexivity.
Qed.

(** C5, amended.  When annealing is disabled or the temperature is
    below 0.1, [simulated_annealing_improvement] returns its input
    object and leaves the store as it was.  Otherwise it clones the
    input and takes exactly five neighbor steps from the clone, an
    improving neighbor being accepted always and any other one exactly
    when the Metropolis test passes; it returns the solution that is
    current after the fifth step, whether or not a better one was met
    on the way. *)
Theorem annealing_walk math_exp ga s t w :
  (negb (use_sa ga) || Qltb t (1 # 10) = true ->
   simulated_annealing_improvement math_exp ga s t w = Ok (s, w))
  /\ (negb (use_sa ga) || Qltb t (1 # 10) = false ->
      forall r w',
        simulated_annealing_improvement math_exp ga s t w = Ok (r, w') ->
        exists start w0 o f',
          clone (problem ga) s w = Ok (start, w0) /\
          sols w0 !! start = Some o /\
          walk math_exp ga t 5 w0 (start, fitness o) w' (r, f')).
Proof.
  unfold simulated_annealing_improvement. split; intros E; rewrite E.
  - reflexivity.
  - intros r w' H.
    apply bind_ok in H as (start & w0 & Hc & H).
    apply bind_ok in H as (o & w1 & Ho & H).
    apply read_sol_ok in Ho as [-> Ho].
    apply bind_ok in H as ([last f'] & w2 & Hw & H). inversion H; subst.
    exists start, w0, o, f'. split; [exact Hc|]. split; [exact Ho|].
    apply sa_steps_walk. exact Hw.
Qed.

Lemma annealing_walk_witness :
  simulated_annealing_improvement exp_lower (line_engine false) 0 1
    line_world_scored = Ok (0, line_world_scored)
  /\ exists r w' start w0 o f',
       simulated_annealing_improvement exp_lower two_site_engine 0 1
         two_site_world = Ok (r, w') /\
       clone two_site_problem 0 two_site_world = Ok (start, w0) /\
       sols w0 !! start = Some o /\
       walk exp_lower two_site_engine 1 5 w0 (start, fitness o) w' (r, f').
Proof.
  split.
  - apply (annealing_walk exp_lower (line_engine false) 0 1 line_world_scored).
    reflexivity.
  - destruct (simulated_annealing_improvement exp_lower two_site_engine 0 1
                two_site_world) as [[r w']|e] eqn:E;
      [|vm_compute in E; discriminate].
    destruct (annealing_walk exp_lower two_site_engine 0 1 two_site_world)
      as [_ H].
    destruct (H eq_refl r w' E) as (start & w0 & o & f' & R).
    exists r, w', start, w0, o, f'. split; [reflexivity | exact R].
Defined.

(* ================================================================= *)
(** ** Small populations *)

Lemma sample_too_large {A} (l : list A) k w :
  length l < k -> random_sample l k w = Raise ValueError.
Proof.
  intros H. unfold random_sample.
  destruct (Nat.ltb_spec (length l) k); [reflexivity | lia].
Qed.

(** A tournament of three in a population of fewer than three members
    raises [ValueError]. *)
Lemma tournament_small_population ga w :
  length (population ga) < 3 ->
  tournament_selection ga 3 w = Raise ValueError.
Proof.
  intros H. unfold tournament_selection, bind.
  rewrite sample_too_large by exact H. reflexivity.
Qed.

(** C9: the code breaks the claim.  With a population of one (size and
    generation count positive, rates and alpha in [[0, 1]]) and a device
    that no site reaches, the only member is infeasible, no elite is
    carried over, and the first tournament of generation 0 raises
    [ValueError]. *)
Theorem evolve_small_population_raises :
  evolve exp_lower (new_engine far_problem 1 1 (8 # 10) (2 # 10) (1 # 2) true)
    empty_world = Raise ValueError.
Proof. vm_compute. reflexivity. Qed.

(* ================================================================= *)
(** ** Reading the population *)

Lemma fl_ltb_trans a b c :
  fl_ltb a b = true -> fl_ltb b c = true -> fl_ltb a c = true.
Proof.
  destruct a, b, c; simpl; try discriminate; auto.
  rewrite !Qltb_true. apply Qlt_trans.
Qed.

Lemma fl_ltb_irrefl a : fl_ltb a a = false.
Proof.
  destruct a; simpl; auto. apply Qltb_false. apply Qle_refl.
Qed.

Lemma fl_ltb_asym a b : fl_ltb a b = true -> fl_ltb b a = false.
Proof.
  destruct a, b; simpl; try discriminate; auto.
  rewrite Qltb_true, Qltb_false. apply Qlt_le_weak.
Qed.

(** Without [nan], "not below" is transitive. *)
Lemma fl_not_ltb_trans a b c :
  b <> NaN -> fl_ltb b a = false -> fl_ltb c b = false -> fl_ltb c a = false.
Proof.
  destruct a, b, c; simpl; try discriminate; try congruence; auto.
  rewrite !Qltb_false. intros _ H1 H2. eapply Qle_trans; eauto.
Qed.

Lemma min_by_below {A} (key : A -> fl) x l :
  min_by key x l = x \/ fl_ltb (key (min_by key x l)) (key x) = true.
Proof.
  revert x. induction l as [|y l IH]; intros x; simpl; [auto|].
  destruct (fl_ltb (key y) (key x)) eqn:E.
  - right. destruct (IH y) as [-> | H]; [exact E|].
    eapply fl_ltb_trans; eauto.
  - apply IH.
Qed.

(** No element of the list lies below the chosen one. *)
Lemma min_by_least {A} (key : A -> fl) x l z :
  In z (x :: l) -> fl_ltb (key z) (key (min_by key x l)) = false.
Proof.
  revert x. induction l as [|y l IH]; intros x; simpl.
  - intros [<-|[]]. apply fl_ltb_irrefl.
  - intros H. destruct (fl_ltb (key y) (key x)) eqn:E.
    + destruct H as [Hz|H]; [subst z|apply IH; exact H].
      destruct (min_by_below key y l) as [-> | B].
      * apply fl_ltb_asym. exact E.
      * apply fl_ltb_asym. eapply fl_ltb_trans; eauto.
    + destruct H as [Hz|[Hz|H]].
      * subst z. apply IH. left. reflexivity.
      * subst z. destruct (min_by_below key x l) as [-> | B]; [exact E|].
        destruct (fl_ltb (key y) (key (min_by key x l))) eqn:C; [|reflexivity].
        rewrite (fl_ltb_trans C B) in E. discriminate.
      * apply IH. right. exact H.
Qed.

Lemma min_by_map {A} (key : A -> fl) x l :
  fst (min_by snd (x, key x) (map (fun r => (r, key r)) l)) = min_by key x l.
Proof.
  revert x. induction l as [|y l IH]; intros x; simpl; [reflexivity|].
  destruct (fl_ltb (key y) (key x)); apply IH.
Qed.

Lemma min_by_values {A} (key : A -> fl) x l :
  min_by (fun f => f) (key x) (map key l) = key (min_by key x l).
Proof.
  revert x. induction l as [|y l IH]; intros x; simpl; [reflexivity|].
  destruct (fl_ltb (key y) (key x)); apply IH.
Qed.

Lemma feasible_members_run l w l' w' :
  feasible_members l w = Ok (l', w') ->
  w' = w /\ l' = List.filter (feasible_at w) l /\
  forall r, In r l -> exists o, sols w !! r = Some o.
Proof.
  unfold feasible_members. revert l' w'.
  induction l as [|x l IH]; intros l' w'; simpl.
  - intros H. inversion H; subst. split; [reflexivity|]. split; [reflexivity|].
    intros r [].
  - intros H. apply bind_ok in H as (b & w1 & H1 & H).
    apply bind_ok in H1 as (o & w2 & Ho & H1).
    apply read_sol_ok in Ho as [-> Ho]. inversion H1; subst.
    apply bind_ok in H as (r & w2 & H2 & H). apply IH in H2 as (-> & -> & V).
    inversion H; subst. split; [reflexivity|]. split.
    + assert (E : feasible_at w' x = is_feasible o)
        by (unfold feasible_at; rewrite Ho; reflexivity).
      simpl. rewrite E. reflexivity.
    + intros r' [<-|I]; eauto.
Qed.

Lemma with_fitness_run l w k w' :
  with_fitness l w = Ok (k, w') ->
  w' = w /\ k = map (fun r => (r, fitness_at w r)) l.
Proof.
  unfold with_fitness. revert k w'.
  induction l as [|x l IH]; intros k w'; simpl.
  - intros H. inversion H; subst. auto.
  - intros H. apply bind_ok in H as (y & w1 & H1 & H).
    apply bind_ok in H1 as (o & w2 & Ho & H1).
    apply read_sol_ok in Ho as [-> Ho]. inversion H1; subst.
    apply bind_ok in H as (r & w2 & H2 & H). apply IH in H2 as (-> & ->).
    inversion H; subst. split; [reflexivity|].
    assert (E : fitness_at w' x = fitness o)
      by (unfold fitness_at; rewrite Ho; reflexivity).
    simpl. rewrite E. reflexivity.
Qed.

Lemma min_fitness_run x rest w r w' :
  min_fitness (x :: rest) w = Ok (r, w') ->
  w' = w /\ r = min_by (fitness_at w) x rest.
Proof.
  unfold min_fitness. intros H.
  apply bind_ok in H as (k & w1 & H1 & H).
  apply with_fitness_run in H1 as (-> & ->). simpl in H.
  inversion H; subst. split; [reflexivity|]. apply min_by_map.
Qed.

(** [clone], seen from the solution objects only. *)
Lemma clone_objects p s w c w' :
  clone p s w = Ok (c, w') ->
  exists o o',
    sols w !! s = Some o /\ c = length (sols w) /\
    sols w' = sols w ++ [o'] /\
    total_cost o' = total_cost o /\ total_latency o' = total_latency o /\
    fitness o' = fitness o /\ is_feasible o' = is_feasible o.
Proof.
  unfold clone. intros H.
  apply bind_ok in H as (o & w0 & Ho & H). apply read_sol_ok in Ho as [-> Ho].
  rewrite (bind_run _ (new_solution_run p w)) in H.
  apply bind_ok in H as (pd & w1 & H1 & H). apply read_dict_ok in H1 as [-> _].
  apply bind_ok in H as (pm & w1 & H1 & H). inversion H1; subst; clear H1.
  apply bind_ok in H as (n1 & w1 & H1 & H). apply read_sol_ok in H1 as [-> _].
  apply bind_ok in H as ([] & w1 & H1 & H). apply write_sol_ok in H1 as [-> _].
  apply bind_ok in H as (ad & w1 & H1 & H). apply read_dict_ok in H1 as [-> _].
  apply bind_ok in H as (am & w1 & H1 & H). inversion H1; subst; clear H1.
  apply bind_ok in H as (n2 & w1 & H1 & H). apply read_sol_ok in H1 as [-> _].
  apply bind_ok in H as ([] & w1 & H1 & H). apply write_sol_ok in H1 as [-> _].
  apply bind_ok in H as (n3 & w1 & H1 & H). apply read_sol_ok in H1 as [-> _].
  apply bind_ok in H as ([] & w1 & H1 & H). apply write_sol_ok in H1 as [-> _].
  inversion H; subst; clear H. cbn [with_sols with_dicts sols dicts].
  rewrite !insert_snoc.
  exists o. eexists. split; [exact Ho|]. split; [reflexivity|].
  split; [reflexivity|]. simpl. auto.
Qed.

(* ================================================================= *)
(** ** The incumbent *)

Lemma fitness_at_Some w r o : sols w !! r = Some o -> fitness_at w r = fitness o.
Proof. unfold fitness_at. intros ->. reflexivity. Qed.

(** What [update_best_solution] does, in terms of the best member. *)
Lemma update_best_solution_run ga w ga' w' :
  update_best_solution ga w = Ok (ga', w') ->
  match best_member w (population ga) with
  | None => ga' = ga /\ w' = w
  | Some cb =>
      (exists cbo, sols w !! cb = Some cbo) /\
      match best_solution ga with
      | None =>
          exists c, clone (problem ga) cb w = Ok (c, w') /\
                    ga' = set_best_solution ga (Some c)
      | Some b =>
          (exists bo, sols w !! b = Some bo) /\
          if fl_ltb (fitness_at w cb) (fitness_at w b) then
            exists c, clone (problem ga) cb w = Ok (c, w') /\
                      ga' = set_best_solution ga (Some c)
          else ga' = ga /\ w' = w
      end
  end.
Proof.
  unfold update_best_solution, best_member. intros H.
  apply bind_ok in H as (feasible & w1 & H1 & H).
  apply feasible_members_run in H1 as (-> & -> & V).
  destruct (List.filter (feasible_at w) (population ga)) as [|x rest] eqn:EF.
  - inversion H; subst. auto.
  - apply bind_ok in H as (cb & w1 & H1 & H).
    apply min_fitness_run in H1 as (-> & ->).
    apply bind_ok in H as (cbo & w1 & H1 & H).
    apply read_sol_ok in H1 as [-> Hcb]. split; [eauto|].
    destruct (best_solution ga) as [b|].
    + apply bind_ok in H as (bo & w1 & H1 & H).
      apply read_sol_ok in H1 as [-> Hb]. split; [eauto|].
      rewrite (fitness_at_Some Hcb), (fitness_at_Some Hb).
      destruct (fl_ltb (fitness cbo) (fitness bo)).
      * apply bind_ok in H as (c & w1 & H1 & H). inversion H; subst. eauto.
      * inversion H; subst. auto.
    + apply bind_ok in H as (c & w1 & H1 & H). inversion H; subst. eauto.
Qed.

(** What [record_generation] appends. *)
Lemma record_generation_run ga w ga' w' :
  record_generation ga w = Ok (ga', w') ->
  w' = w /\ best_solution ga' = best_solution ga /\
  population ga' = population ga /\
  match best_member w (population ga) with
  | Some r =>
      fitness_history ga' = fitness_history ga ++ [fitness_at w r] /\
      match best_solution ga with
      | Some b =>
          exists bo, sols w !! b = Some bo /\
            cost_history ga' = cost_history ga ++ [Fin (total_cost bo)] /\
            latency_history ga' = latency_history ga ++ [Fin (total_latency bo)]
      | None =>
          cost_history ga' = cost_history ga ++ [] /\
          latency_history ga' = latency_history ga ++ []
      end
  | None =>
      fitness_history ga' = fitness_history ga ++ [PInf] /\
      cost_history ga' = cost_history ga ++ [PInf] /\
      latency_history ga' = latency_history ga ++ [PInf]
  end.
Proof.
  unfold record_generation, best_member. intros H.
  apply bind_ok in H as (feasible & w1 & H1 & H).
  apply feasible_members_run in H1 as (-> & -> & V).
  apply bind_ok in H as (keyed & w1 & H1 & H).
  apply with_fitness_run in H1 as (-> & ->).
  rewrite map_map in H. simpl in H.
  destruct (List.filter (feasible_at w) (population ga)) as [|x rest].
  - inversion H; subst. simpl. auto 10.
  - simpl in H.
    change (map (fun x0 => fitness_at w x0) rest)
      with (map (fitness_at w) rest) in H.
    rewrite (min_by_values (fitness_at w) x rest) in H.
    destruct (best_solution ga) as [b|] eqn:Eb.
    + apply bind_ok in H as (bo & w1 & H1 & H).
      apply read_sol_ok in H1 as [-> Hb]. inversion H; subst. simpl.
      rewrite Eb. eauto 10.
    + inversion H; subst. simpl. rewrite Eb. auto 10.
Qed.

Section Generation.

Variable math_exp : Q -> Q.
Variable good : sol_obj -> Prop.
Hypothesis K : kept good.
Variables n m : nat.

Lemma safe_repair_if_infeasible ga c :
  n <= c -> safe good n m (repair_if_infeasible ga c) (fun r => n <= r).
Proof.
  intros L. unfold repair_if_infeasible.
  eapply safe_bind; [apply safe_read_sol | intros o _].
  destruct (is_feasible o); [apply safe_ret; exact L|].
  apply (safe_repair_solution K).
Qed.

Lemma safe_breed_pair ga t :
  safe good n m (breed_pair math_exp ga t) (Forall (fun r => n <= r)).
Proof.
  unfold breed_pair.
  eapply safe_bind.
  { apply (@safe_tournament_selection good n m ga 3 (fun _ => True)).
    apply Forall_forall. auto. }
  intros p1 _.
  eapply safe_bind.
  { apply (@safe_tournament_selection good n m ga 3 (fun _ => True)).
    apply Forall_forall. auto. }
  intros p2 _.
  eapply safe_bind; [apply (safe_crossover K) | intros [c1 c2] [L1 L2]].
  simpl in L1, L2.
  eapply safe_bind; [apply (safe_mutate K) | intros d1 Hd1].
  eapply safe_bind; [apply (safe_mutate K) | intros d2 Hd2].
  eapply safe_bind with (R1 := fun cs => n <= fst cs /\ n <= snd cs).
  - destruct (use_sa ga); [|apply safe_ret; simpl; auto].
    eapply safe_bind;
      [apply (safe_simulated_annealing_improvement (math_exp:=math_exp) K) | intros e1 He1].
    eapply safe_bind;
      [apply (safe_simulated_annealing_improvement (math_exp:=math_exp) K) | intros e2 He2].
    apply safe_ret. simpl. unfold same_or_new in *. split; lia.
  - intros [e1 e2] [He1 He2]. simpl in He1, He2.
    eapply safe_bind; [apply safe_repair_if_infeasible; exact He1 | intros f1 Hf1].
    eapply safe_bind; [apply safe_repair_if_infeasible; exact He2 | intros f2 Hf2].
    apply safe_ret. repeat constructor; assumption.
Qed.

Lemma safe_breed ga t fuel np :
  safe good n m (breed math_exp ga t fuel np)
    (fun np' => exists extra, np' = np ++ extra /\ Forall (fun r => n <= r) extra).
Proof.
  revert np. induction fuel as [|fuel IH]; intros np; simpl.
  - apply safe_ret. exists []. rewrite app_nil_r. split; [reflexivity|constructor].
  - destruct (length np <? population_size ga)%nat.
    + eapply safe_bind; [apply safe_breed_pair | intros cs Hcs].
      eapply safe_weaken; [apply IH|].
      intros np' (extra & -> & F). exists (cs ++ extra).
      rewrite app_assoc. split; [reflexivity|].
      apply Forall_app. auto.
    + apply safe_ret. exists []. rewrite app_nil_r.
      split; [reflexivity|constructor].
Qed.

End Generation.

Lemma sorted_by_keyed {A} (key : A -> fl) l :
  sorted_by snd (map (fun r => (r, key r)) l)
  = map (fun r => (r, key r)) (sorted_by key l).
Proof.
  unfold sorted_by. induction l as [|x l IH]; simpl; [reflexivity|].
  rewrite IH. clear IH. generalize (fold_right (insert_by key) [] l) as s.
  induction s as [|y s IH]; simpl; [reflexivity|].
  destruct (fl_ltb (key y) (key x)); simpl; [rewrite IH|]; reflexivity.
Qed.

Lemma sorted_by_map {A} (key : A -> fl) l :
  map fst (sorted_by snd (map (fun r => (r, key r)) l)) = sorted_by key l.
Proof.
  rewrite sorted_by_keyed, map_map. simpl. apply map_id.
Qed.

Section GenerationStep.

Variable math_exp : Q -> Q.
Variable good : sol_obj -> Prop.
Hypothesis K : kept good.
Variables n m : nat.

Lemma safe_record_generation ga :
  safe good n m (record_generation ga) (fun _ => True).
Proof.
  unfold record_generation.
  eapply safe_bind.
  { apply (@safe_feasible_members good n m _ (fun _ => True)).
    apply Forall_forall. auto. }
  intros feasible _.
  eapply safe_bind; [apply safe_with_fitness | intros keyed _].
  destruct (map snd keyed); [apply safe_ret; exact I|].
  destruct (best_solution ga); [|apply safe_ret; exact I].
  eapply safe_bind; [apply safe_read_sol | intros bo _].
  apply safe_ret. exact I.
Qed.

Lemma safe_generation_step ga g :
  safe good n m (generation_step math_exp ga g) (fun _ => True).
Proof.
  unfold generation_step.
  eapply safe_bind.
  { apply (@safe_feasible_members good n m _ (fun _ => True)).
    apply Forall_forall. auto. }
  intros feasible _.
  eapply safe_bind; [apply safe_with_fitness | intros keyed _].
  eapply safe_bind; [apply (safe_breed (math_exp:=math_exp) K) | intros np _].
  eapply safe_bind.
  { apply (@safe_update_best_solution good K n m _ (fun _ => True)).
    - auto.
    - simpl. destruct (best_solution ga); exact I. }
  intros ga2 _. apply safe_record_generation.
Qed.

Lemma safe_run_generations ga k :
  safe good n m (run_generations math_exp k ga) (fun _ => True).
Proof.
  induction k as [|k IH]; simpl.
  - apply safe_ret. exact I.
  - eapply safe_bind; [apply IH | intros ga' _]. apply safe_generation_step.
Qed.

Lemma safe_initialize_population ga :
  safe good n m (initialize_population ga) (fun _ => True).
Proof.
  unfold initialize_population.
  eapply safe_bind.
  { apply (@safe_repeat_m good n m _ _ _ (fun r => n <= r)).
    apply (safe_create_random_solution K). }
  intros pop _.
  eapply safe_true.
  apply (@safe_update_best_solution good K n m _ (fun _ => True)).
  - auto.
  - simpl. destruct (best_solution ga); exact I.
Qed.

End GenerationStep.

(** The structure of one generation: breeding leaves the solutions of
    the store as they were; then the incumbent is updated and the
    history extended on the new population. *)
Lemma generation_step_run math_exp good ga g w ga' w' :
  kept good ->
  (forall r o, sols w !! r = Some o -> good o) ->
  generation_step math_exp ga g w = Ok (ga', w') ->
  exists extra w1 ga2,
    stable (length (sols w)) (length (dicts w)) w w1 /\
    (forall r o, sols w1 !! r = Some o -> good o) /\
    (forall r, In r (population ga) -> exists o, sols w !! r = Some o) /\
    update_best_solution
      (set_population ga
         (take (population_size ga)
            (take (Nat.max 2 (population_size ga / 10))
               (sorted_by (fitness_at w)
                  (List.filter (feasible_at w) (population ga)))
             ++ extra))) w1 = Ok (ga2, w') /\
    record_generation ga2 w' = Ok (ga', w').
Proof.
  intros K G H. unfold generation_step in H.
  apply bind_ok in H as (feasible & w0 & H1 & H).
  apply feasible_members_run in H1 as (-> & -> & V).
  apply bind_ok in H as (keyed & w0 & H1 & H).
  apply with_fitness_run in H1 as (-> & ->).
  rewrite sorted_by_map in H.
  apply bind_ok in H as (np & w1 & H1 & H).
  destruct (safe_breed (math_exp:=math_exp) K (owned_at_end G) H1)
    as (S1 & O1 & extra & -> & _).
  apply bind_ok in H as (ga2 & w2 & H2 & H).
  pose proof H as H3. apply record_generation_run in H3 as (-> & _).
  exists extra, w1, ga2. split; [exact S1|]. split; [apply O1|].
  split; [exact V|]. split; [exact H2 | exact H].
Qed.

Lemma stable_lookup n m w w' r o :
  stable n m w w' -> r < n -> sols w !! r = Some o -> sols w' !! r = Some o.
Proof. intros (A & _) L E. rewrite A; assumption. Qed.

Lemma update_rule ga w ga' w' :
  update_best_solution ga w = Ok (ga', w') ->
  preserved w w' /\ population ga' = population ga /\
  (best_solution ga' = best_solution ga \/
   exists cb c,
     best_member w (population ga) = Some cb /\
     best_solution ga' = Some c /\
     (forall b, best_solution ga = Some b ->
        fl_ltb (fitness_at w cb) (fitness_at w b) = true) /\
     sols w !! c = None /\
     fitness_at w' c = fitness_at w cb /\
     (forall x, solution_state w cb = Some x ->
        solution_state w' c = Some x /\
        exists co, sols w' !! c = Some co /\
          length (dicts w) <= placement_map co /\
          length (dicts w) <= assignment_map co)).
Proof.
  intros H.
  assert (F : safe (fun _ => True) (length (sols w)) (length (dicts w))
                (update_best_solution ga)
                (fun ga' => population ga' = population ga /\
                   match best_solution ga' with Some b => True | None => True end)).
  { apply (@safe_update_best_solution _ kept_true _ _ ga (fun _ => True)).
    - auto.
    - destruct (best_solution ga); exact I. }
  destruct (safe_run F H) as (P & EP & _). split; [exact P|].
  split; [exact EP|].
  assert (C : forall cb c cbo,
            best_member w (population ga) = Some cb ->
            sols w !! cb = Some cbo ->
            clone (problem ga) cb w = Ok (c, w') ->
            sols w !! c = None /\ fitness_at w' c = fitness_at w cb /\
            forall x, solution_state w cb = Some x ->
              solution_state w' c = Some x /\
              exists co, sols w' !! c = Some co /\
                length (dicts w) <= placement_map co /\
                length (dicts w) <= assignment_map co).
  { intros cb c cbo Eb Hcb Hc.
    destruct (clone_objects Hc) as (o & o' & Ho & -> & Es & _ & _ & Ef & _).
    split; [apply lookup_ge_None; lia|]. split.
    - unfold fitness_at. rewrite Es, lookup_snoc, Ho. exact Ef.
    - intros x Hx. destruct (clone_state (problem ga) Hx) as (w2 & R & T & _).
      rewrite R in Hc. inversion Hc; subst w2. split; [exact T|].
      destruct x as [[[[[pl asg] c0] l0] ok0] f0].
      apply solution_state_Some in Hx as (o2 & Ho2 & Hp & Ha & _).
      rewrite (clone_run (problem ga) Ho2 Hp Ha) in R. inversion R as [Ew].
      eexists. rewrite <- Ew. unfold cloned. cbn [sols].
      split; [apply lookup_snoc|]. simpl. lia. }
  pose proof (update_best_solution_run H) as U.
  destruct (best_member w (population ga)) as [cb|] eqn:Eb.
  + destruct U as ((cbo & Hcb) & U).
    destruct (best_solution ga) as [b|] eqn:Ei.
    * destruct U as ((bo & Hb) & U).
      destruct (fl_ltb (fitness_at w cb) (fitness_at w b)) eqn:El.
      -- destruct U as (c & Hc & ->). right. exists cb, c.
         split; [reflexivity|]. split; [simpl; reflexivity|].
         split; [intros b' E'; inversion E'; subst; exact El|].
         eapply C; eauto.
      -- destruct U as (-> & ->). left. exact Ei.
    * destruct U as (c & Hc & ->). right. exists cb, c.
      split; [reflexivity|]. split; [simpl; reflexivity|].
      split; [intros b' E'; discriminate|].
      eapply C; eauto.
  + destruct U as (-> & ->). left. reflexivity.
Qed.

Lemma generation_never_worsens math_exp ga w g ga' w' b bo :
  best_solution ga = Some b -> sols w !! b = Some bo ->
  generation_step math_exp ga g w = Ok (ga', w') ->
  exists b' bo',
    best_solution ga' = Some b' /\ sols w' !! b' = Some bo' /\
    fl_le (fitness bo') (fitness bo).
Proof.
  intros Ei Hb H.
  destruct (generation_step_run kept_true (fun _ _ _ => I) H)
    as (extra & w1 & ga2 & S1 & _ & _ & HU & HR).
  apply record_generation_run in HR as (_ & -> & _).
  assert (L : b < length (sols w)) by (eapply lookup_lt_Some; eauto).
  pose proof (stable_lookup S1 L Hb) as Hb1.
  pose proof (update_best_solution_run HU) as U. simpl in U.
  destruct (best_member w1 _) as [cb|].
  + destruct U as ((cbo & Hcb) & U). rewrite Ei in U.
    destruct U as (_ & U).
    rewrite (fitness_at_Some Hcb), (fitness_at_Some Hb1) in U.
    destruct (fl_ltb (fitness cbo) (fitness bo)) eqn:El.
    * destruct U as (c & Hc & ->). simpl.
      destruct (clone_objects Hc) as (o & o' & Ho & -> & Es & _ & _ & Ef & _).
      exists (length (sols w1)), o'. split; [reflexivity|].
      split; [rewrite Es; apply lookup_snoc|].
      right. rewrite Ef. rewrite Hcb in Ho. inversion Ho; subst. exact El.
    * destruct U as (-> & ->). simpl. exists b, bo.
      split; [exact Ei|]. split; [exact Hb1|]. left. reflexivity.
  + destruct U as (-> & ->). simpl. exists b, bo.
    split; [exact Ei|]. split; [exact Hb1|]. left. reflexivity.
Qed.

Lemma fl_le_trans a b c : fl_le a b -> fl_le b c -> fl_le a c.
Proof.
  intros [->|H1] [->|H2]; unfold fl_le; auto.
  right. eapply fl_ltb_trans; eauto.
Qed.

Lemma run_never_worsens math_exp ga w i j ga_i w_i ga_j w_j b bo :
  i <= j ->
  run_generations math_exp i ga w = Ok (ga_i, w_i) ->
  run_generations math_exp j ga w = Ok (ga_j, w_j) ->
  best_solution ga_i = Some b -> sols w_i !! b = Some bo ->
  exists b' bo',
    best_solution ga_j = Some b' /\ sols w_j !! b' = Some bo' /\
    fl_le (fitness bo') (fitness bo).
Proof.
  intros L Hi Hj Eb Hb. revert ga_j w_j Hj.
  induction L as [|j L IH]; intros ga_j w_j Hj.
  - rewrite Hi in Hj. inversion Hj; subst. exists b, bo.
    split; [exact Eb|]. split; [exact Hb|]. left. reflexivity.
  - simpl in Hj. apply bind_ok in Hj as (ga1 & w1 & H1 & Hj).
    destruct (IH _ _ H1) as (b1 & bo1 & E1 & Hb1 & L1).
    destruct (generation_never_worsens E1 Hb1 Hj) as (b2 & bo2 & E2 & Hb2 & L2).
    exists b2, bo2. split; [exact E2|]. split; [exact Hb2|].
    eapply fl_le_trans; eauto.
Qed.

(** C6.  [update_best_solution] changes no solution of the store; it
    keeps the incumbent unless the population's best feasible member
    has a strictly lower fitness than the incumbent, or there is no
    incumbent yet; the incumbent it then stores is a new object with
    dictionaries of its own, in the state of that member.  Along the
    generational loop the fitness of the incumbent never rises: the
    incumbent after [j] generations is at or below the one after
    [i <= j] generations. *)
Theorem incumbent_tracking math_exp ga w :
  (forall ga' w',
     update_best_solution ga w = Ok (ga', w') ->
     preserved w w' /\ population ga' = population ga /\
     (best_solution ga' = best_solution ga \/
      exists cb c,
        best_member w (population ga) = Some cb /\
        best_solution ga' = Some c /\
        (forall b, best_solution ga = Some b ->
           fl_ltb (fitness_at w cb) (fitness_at w b) = true) /\
        sols w !! c = None /\
        fitness_at w' c = fitness_at w cb /\
        (forall x, solution_state w cb = Some x ->
           solution_state w' c = Some x /\
           exists co, sols w' !! c = Some co /\
             length (dicts w) <= placement_map co /\
             length (dicts w) <= assignment_map co)))
  /\ (forall i j ga_i w_i ga_j w_j b bo,
        i <= j ->
        run_generations math_exp i ga w = Ok (ga_i, w_i) ->
        run_generations math_exp j ga w = Ok (ga_j, w_j) ->
        best_solution ga_i = Some b -> sols w_i !! b = Some bo ->
        exists b' bo',
          best_solution ga_j = Some b' /\ sols w_j !! b' = Some bo' /\
          fl_le (fitness bo') (fitness bo)).
Proof.
  split.
  - intros ga' w'. apply update_rule.
  - intros i j ga_i w_i ga_j w_j b bo. apply run_never_worsens.
Qed.

(* ================================================================= *)
(** ** The head of the sorted population *)

Lemma min_by_restart {A} (key : A -> fl) l x y :
  key y <> NaN -> (forall z, In z l -> key z <> NaN) ->
  fl_ltb (key y) (key x) = false ->
  min_by key x l =
    if fl_ltb (key (min_by key y l)) (key x) then min_by key y l else x.
Proof.
  revert x y. induction l as [|z l IH]; intros x y Ny Nl E; simpl.
  - rewrite E. reflexivity.
  - assert (Nz : key z <> NaN) by (apply Nl; left; reflexivity).
    assert (Nl' : forall z, In z l -> key z <> NaN)
      by (intros z' I; apply Nl; right; exact I).
    destruct (fl_ltb (key z) (key x)) eqn:Ezx.
    + assert (Ezy : fl_ltb (key z) (key y) = true).
      { destruct (fl_ltb (key z) (key y)) eqn:C; [reflexivity|].
        rewrite (fl_not_ltb_trans Ny E C) in Ezx. discriminate. }
      rewrite Ezy.
      destruct (min_by_below key z l) as [-> | B].
      * rewrite Ezx. reflexivity.
      * rewrite (fl_ltb_trans B Ezx). reflexivity.
    + destruct (fl_ltb (key z) (key y)) eqn:Ezy.
      * apply IH; assumption.
      * apply IH; assumption.
Qed.

Lemma sorted_by_head {A} (key : A -> fl) l x :
  (forall z, In z (x :: l) -> key z <> NaN) ->
  exists s, sorted_by key (x :: l) = min_by key x l :: s.
Proof.
  revert x. induction l as [|y l IH]; intros x N.
  - exists []. reflexivity.
  - destruct (IH y) as (s & Es); [intros z I; apply N; right; exact I|].
    change (sorted_by key (x :: y :: l))
      with (insert_by key x (sorted_by key (y :: l))).
    rewrite Es. simpl.
    destruct (fl_ltb (key y) (key x)) eqn:Eyx.
    + destruct (min_by_below key y l) as [E | B].
      * rewrite E, Eyx. eauto.
      * rewrite (fl_ltb_trans B Eyx). eauto.
    + rewrite (@min_by_restart _ key l x y).
      * destruct (fl_ltb (key (min_by key y l)) (key x)); eauto.
      * apply N. right. left. reflexivity.
      * intros z I. apply N. right. right. exact I.
      * exact Eyx.
Qed.

(* ================================================================= *)
(** ** The incumbent follows the population *)

Lemma feasible_at_Some w r : feasible_at w r = true ->
  exists o, sols w !! r = Some o /\ is_feasible o = true.
Proof.
  unfold feasible_at. destruct (sols w !! r) as [o|]; [eauto | discriminate].
Qed.

Lemma update_best_solution_valid ga w ga' w' :
  update_best_solution ga w = Ok (ga', w') ->
  forall r, In r (population ga) -> exists o, sols w !! r = Some o.
Proof.
  unfold update_best_solution. intros H.
  apply bind_ok in H as (feasible & w1 & H1 & H).
  apply feasible_members_run in H1 as (-> & -> & V). exact V.
Qed.

(** Reading the population in a store that has one more solution. *)
Lemma best_member_extended w w' o pop :
  sols w' = sols w ++ [o] ->
  (forall r, In r pop -> exists x, sols w !! r = Some x) ->
  best_member w' pop = best_member w pop.
Proof.
  intros Es V. unfold best_member.
  assert (Ef : forall r, In r pop -> sols w' !! r = sols w !! r).
  { intros r I. destruct (V r I) as (x & Hx). rewrite Es, Hx.
    apply lookup_app_l_Some. exact Hx. }
  assert (E1 : List.filter (feasible_at w') pop = List.filter (feasible_at w) pop).
  { apply filter_ext_in. intros r I. unfold feasible_at.
    rewrite (Ef r I). reflexivity. }
  rewrite E1.
  destruct (List.filter (feasible_at w) pop) as [|x rest] eqn:EF; [reflexivity|].
  f_equal.
  assert (Ek : forall r, In r (x :: rest) -> fitness_at w' r = fitness_at w r).
  { intros r I. unfold fitness_at. rewrite Ef; [reflexivity|].
    rewrite <- EF in I. apply filter_In in I. tauto. }
  clear EF E1. revert x Ek. induction rest as [|y rest IH]; intros x Ek; simpl.
  - reflexivity.
  - rewrite !Ek by (simpl; auto).
    destruct (fl_ltb (fitness_at w y) (fitness_at w x)); apply IH;
      intros r [<-|I]; apply Ek; simpl; auto.
Qed.

Lemma best_member_In w pop r :
  best_member w pop = Some r -> In r pop /\ feasible_at w r = true.
Proof.
  unfold best_member.
  destruct (List.filter (feasible_at w) pop) as [|x rest] eqn:EF; [discriminate|].
  intros H. inversion H; subst. apply filter_In. rewrite EF. apply min_by_In.
Qed.

(** [update_best_solution] makes the incumbent follow the population,
    provided the incumbent it finds, if any, carries the scores of the
    first feasible member. *)
Lemma update_tracks ga w ga' w' :
  (best_solution ga = None \/
   exists b m rest bo mo,
     best_solution ga = Some b /\
     List.filter (feasible_at w) (population ga) = m :: rest /\
     sols w !! b = Some bo /\ sols w !! m = Some mo /\ same_scores bo mo) ->
  update_best_solution ga w = Ok (ga', w') ->
  incumbent_follows ga' w' /\ population ga' = population ga.
Proof.
  intros Pre H. pose proof (update_best_solution_valid H) as V.
  pose proof (update_best_solution_run H) as U.
  assert (C : forall cb cbo c,
            best_member w (population ga) = Some cb ->
            sols w !! cb = Some cbo ->
            clone (problem ga) cb w = Ok (c, w') ->
            incumbent_follows (set_best_solution ga (Some c)) w').
  { intros cb cbo c Eb Hcb Hc.
    destruct (clone_objects Hc) as (o & o' & Ho & -> & Es & Ec & El & Ef & _).
    rewrite Hcb in Ho. inversion Ho; subst o.
    unfold incumbent_follows. simpl.
    rewrite (best_member_extended Es V), Eb.
    exists (length (sols w)), cbo, o'. split; [reflexivity|].
    split; [rewrite Es; apply lookup_app_l_Some; exact Hcb|].
    split; [rewrite Es; apply lookup_snoc|].
    unfold same_scores. auto. }
  destruct (best_member w (population ga)) as [cb|] eqn:Eb.
  - destruct U as ((cbo & Hcb) & U).
    destruct Pre as [En | (b & m & rest & bo & mo & Ei & EF & Hb & Hm & Sc)].
    + rewrite En in U. destruct U as (c & Hc & ->).
      split; [eapply C; eauto | reflexivity].
    + rewrite Ei in U. destruct U as (_ & U).
      destruct (fl_ltb (fitness_at w cb) (fitness_at w b)) eqn:El.
      * destruct U as (c & Hc & ->). split; [eapply C; eauto | reflexivity].
      * destruct U as (-> & ->). split; [|reflexivity].
        unfold incumbent_follows. rewrite Eb.
        unfold best_member in Eb. rewrite EF in Eb. inversion Eb as [Ecb].
        destruct (min_by_below (fitness_at w) m rest) as [Em | B].
        -- rewrite Em in *. exists b, mo, bo. auto.
        -- exfalso. rewrite Ecb in B.
           rewrite (fitness_at_Some Hm) in B.
           rewrite (fitness_at_Some Hb) in El.
           destruct Sc as (Ef & _). rewrite Ef in El. congruence.
  - destruct U as (-> & ->). split; [|reflexivity].
    unfold incumbent_follows. rewrite Eb.
    destruct Pre as [En | (b & m & rest & bo & mo & Ei & EF & _)]; [exact En|].
    unfold best_member in Eb. rewrite EF in Eb. discriminate.
Qed.

Lemma scored_store_spec w :
  scored_store w = true <->
  forall r o, sols w !! r = Some o -> finite_when_feasible o.
Proof.
  unfold scored_store, finite_when_feasible. rewrite forallb_forall. split.
  - intros H r o Ho E. specialize (H o).
    rewrite E in H. simpl in H.
    destruct (fitness o); try (eauto; fail);
      (exfalso; assert (false = true); [apply H|discriminate];
       apply list_elem_of_In; eapply list_elem_of_lookup_2; eauto).
  - intros H o I. apply list_elem_of_In in I.
    apply list_elem_of_lookup_1 in I as (r & Ho).
    destruct (is_feasible o) eqn:E; [|reflexivity].
    destruct (H r o Ho E) as (q & ->). reflexivity.
Qed.

Lemma update_best_solution_config ga w ga' w' :
  update_best_solution ga w = Ok (ga', w') ->
  population_size ga' = population_size ga /\ generations ga' = generations ga /\
  fitness_history ga' = fitness_history ga /\
  cost_history ga' = cost_history ga /\
  latency_history ga' = latency_history ga.
Proof.
  intros H. pose proof (update_best_solution_run H) as U.
  destruct (best_member w (population ga)).
  - destruct U as (_ & U). destruct (best_solution ga).
    + destruct U as (_ & U). destruct (fl_ltb _ _).
      * destruct U as (c & _ & ->). simpl. auto.
      * destruct U as (-> & _). auto.
    + destruct U as (c & _ & ->). simpl. auto.
  - destruct U as (-> & _). auto.
Qed.

Lemma record_generation_config ga w ga' w' :
  record_generation ga w = Ok (ga', w') ->
  population_size ga' = population_size ga /\ generations ga' = generations ga.
Proof.
  unfold record_generation. intros H.
  apply bind_ok in H as (feasible & w1 & _ & H).
  apply bind_ok in H as (keyed & w2 & _ & H).
  destruct (map snd keyed).
  - inversion H; subst. auto.
  - destruct (best_solution ga).
    + apply bind_ok in H as (bo & w3 & _ & H). inversion H; subst. auto.
    + inversion H; subst. auto.
Qed.

(** One generation keeps the engine in order and appends the entries
    of its population to the three series. *)
Lemma generation_step_entry math_exp ga g w ga' w' :
  engine_ok ga w ->
  generation_step math_exp ga g w = Ok (ga', w') ->
  engine_ok ga' w' /\
  population_size ga' = population_size ga /\
  generations ga' = generations ga /\
  fitness_history ga' =
    fitness_history ga ++ [fst (fst (generation_entry w' (population ga')))] /\
  cost_history ga' =
    cost_history ga ++ [snd (fst (generation_entry w' (population ga')))] /\
  latency_history ga' =
    latency_history ga ++ [snd (generation_entry w' (population ga'))].
Proof.
  intros (Sc & Inc & Z) H.
  pose proof (proj1 (scored_store_spec w) Sc) as G.
  destruct (safe_generation_step (math_exp:=math_exp) kept_finite (owned_at_end G) H)
    as (_ & (_ & _ & _ & G') & _).
  destruct (generation_step_run kept_finite G H)
    as (extra & w1 & ga2 & S1 & G1 & V & HU & HR).
  assert (Pre :
    best_solution ga = None \/
    exists b m rest bo mo,
      best_solution ga = Some b /\
      List.filter (feasible_at w1)
        (take (population_size ga)
           (take (Nat.max 2 (population_size ga / 10))
              (sorted_by (fitness_at w)
                 (List.filter (feasible_at w) (population ga))) ++ extra))
      = m :: rest /\
      sols w1 !! b = Some bo /\ sols w1 !! m = Some mo /\ same_scores bo mo).
  { unfold incumbent_follows in Inc.
    destruct (best_member w (population ga)) as [r0|] eqn:Eb; [|left; exact Inc].
    right. destruct Inc as (b & ro & bo & Ei & Hr & Hb & Ss).
    unfold best_member in Eb.
    destruct (List.filter (feasible_at w) (population ga)) as [|x rest] eqn:EF;
      [discriminate|].
    inversion Eb as [Er0]. clear Eb.
    assert (N : forall z, In z (x :: rest) -> fitness_at w z <> NaN).
    { intros z I. rewrite <- EF in I. apply filter_In in I as [_ F].
      apply feasible_at_Some in F as (o & Ho & Fo).
      destruct (G _ _ Ho Fo) as (q & Eq).
      rewrite (fitness_at_Some Ho), Eq. discriminate. }
    destruct (sorted_by_head N) as (s & Es). rewrite Es, Er0.
    destruct (population_size ga) as [|ps] eqn:Eps.
    { rewrite Z in EF by reflexivity. discriminate. }
    destruct (Nat.max 2 (S ps / 10)) as [|k] eqn:Ek; [lia|].
    simpl.
    assert (Lr : r0 < length (sols w)) by (eapply lookup_lt_Some; eauto).
    assert (Lb : b < length (sols w)) by (eapply lookup_lt_Some; eauto).
    pose proof (stable_lookup S1 Lr Hr) as Hr1.
    pose proof (stable_lookup S1 Lb Hb) as Hb1.
    assert (F1 : feasible_at w1 r0 = true).
    { assert (I : In r0 (x :: rest)) by (rewrite <- Er0; apply min_by_In).
      rewrite <- EF in I. apply filter_In in I as [_ F].
      unfold feasible_at in *. rewrite Hr in F. rewrite Hr1. exact F. }
    rewrite F1. exists b, r0. eexists. exists bo, ro.
    split; [exact Ei|]. split; [reflexivity|]. auto. }
  destruct (update_tracks (ga:=set_population ga _) Pre HU) as (Inc2 & Ep2).
  destruct (update_best_solution_config HU) as (Eps2 & Eg2 & Ef2 & Ec2 & El2).
  destruct (record_generation_config HR) as (Eps3 & Eg3).
  pose proof (record_generation_run HR) as (_ & Eb3 & Ep3 & En).
  simpl in Eps2, Eg2, Ef2, Ec2, El2, Ep2.
  assert (Inc3 : incumbent_follows ga' w').
  { unfold incumbent_follows in *. rewrite Ep3, Eb3. exact Inc2. }
  split.
  { split; [apply scored_store_spec; exact G'|]. split; [exact Inc3|].
    intros E0. rewrite Ep3, Ep2. rewrite Eps3, Eps2 in E0. rewrite E0.
    reflexivity. }
  split; [congruence|]. split; [congruence|].
  unfold generation_entry. rewrite Ep3.
  unfold incumbent_follows in Inc2.
  destruct (best_member w' (population ga2)) as [r|] eqn:Eb.
  - destruct Inc2 as (b & ro & bo & Ei & Hr & Hb & Sf & Sco & Sl).
    rewrite Ei in En. destruct En as (Ef & bo' & Hb' & Ec & El).
    rewrite Hb in Hb'. inversion Hb'; subst bo'.
    rewrite Hr. simpl. rewrite (fitness_at_Some Hr) in Ef.
    rewrite Ef, Ec, El, Ef2, Ec2, El2, Sco, Sl. auto.
  - destruct En as (Ef & Ec & El). simpl.
    rewrite Ef, Ec, El, Ef2, Ec2, El2. auto.
Qed.

(* ================================================================= *)
(** ** The history series *)

Lemma repeat_m_length {A} k (c : M A) w l w' :
  repeat_m k c w = Ok (l, w') -> length l = k.
Proof.
  revert w l w'. induction k as [|k IH]; intros w l w'; simpl.
  - intros H. inversion H; subst. reflexivity.
  - intros H. apply bind_ok in H as (x & w1 & _ & H).
    apply bind_ok in H as (r & w2 & H2 & H). inversion H; subst.
    simpl. f_equal. eapply IH; eauto.
Qed.

Lemma initialize_population_ok ga w ga1 w1 :
  scored_store w = true -> best_solution ga = None ->
  initialize_population ga w = Ok (ga1, w1) ->
  engine_ok ga1 w1 /\
  population_size ga1 = population_size ga /\
  generations ga1 = generations ga /\
  fitness_history ga1 = fitness_history ga /\
  cost_history ga1 = cost_history ga /\
  latency_history ga1 = latency_history ga.
Proof.
  intros Sc En H.
  pose proof (proj1 (scored_store_spec w) Sc) as G.
  destruct (safe_initialize_population kept_finite (owned_at_end G) H)
    as (_ & (_ & _ & _ & G1) & _).
  unfold initialize_population in H.
  apply bind_ok in H as (pop & w0 & Hp & H).
  apply repeat_m_length in Hp.
  destruct (update_tracks (ga:=set_population ga pop) (or_introl En) H)
    as (Inc & Ep).
  destruct (update_best_solution_config H) as (Eps & Eg & Ef & Ec & El).
  simpl in *. split; [|auto].
  split; [apply scored_store_spec; exact G1|]. split; [exact Inc|].
  intros E0. rewrite Ep. rewrite Eps in E0. rewrite E0 in Hp.
  destruct pop; [reflexivity | discriminate].
Qed.

(** After [k] generations each series has grown by [k] entries, the
    one of generation [g] being the entry of the population that
    generation [g] left. *)
Lemma run_generations_entries math_exp ga w k ga' w' :
  engine_ok ga w ->
  run_generations math_exp k ga w = Ok (ga', w') ->
  engine_ok ga' w' /\
  population_size ga' = population_size ga /\
  generations ga' = generations ga /\
  exists fs cs ls,
    fitness_history ga' = fitness_history ga ++ fs /\
    cost_history ga' = cost_history ga ++ cs /\
    latency_history ga' = latency_history ga ++ ls /\
    length fs = k /\ length cs = k /\ length ls = k /\
    forall g, g < k ->
      exists ga_g w_g,
        run_generations math_exp (S g) ga w = Ok (ga_g, w_g) /\
        (nth g fs NaN, nth g cs NaN, nth g ls NaN)
          = generation_entry w_g (population ga_g).
Proof.
  intros Ok0. revert ga' w'. induction k as [|k IH]; intros ga' w' H.
  - simpl in H. inversion H; subst. split; [exact Ok0|].
    split; [reflexivity|]. split; [reflexivity|].
    exists [], [], []. rewrite !app_nil_r. repeat split; try reflexivity.
    intros g L. lia.
  - pose proof H as Hrun. simpl in H.
    apply bind_ok in H as (ga1 & w1 & H1 & H).
    destruct (IH _ _ H1) as (Ok1 & Eps & Eg & fs & cs & ls
                             & Ef & Ec & El & Lf & Lc & Ll & Hg).
    destruct (generation_step_entry Ok1 H) as (Ok2 & Eps2 & Eg2 & Ef2 & Ec2 & El2).
    split; [exact Ok2|]. split; [congruence|]. split; [congruence|].
    exists (fs ++ [fst (fst (generation_entry w' (population ga')))]),
           (cs ++ [snd (fst (generation_entry w' (population ga')))]),
           (ls ++ [snd (generation_entry w' (population ga'))]).
    rewrite Ef2, Ec2, El2, Ef, Ec, El, <- !app_assoc, !length_app. simpl.
    repeat split; try lia.
    intros g L. destruct (Nat.eq_dec g k) as [->|N].
    + exists ga', w'. split; [exact Hrun|].
      rewrite !app_nth2 by lia. rewrite Lf, Lc, Ll, Nat.sub_diag. simpl.
      destruct (generation_entry w' (population ga')) as [[a b] c]. reflexivity.
    + destruct (Hg g) as (ga_g & w_g & Hr & He); [lia|].
      exists ga_g, w_g. split; [exact Hr|].
      rewrite !app_nth1 by lia. exact He.
Qed.

(** C3.  After [evolve], run on a new engine, each of the three series
    has one entry per generation; the entries of generation [g] are
    the fitness, the total cost and the total latency of the best
    feasible member of the population that generation [g] left (the
    first of the feasible members with the lowest fitness), and [inf]
    three times when that population has no feasible member.  The
    store that [evolve] starts from has no feasible solution with a
    fitness that is not a number. *)
Theorem history_series math_exp p psize gens cr mr al sa w b ga' w' :
  scored_store w = true ->
  evolve math_exp (new_engine p psize gens cr mr al sa) w = Ok ((b, ga'), w') ->
  length (fitness_history ga') = gens /\
  length (cost_history ga') = gens /\
  length (latency_history ga') = gens /\
  forall g, g < gens ->
    exists ga_g w_g,
      (do ga1 <- initialize_population (new_engine p psize gens cr mr al sa);
       run_generations math_exp (S g) ga1) w = Ok (ga_g, w_g) /\
      (nth g (fitness_history ga') NaN, nth g (cost_history ga') NaN,
       nth g (latency_history ga') NaN)
        = generation_entry w_g (population ga_g).
Proof.
  intros Sc H. unfold evolve in H.
  apply bind_ok in H as (ga1 & w1 & H1 & H).
  apply bind_ok in H as (ga2 & w2 & H2 & H). inversion H; subst; clear H.
  destruct (initialize_population_ok
              (ga:=new_engine p psize gens cr mr al sa) Sc eq_refl H1)
    as (Ok1 & Eps & Eg & Ef & Ec & El).
  simpl in Eg, Ef, Ec, El. rewrite Eg in H2.
  destruct (run_generations_entries Ok1 H2)
    as (_ & _ & _ & fs & cs & ls & Ef2 & Ec2 & El2 & Lf & Lc & Ll & Hg).
  rewrite Ef in Ef2. rewrite Ec in Ec2. rewrite El in El2. simpl in *.
  subst. repeat split; try assumption.
  intros g L. destruct (Hg g L) as (ga_g & w_g & Hr & He).
  exists ga_g, w_g. split; [|exact He].
  rewrite (bind_run _ H1). exact Hr.
Qed.

Lemma history_series_witness :
  exists b ga' w',
    evolve exp_lower (line_engine true) empty_world = Ok ((b, ga'), w') /\
    length (fitness_history ga') = 2 /\
    length (cost_history ga') = 2 /\
    length (latency_history ga') = 2 /\
    forall g, g < 2 ->
      exists ga_g w_g,
        (do ga1 <- initialize_population (line_engine true);
         run_generations exp_lower (S g) ga1) empty_world = Ok (ga_g, w_g) /\
        (nth g (fitness_history ga') NaN, nth g (cost_history ga') NaN,
         nth g (latency_history ga') NaN)
          = generation_entry w_g (population ga_g).
Proof.
  destruct (evolve exp_lower (line_engine true) empty_world)
    as [[[b ga'] w']|e] eqn:E; [|vm_compute in E; discriminate].
  exists b, ga', w'. split; [reflexivity|].
  apply (@history_series exp_lower (line_problem 4) 3 2 (8 # 10) (2 # 10)
           (1 # 2) true empty_world b ga' w'); [reflexivity | exact E].
Defined.

Lemma incumbent_tracking_witness :
  (exists ga' w',
     update_best_solution (fst line_started) (snd line_started) = Ok (ga', w') /\
     preserved (snd line_started) w' /\
     population ga' = population (fst line_started))
  /\ exists ga1 w1 ga2 w2 b bo b' bo',
       run_generations exp_lower 1 (fst line_started) (snd line_started)
         = Ok (ga1, w1) /\
       run_generations exp_lower 2 (fst line_started) (snd line_started)
         = Ok (ga2, w2) /\
       best_solution ga1 = Some b /\ sols w1 !! b = Some bo /\
       best_solution ga2 = Some b' /\ sols w2 !! b' = Some bo' /\
       fl_le (fitness bo') (fitness bo).
Proof.
  split.
  - destruct (update_best_solution (fst line_started) (snd line_started))
      as [[ga' w']|e] eqn:E; [|vm_compute in E; discriminate].
    exists ga', w'. split; [reflexivity|].
    destruct (incumbent_tracking exp_lower (fst line_started) (snd line_started))
      as [P1 _].
    destruct (P1 _ _ E) as (A & B & _). auto.
  - destruct (run_generations exp_lower 1 (fst line_started) (snd line_started))
      as [[ga1 w1]|e] eqn:E1; [|vm_compute in E1; discriminate].
    destruct (run_generations exp_lower 2 (fst line_started) (snd line_started))
      as [[ga2 w2]|e] eqn:E2; [|vm_compute in E2; discriminate].
    pose proof E1 as E1'. vm_compute in E1'. inversion E1'; subst ga1 w1.
    clear E1'.
    destruct (incumbent_tracking exp_lower (fst line_started) (snd line_started))
      as [_ P2].
    edestruct (P2 1 2) as (b' & bo' & R);
      [ | exact E1 | exact E2 | reflexivity | reflexivity | ]; [lia|].
    do 6 eexists. exists b', bo'. split; [reflexivity|]. split; [reflexivity|].
    split; [reflexivity|]. split; [reflexivity|]. exact R.
Defined.

(* ================================================================= *)
(** ** The methods on a solution that owns its dictionaries *)

Lemma placement_item_own w r pl asg k v w' :
  own w r pl asg -> placement_item r k w = Ok (v, w') ->
  w' = w /\ dict_get k pl = Some v.
Proof.
  intros (o & Ho & _ & Hp & _) H. unfold placement_item in H.
  rewrite (bind_run _ (read_sol_run Ho)) in H.
  rewrite (bind_run _ (read_dict_run Hp)) in H.
  apply lift_ok in H as [-> H]. split; [reflexivity|].
  unfold dict_item in H. destruct (dict_get k pl); inversion H; reflexivity.
Qed.

Lemma assignment_item_own w r pl asg k v w' :
  own w r pl asg -> assignment_item r k w = Ok (v, w') ->
  w' = w /\ dict_get k asg = Some v.
Proof.
  intros (o & Ho & _ & _ & Ha) H. unfold assignment_item in H.
  rewrite (bind_run _ (read_sol_run Ho)) in H.
  rewrite (bind_run _ (read_dict_run Ha)) in H.
  apply lift_ok in H as [-> H]. split; [reflexivity|].
  unfold dict_item in H. destruct (dict_get k asg); inversion H; reflexivity.
Qed.

Lemma get_devices_assigned_to_own p w r pl asg c l w' :
  own w r pl asg -> get_devices_assigned_to p r c w = Ok (l, w') ->
  w' = w /\ l = devices_assigned_to p asg c.
Proof.
  intros (o & Ho & _ & _ & Ha) H. unfold get_devices_assigned_to in H.
  rewrite (bind_run _ (read_sol_run Ho)) in H.
  rewrite (bind_run _ (read_dict_run Ha)) in H.
  inversion H; subst. auto.
Qed.

Lemma dict_store_run l k v w d :
  dicts w !! l = Some d ->
  dict_store l k v w = Ok (tt, with_dicts w (<[l := dict_set k v d]> (dicts w))).
Proof.
  intros Hd. unfold dict_store.
  rewrite (bind_run _ (read_dict_run Hd)). apply (write_dict_run _ Hd).
Qed.

Lemma place_cloudlet_own w r pl asg c t u w' :
  own w r pl asg -> place_cloudlet r c t w = Ok (u, w') ->
  own w' r (if dict_mem c pl then dict_set c (Some t) pl else pl) asg.
Proof.
  intros (o & Ho & Hn & Hp & Ha) H. unfold place_cloudlet in H.
  rewrite (bind_run _ (read_sol_run Ho)) in H.
  rewrite (bind_run _ (read_dict_run Hp)) in H.
  destruct (dict_mem c pl).
  - rewrite (dict_store_run _ _ Hp) in H. inversion H; subst.
    exists o. simpl. split; [exact Ho|]. split; [exact Hn|]. split.
    + apply list_lookup_insert_eq. eapply lookup_lt_Some; eauto.
    + rewrite list_lookup_insert_ne by exact Hn. exact Ha.
  - inversion H; subst. exists o. auto.
Qed.

Lemma assign_device_own w r pl asg d c u w' :
  own w r pl asg -> assign_device r d c w = Ok (u, w') ->
  own w' r pl
    (match dict_get c pl with
     | Some (Some _) => dict_set d (Some c) asg
     | _ => asg
     end).
Proof.
  intros (o & Ho & Hn & Hp & Ha) H. unfold assign_device in H.
  rewrite (bind_run _ (read_sol_run Ho)) in H.
  rewrite (bind_run _ (read_dict_run Hp)) in H.
  destruct (dict_get c pl) as [[t|]|].
  - rewrite (dict_store_run _ _ Ha) in H. inversion H; subst.
    exists o. simpl. split; [exact Ho|]. split; [exact Hn|]. split.
    + rewrite list_lookup_insert_ne by congruence. exact Hp.
    + apply list_lookup_insert_eq. eapply lookup_lt_Some; eauto.
  - inversion H; subst. exists o. auto.
  - inversion H; subst. exists o. auto.
Qed.

Lemma evaluate_own p al w r pl asg f w' :
  own w r pl asg -> evaluate p al r w = Ok (f, w') -> own w' r pl asg.
Proof.
  intros (o & Ho & Hn & Hp & Ha) H.
  apply evaluate_ok in H as (o1 & pl1 & asg1 & c & l & ok & Ho1 & _ & _ & _ & ->).
  rewrite Ho in Ho1. inversion Ho1; subst o1.
  exists (set_scores o c l f ok). simpl.
  split; [apply list_lookup_insert_eq; eapply lookup_lt_Some; eauto|]. auto.
Qed.

Lemma clone_own p s w c w' pl asg c0 l0 ok0 f0 :
  solution_state w s = Some (pl, asg, c0, l0, ok0, f0) ->
  clone p s w = Ok (c, w') -> own w' c pl asg.
Proof.
  intros Hs H.
  apply solution_state_Some in Hs as (o & Ho & Hp & Ha & _).
  rewrite (clone_run p Ho Hp Ha) in H. inversion H; subst.
  eexists. unfold cloned. cbn [sols dicts].
  split; [apply lookup_snoc|]. cbn [placement_map assignment_map].
  split; [lia|]. split.
  - rewrite lookup_app_r by lia.
    replace (length (dicts w) + 2 - length (dicts w)) with 2 by lia. reflexivity.
  - rewrite lookup_app_r by lia.
    replace (length (dicts w) + 3 - length (dicts w)) with 3 by lia. reflexivity.
Qed.

Lemma own_state w r pl asg :
  own w r pl asg ->
  exists c l ok f, solution_state w r = Some (pl, asg, c, l, ok, f).
Proof.
  intros (o & Ho & _ & Hp & Ha). unfold solution_state.
  rewrite Ho, Hp, Ha. eauto.
Qed.

(** *** Loops that only read *)

Lemma filter_m_readonly {A} (f : A -> M bool) l w l' w' :
  (forall x b w1, f x w = Ok (b, w1) -> w1 = w) ->
  filter_m f l w = Ok (l', w') ->
  w' = w /\
  l' = List.filter (fun x => match f x w with
                             | Ok (b, _) => b
                             | Raise _ => false
                             end) l.
Proof.
  intros R. revert l' w'. induction l as [|x l IH]; intros l' w'; simpl.
  - intros H. inversion H; subst. auto.
  - intros H. apply bind_ok in H as (b & w1 & H1 & H).
    pose proof (R _ _ _ H1) as ->.
    apply bind_ok in H as (r & w2 & H2 & H).
    apply IH in H2 as (-> & ->). inversion H; subst. rewrite H1. auto.
Qed.

Lemma for_each_invariant {A} (body : A -> M unit) (Inv : list A -> world -> Prop)
    l w u w' :
  (forall x rest w0 u0 w1,
     Inv (x :: rest) w0 -> body x w0 = Ok (u0, w1) -> Inv rest w1) ->
  Inv l w -> for_each l body w = Ok (u, w') -> Inv [] w'.
Proof.
  intros Step. revert w. induction l as [|x l IH]; intros w I H; simpl in H.
  - inversion H; subst. exact I.
  - apply bind_ok in H as (u0 & w1 & H1 & H). eapply IH; [|exact H].
    eapply Step; eauto.
Qed.

(* ================================================================= *)
(** ** The devices of a site when one device is assigned *)

Lemma at_site_set asg k c s e :
  at_site (dict_set k (Some c) asg) s e =
    if (dev_id e =? k)%Z then (c =? s)%Z else at_site asg s e.
Proof.
  unfold at_site, assigned_site, dict_get_or_none.
  destruct (Z.eqb_spec (dev_id e) k) as [->|N].
  - rewrite dict_get_set_eq. reflexivity.
  - rewrite dict_get_set_ne by congruence. reflexivity.
Qed.

(** Assigning a device leaves the devices of every site as they are
    among devices of other ids. *)
Lemma filter_other_ids asg k c s l :
  (forall e, In e l -> dev_id e <> k) ->
  List.filter (at_site (dict_set k (Some c) asg) s) l
  = List.filter (at_site asg s) l.
Proof.
  intros H. apply filter_ext_in. intros e I. rewrite at_site_set.
  destruct (Z.eqb_spec (dev_id e) k) as [E|_]; [|reflexivity].
  destruct (H e I E).
Qed.

(** The devices of a site are among those already treated when the
    others are unassigned. *)
Lemma filter_treated asg s (done rest : list Device) :
  (forall e, In e rest -> dict_get_or_none (dev_id e) asg = None) ->
  List.filter (at_site asg s) (done ++ rest) = List.filter (at_site asg s) done.
Proof.
  intros H. rewrite List.filter_app.
  assert (E : List.filter (at_site asg s) rest = []).
  { induction rest as [|e rest IH]; [reflexivity|]. simpl.
    unfold at_site at 1, assigned_site. rewrite (H e) by (left; reflexivity).
    simpl. apply IH. intros e' I. apply H. right. exact I. }
  rewrite E. apply app_nil_r.
Qed.

(** Where a list that ends in [d] splits. *)
Lemma snoc_split {A} (done pre post : list A) (d x : A) :
  done ++ [d] = pre ++ x :: post ->
  (post = [] /\ pre = done /\ x = d) \/
  (exists post', post = post' ++ [d] /\ done = pre ++ x :: post').
Proof.
  intros E. destruct (exists_last (l:=x :: post)) as (l' & y & El);
    [discriminate|].
  rewrite El, app_assoc in E. apply app_inj_tail in E as [E1 E2].
  destruct post as [|z post].
  - left. destruct l' as [|a l']; simpl in El.
    + inversion El as [Ex]. rewrite app_nil_r in E1. auto.
    + inversion El as [[Ea Eb]]. destruct l'; discriminate.
  - right. destruct (exists_last (l:=z :: post)) as (q & y' & Eq);
      [discriminate|].
    rewrite Eq in El. change (x :: q ++ [y']) with ((x :: q) ++ [y']) in El.
    apply app_inj_tail in El as [El1 El2].
    exists q. split; [rewrite Eq; congruence|].
    rewrite E1, <- El1. reflexivity.
Qed.


(* ================================================================= *)
(** ** What repair keeps *)

Lemma can_serve_own p r w pl asg d c b w' :
  own w r pl asg -> can_serve p r d c w = Ok (b, w') ->
  w' = w /\
  (b = true ->
   exists t ct, dict_get (cp_id c) pl = Some (Some t) /\
     py_index (cloudlet_types p) t = Ok ct /\
     fits (devices_assigned_to p asg (cp_id c)) d ct = true).
Proof.
  intros O H. unfold can_serve in H.
  apply bind_ok in H as (t & w1 & H1 & H).
  apply (placement_item_own O) in H1 as (-> & Ht).
  destruct t as [t|]; [|discriminate].
  apply bind_ok in H as (ct & w1 & H1 & H). apply lift_ok in H1 as [-> Hct].
  destruct (fl_leb _ _).
  - apply bind_ok in H as (a & w1 & H1 & H).
    apply (get_devices_assigned_to_own O) in H1 as (-> & ->).
    inversion H; subst. split; [reflexivity|]. intros F. eauto.
  - inversion H; subst. split; [reflexivity|]. discriminate.
Qed.

Section Repair.

Variable p : CloudletPlacementProblem.
Variables s t : Z.
Variable ct : CloudletType.
Variable asg0 : dict (option Z).
Variable r : loc.
Hypothesis type_of_site : py_index (cloudlet_types p) t = Ok ct.



End Repair.




(** Nor does repair undo a violation of its input: with three devices
    of demand 1 at a site of capacity 2, every device is assigned, so
    repair changes nothing and the site stays over its capacity. *)
Lemma repair_leaves_an_overloaded_site :
  exists r w' pl asg c l ok f,
    repair_solution (new_engine (line_problem 2) 3 2 (8 # 10) (2 # 10) (1 # 2) true)
      0 line_world = Ok (r, w')
    /\ solution_state w' r = Some (pl, asg, c, l, ok, f)
    /\ ~ capacity_respected (line_problem 2) pl asg.
Proof.
  do 8 eexists. split; [vm_compute; reflexivity|].
  split; [vm_compute; reflexivity|].
  intros C. destruct (C 0%Z 0%Z _ eq_refl eq_refl) as [C1 _].
  vm_compute in C1. apply C1. reflexivity.
Qed.



(* ================================================================= *)
(** ** The methods of a solution, called in sequence *)

Lemma place_cloudlet_run w r pl asg c t :
  own w r pl asg -> exists w', place_cloudlet r c t w = Ok (tt, w').
Proof.
  intros (o & Ho & _ & Hp & _). unfold place_cloudlet.
  rewrite (bind_run _ (read_sol_run Ho)), (bind_run _ (read_dict_run Hp)).
  destruct (dict_mem c pl); [|eexists; reflexivity].
  rewrite (dict_store_run _ _ Hp). eexists; reflexivity.
Qed.

Lemma assign_device_run w r pl asg d c :
  own w r pl asg -> exists w', assign_device r d c w = Ok (tt, w').
Proof.
  intros (o & Ho & _ & Hp & Ha). unfold assign_device.
  rewrite (bind_run _ (read_sol_run Ho)), (bind_run _ (read_dict_run Hp)).
  destruct (dict_get c pl) as [[t|]|]; try (eexists; reflexivity).
  rewrite (dict_store_run _ _ Ha). eexists; reflexivity.
Qed.

Lemma placement_item_run w r pl asg k v :
  own w r pl asg -> dict_get k pl = Some v -> placement_item r k w = Ok (v, w).
Proof.
  intros (o & Ho & _ & Hp & _) H. unfold placement_item.
  rewrite (bind_run _ (read_sol_run Ho)), (bind_run _ (read_dict_run Hp)).
  unfold dict_item. rewrite H. reflexivity.
Qed.

Lemma get_devices_assigned_to_run p w r pl asg c :
  own w r pl asg ->
  get_devices_assigned_to p r c w = Ok (devices_assigned_to p asg c, w).
Proof.
  intros (o & Ho & _ & _ & Ha). unfold get_devices_assigned_to.
  rewrite (bind_run _ (read_sol_run Ho)), (bind_run _ (read_dict_run Ha)).
  reflexivity.
Qed.

Lemma dict_mem_get {V} k (d : dict V) :
  dict_mem k d = true -> exists v, dict_get k d = Some v.
Proof. unfold dict_mem. destruct (dict_get k d); [eauto|discriminate]. Qed.

(** X1. [place_cloudlet] at a site the solution knows, then a read of
    that site: the read returns the type just placed; the placement
    keeps its keys and its other entries, and the assignment is not
    touched. *)
Theorem place_cloudlet_then_lookup w r pl asg c t :
  own w r pl asg -> dict_mem c pl = true ->
  exists w' pl',
    (place_cloudlet r c t ;; placement_item r c) w = Ok (Some t, w') /\
    own w' r pl' asg /\
    dict_keys pl' = dict_keys pl /\
    forall k, k <> c -> dict_get k pl' = dict_get k pl.
Proof.
  intros O Hm. destruct (place_cloudlet_run c t O) as (w' & Hr).
  pose proof (place_cloudlet_own O Hr) as O'. rewrite Hm in O'.
  exists w', (dict_set c (Some t) pl).
  split; [|split; [exact O'|split]].
  - rewrite (bind_run _ Hr).
    apply (placement_item_run O'). apply dict_get_set_eq.
  - destruct (dict_mem_get Hm) as (v & Hv). eapply dict_keys_set_mem; eauto.
  - intros k N. apply dict_get_set_ne. congruence.
Qed.

Lemma place_cloudlet_then_lookup_witness :
  exists w' pl',
    (place_cloudlet 0 0 7 ;; placement_item 0 0) gap_world = Ok (Some 7%Z, w') /\
    own w' 0 pl' [(0%Z, Some 0%Z); (1%Z, None); (2%Z, Some 0%Z)] /\
    dict_keys pl' = [0%Z] /\
    forall k, k <> 0%Z -> dict_get k pl' = dict_get k [(0%Z, Some 0%Z)].
Proof.
  apply (@place_cloudlet_then_lookup gap_world 0 [(0%Z, Some 0%Z)]
           [(0%Z, Some 0%Z); (1%Z, None); (2%Z, Some 0%Z)] 0%Z 7%Z).
  - exists (blank_sol 0 1). simpl. repeat split. lia.
  - reflexivity.
Defined.

(* ----------------------------------------------------------------- *)
(** *** [remove_cloudlet] *)

(** The assignment after the loop of [remove_cloudlet] over [items]. *)
Lemma unassign_get c (items : list (Z * option Z)) : forall a k,
  dict_get k
    (fold_left (fun a kv => if is_some_eq (snd kv) c
                            then dict_set (fst kv) (@None Z) a else a) items a)
  = if existsb (Z.eqb k)
         (map fst (List.filter (fun kv => is_some_eq (snd kv) c) items))
    then Some None else dict_get k a.
Proof.
  induction items as [|[k0 v0] items IH]; intros a k; simpl; [reflexivity|].
  rewrite IH. destruct (is_some_eq v0 c); simpl.
  - destruct (Z.eqb_spec k k0) as [E|N]; simpl.
    + subst k0. rewrite dict_get_set_eq.
      destruct (existsb _ _); reflexivity.
    + rewrite dict_get_set_ne by congruence. reflexivity.
  - reflexivity.
Qed.

Lemma unassign_keys c (items : list (Z * option Z)) : forall a,
  (forall kv, In kv items -> In (fst kv) (dict_keys a)) ->
  dict_keys
    (fold_left (fun a kv => if is_some_eq (snd kv) c
                            then dict_set (fst kv) (@None Z) a else a) items a)
  = dict_keys a.
Proof.
  induction items as [|[k0 v0] items IH]; intros a H; simpl; [reflexivity|].
  assert (K : dict_keys (if is_some_eq v0 c then dict_set k0 None a else a)
              = dict_keys a).
  { destruct (is_some_eq v0 c); [|reflexivity].
    destruct (dict_get k0 a) as [x|] eqn:E.
    - eapply dict_keys_set_mem; eauto.
    - apply dict_get_None in E. exfalso. apply E.
      apply (H (k0, v0)). left; reflexivity. }
  rewrite IH; [exact K|].
  intros kv I. rewrite K. apply H. right; exact I.
Qed.

Lemma unassign_loop o c (items : list (Z * option Z)) : forall w a,
  dicts w !! assignment_map o = Some a ->
  exists w',
    for_each items (fun '(device_id, assigned) =>
      if is_some_eq assigned c
      then dict_store (assignment_map o) device_id None
      else ret tt) w = Ok (tt, w') /\
    sols w' = sols w /\
    dicts w' !! assignment_map o =
      Some (fold_left (fun a kv => if is_some_eq (snd kv) c
                                   then dict_set (fst kv) (@None Z) a else a)
              items a) /\
    forall l, l <> assignment_map o -> dicts w' !! l = dicts w !! l.
Proof.
  induction items as [|[k0 v0] items IH]; intros w a Ha; simpl.
  - exists w. auto.
  - destruct (is_some_eq v0 c).
    + rewrite (bind_run _ (dict_store_run k0 None Ha)).
      destruct (IH (with_dicts w (<[assignment_map o := dict_set k0 None a]> (dicts w)))
                  (dict_set k0 None a)) as (w' & Hr & Hs & Hd & Ho).
      { simpl. apply list_lookup_insert_eq. eapply lookup_lt_Some; eauto. }
      exists w'. split; [exact Hr|]. split; [exact Hs|]. split; [exact Hd|].
      intros l N. rewrite (Ho l N). simpl.
      apply list_lookup_insert_ne. congruence.
    + unfold bind at 1. simpl. apply IH. exact Ha.
Qed.

Lemma filter_none {A} (f : A -> bool) l :
  (forall x, In x l -> f x = false) -> List.filter f l = [].
Proof.
  induction l as [|x l IH]; intros H; simpl; [reflexivity|].
  rewrite (H x) by (left; reflexivity). apply IH.
  intros y I. apply H. right; exact I.
Qed.

(** X2. [remove_cloudlet] at a site the solution knows empties the
    site and unassigns exactly the devices that were assigned to it:
    every other entry of both mappings is kept, no key is added or
    lost, and no device is listed at the site afterwards. *)
Theorem remove_cloudlet_clears p w r pl asg c :
  own w r pl asg -> distinct (dict_keys asg) = true ->
  dict_mem c pl = true ->
  exists w' pl' asg',
    remove_cloudlet r c w = Ok (tt, w') /\
    own w' r pl' asg' /\
    dict_get c pl' = Some None /\
    (forall k, k <> c -> dict_get k pl' = dict_get k pl) /\
    dict_keys pl' = dict_keys pl /\
    dict_keys asg' = dict_keys asg /\
    (forall k, dict_get k asg' =
       if is_some_eq (dict_get_or_none k asg) c then Some None
       else dict_get k asg) /\
    get_devices_assigned_to p r c w' = Ok ([], w').
Proof.
  intros (o & Ho & Hn & Hp & Ha) Hd Hm. apply distinct_NoDup in Hd.
  set (w1 := with_dicts w (<[placement_map o := dict_set c None pl]> (dicts w))).
  assert (Ha1 : dicts w1 !! assignment_map o = Some asg).
  { unfold w1. simpl. rewrite list_lookup_insert_ne by congruence. exact Ha. }
  destruct (@unassign_loop o c asg w1 asg Ha1) as (w' & Hr & Hs & Hf & Hk).
  set (asg' := fold_left (fun a kv => if is_some_eq (snd kv) c
                                      then dict_set (fst kv) (@None Z) a else a)
                 asg asg) in *.
  assert (Kk : dict_keys asg' = dict_keys asg).
  { apply unassign_keys. intros kv I. apply in_map. exact I. }
  assert (Kg : forall k, dict_get k asg' =
             if is_some_eq (dict_get_or_none k asg) c then Some None
             else dict_get k asg).
  { intros k. unfold asg'. rewrite unassign_get, assigned_ids by exact Hd.
    reflexivity. }
  assert (O' : own w' r (dict_set c None pl) asg').
  { exists o. split; [rewrite Hs; exact Ho|]. split; [exact Hn|].
    split; [|exact Hf].
    rewrite Hk by exact Hn. unfold w1. simpl.
    apply list_lookup_insert_eq. eapply lookup_lt_Some; eauto. }
  exists w', (dict_set c None pl), asg'.
  split; [|split; [exact O'|split; [apply dict_get_set_eq|split; [|split; [|split; [exact Kk|split; [exact Kg|]]]]]]].
  - unfold remove_cloudlet.
    rewrite (bind_run _ (read_sol_run Ho)), (bind_run _ (read_dict_run Hp)).
    rewrite Hm. rewrite (bind_run _ (dict_store_run c None Hp)).
    fold w1. rewrite (bind_run _ (read_dict_run Ha1)). exact Hr.
  - intros k N. apply dict_get_set_ne. congruence.
  - destruct (dict_mem_get Hm) as (v & Hv). eapply dict_keys_set_mem; eauto.
  - rewrite (get_devices_assigned_to_run p c O'). f_equal. f_equal.
    rewrite devices_assigned_at by (unfold dict_keys in *; rewrite Kk; exact Hd).
    apply filter_none. intros d _. unfold at_site, assigned_site.
    unfold dict_get_or_none at 1. rewrite Kg.
    destruct (is_some_eq (dict_get_or_none (dev_id d) asg) c) eqn:E;
      [reflexivity|exact E].
Qed.

Lemma remove_cloudlet_clears_witness :
  exists w' pl' asg',
    remove_cloudlet 0 0 gap_world = Ok (tt, w') /\
    own w' 0 pl' asg' /\
    dict_get 0%Z pl' = Some None /\
    dict_get 0%Z asg' = Some None /\ dict_get 2%Z asg' = Some None /\
    get_devices_assigned_to (line_problem 4) 0 0 w' = Ok ([], w').
Proof.
  destruct (@remove_cloudlet_clears (line_problem 4) gap_world 0
              [(0%Z, Some 0%Z)]
              [(0%Z, Some 0%Z); (1%Z, None); (2%Z, Some 0%Z)] 0%Z)
    as (w' & pl' & asg' & H1 & H2 & H3 & _ & _ & _ & H7 & H8).
  - exists (blank_sol 0 1). simpl. repeat split. lia.
  - reflexivity.
  - reflexivity.
  - exists w', pl', asg'. rewrite !H7. simpl. auto 10.
Defined.

(* ----------------------------------------------------------------- *)
(** *** [get_devices_assigned_to] and [assign_device] *)

Lemma is_some_eq_unique v c c' :
  is_some_eq v c = true -> is_some_eq v c' = true -> c = c'.
Proof.
  destruct v as [x|]; simpl; [|discriminate].
  intros H1 H2. apply Z.eqb_eq in H1, H2. congruence.
Qed.

(** X3. [get_devices_assigned_to] changes nothing and returns, in the
    order of the scenario, exactly the devices of the scenario whose
    entry in the assignment names the site; a device is never listed at
    two different sites. *)
Theorem get_devices_assigned_to_spec p w r pl asg c :
  own w r pl asg -> distinct (dict_keys asg) = true ->
  exists l,
    get_devices_assigned_to p r c w = Ok (l, w) /\
    l = List.filter
          (fun d => is_some_eq (dict_get_or_none (dev_id d) asg) c) (devices p) /\
    forall c' l' w' d,
      get_devices_assigned_to p r c' w = Ok (l', w') ->
      In d l -> In d l' -> c' = c.
Proof.
  intros O Hd. apply distinct_NoDup in Hd.
  exists (devices_assigned_to p asg c).
  split; [apply (get_devices_assigned_to_run p c O)|].
  split; [apply (devices_assigned_at p c Hd)|].
  intros c' l' w' d H I I'.
  rewrite (get_devices_assigned_to_run p c' O) in H. inversion H; subst.
  rewrite devices_assigned_at in I, I' by exact Hd.
  apply filter_In in I as [_ I]. apply filter_In in I' as [_ I'].
  unfold at_site in I, I'. eapply is_some_eq_unique; eauto.
Qed.

Lemma get_devices_assigned_to_spec_witness :
  exists l,
    get_devices_assigned_to (line_problem 4) 0 0 gap_world = Ok (l, gap_world) /\
    l = [line_device 0 0 1; line_device 2 20 1].
Proof.
  destruct (@get_devices_assigned_to_spec (line_problem 4) gap_world 0
              [(0%Z, Some 0%Z)]
              [(0%Z, Some 0%Z); (1%Z, None); (2%Z, Some 0%Z)] 0%Z)
    as (l & H1 & H2 & _).
  - exists (blank_sol 0 1). simpl. repeat split. lia.
  - reflexivity.
  - exists l. split; [exact H1|]. rewrite H2. reflexivity.
Defined.

(** X4. [assign_device] for a device of the scenario and a site that
    holds a facility moves the device: afterwards it is listed at that
    site and at no other, and every device with another id is listed
    where it was. *)
Theorem assign_device_moves p w r pl asg d c t :
  own w r pl asg -> distinct (dict_keys asg) = true ->
  In d (devices p) -> dict_get c pl = Some (Some t) ->
  exists w' asg',
    assign_device r (dev_id d) c w = Ok (tt, w') /\
    own w' r pl asg' /\
    In d (devices_assigned_to p asg' c) /\
    (forall s, s <> c -> ~ In d (devices_assigned_to p asg' s)) /\
    (forall e s, dev_id e <> dev_id d ->
       In e (devices_assigned_to p asg' s) <-> In e (devices_assigned_to p asg s)).
Proof.
  intros O Hd Id Hc. apply distinct_NoDup in Hd.
  destruct (assign_device_run (dev_id d) c O) as (w' & Hr).
  pose proof (assign_device_own O Hr) as O'. rewrite Hc in O'.
  assert (Hd' : NoDup (dict_keys (dict_set (dev_id d) (Some c) asg)))
    by (apply dict_set_nodup; exact Hd).
  exists w', (dict_set (dev_id d) (Some c) asg).
  split; [exact Hr|]. split; [exact O'|]. split; [|split].
  - rewrite devices_assigned_at by exact Hd'. apply filter_In.
    split; [exact Id|]. rewrite at_site_set, Z.eqb_refl. apply Z.eqb_refl.
  - intros s N I. rewrite devices_assigned_at in I by exact Hd'.
    apply filter_In in I as [_ I]. rewrite at_site_set, Z.eqb_refl in I.
    apply Z.eqb_eq in I. congruence.
  - intros e s N. rewrite !devices_assigned_at by assumption.
    rewrite !filter_In, at_site_set.
    destruct (Z.eqb_spec (dev_id e) (dev_id d)); [contradiction|reflexivity].
Qed.

Lemma assign_device_moves_witness :
  exists w' asg',
    assign_device 0 1 0 gap_world = Ok (tt, w') /\
    own w' 0 [(0%Z, Some 0%Z)] asg' /\
    In (line_device 1 10 1) (devices_assigned_to (line_problem 4) asg' 0).
Proof.
  destruct (@assign_device_moves (line_problem 4) gap_world 0
              [(0%Z, Some 0%Z)]
              [(0%Z, Some 0%Z); (1%Z, None); (2%Z, Some 0%Z)]
              (line_device 1 10 1) 0%Z 0%Z)
    as (w' & asg' & H1 & H2 & H3 & _).
  - exists (blank_sol 0 1). simpl. repeat split. lia.
  - reflexivity.
  - simpl. auto.
  - reflexivity.
  - exists w', asg'. auto.
Defined.

(* ================================================================= *)
(** ** When [evaluate] returns and when it raises *)

Lemma py_index_total {A} (l : list A) t :
  (- Z.of_nat (length l) <= t < Z.of_nat (length l))%Z ->
  exists x, py_index l t = Ok x.
Proof.
  intros H. unfold py_index. cbv zeta.
  destruct (Z.ltb_spec t 0).
  - destruct (Z.ltb_spec (Z.of_nat (length l) + t) 0); [lia|].
    destruct (nth_error l (Z.to_nat (Z.of_nat (length l) + t))) eqn:E; [eauto|].
    apply nth_error_None in E. lia.
  - destruct (Z.ltb_spec t 0); [lia|].
    destruct (nth_error l (Z.to_nat t)) eqn:E; [eauto|].
    apply nth_error_None in E. lia.
Qed.

Lemma py_index_out {A} (l : list A) t :
  (t < - Z.of_nat (length l) \/ Z.of_nat (length l) <= t)%Z ->
  py_index l t = Raise IndexError.
Proof.
  intros H. unfold py_index. cbv zeta.
  destruct (Z.ltb_spec t 0).
  - destruct (Z.ltb_spec (Z.of_nat (length l) + t) 0); [reflexivity|lia].
  - destruct (Z.ltb_spec t 0); [lia|].
    destruct (nth_error l (Z.to_nat t)) eqn:E; [|reflexivity].
    assert (Z.to_nat t < length l)%nat
      by (apply nth_error_Some; congruence).
    lia.
Qed.

Lemma py_index_raises {A} (l : list A) t e :
  py_index l t = Raise e -> e = IndexError.
Proof.
  unfold py_index. cbv zeta.
  destruct (_ <? 0)%Z; [congruence|]. destruct (nth_error _ _); congruence.
Qed.

Lemma find_of_existsb {A} (f : A -> bool) l :
  existsb f l = true -> exists x, find f l = Some x.
Proof.
  induction l as [|y l IH]; simpl; [discriminate|].
  destruct (f y); [eauto|exact IH].
Qed.

Lemma placement_ok_entry p pl s t :
  placement_ok p pl = true -> In (s, Some t) pl ->
  (exists c, find_candidate p s = Ok c) /\
  exists ct, py_index (cloudlet_types p) t = Ok ct.
Proof.
  unfold placement_ok. rewrite forallb_forall. intros H I.
  specialize (H _ I). simpl in H.
  apply andb_true_iff in H as [H H3]. apply andb_true_iff in H as [H1 H2].
  split.
  - unfold find_candidate. destruct (find_of_existsb H1) as (c & ->). eauto.
  - apply py_index_total. lia.
Qed.

Lemma add_costs_total p pl :
  (forall s t, In (s, Some t) pl ->
     (exists c, find_candidate p s = Ok c) /\
     exists ct, py_index (cloudlet_types p) t = Ok ct) ->
  forall st, exists st', rfold (add_cost p) pl st = Ok st'.
Proof.
  induction pl as [|[s [t|]] pl IH]; intros H st; simpl; [eauto| |].
  - destruct (H s t) as [[c Hc] [ct Hct]]; [left; reflexivity|].
    unfold add_cost. simpl. rewrite Hct. simpl. rewrite Hc. simpl.
    apply IH. intros s' t' I. apply H. right; exact I.
  - apply IH. intros s' t' I. apply H. right; exact I.
Qed.

Lemma serve_device_total p pl asg st d :
  (forall s t, dict_get_or_none s pl = Some t ->
     (exists ct, py_index (cloudlet_types p) t = Ok ct) /\
     dict_get s (snd (fst st)) <> None) ->
  exists st', serve_device p pl asg st d = Ok st'.
Proof.
  destruct st as [[ok ru] lat]. simpl. intros H. unfold serve_device.
  destruct (dict_get_or_none (dev_id d) asg) as [cid|]; [|eauto].
  destruct (dict_get_or_none cid pl) as [tid|] eqn:E; [|eauto].
  destruct (H _ _ E) as [[ct Hct] Hin]. rewrite Hct. cbn [rbind].
  destruct (get_distance p (dev_id d) cid); try eauto.
  destruct (Qltb (coverage_radius ct) q); [eauto|].
  unfold dict_item. destruct (dict_get cid ru); [simpl; eauto|congruence].
Qed.

Lemma same_keys_get {V} (a b : dict V) s :
  dict_keys a = dict_keys b -> dict_get s b <> None -> dict_get s a <> None.
Proof.
  intros K H C. apply H. apply dict_get_None. rewrite <- K.
  apply dict_get_None. exact C.
Qed.

Lemma serve_loop_total p pl asg devs : forall st,
  (forall s t, dict_get_or_none s pl = Some t ->
     (exists ct, py_index (cloudlet_types p) t = Ok ct) /\
     dict_get s (snd (fst st)) <> None) ->
  exists st', rfold (serve_device p pl asg) devs st = Ok st'.
Proof.
  induction devs as [|d devs IH]; intros st H; simpl; [eauto|].
  destruct (serve_device_total asg d H) as (st1 & H1). rewrite H1. simpl.
  apply IH. intros s t E. destruct (H s t E) as [Hc Hg]. split; [exact Hc|].
  eapply same_keys_get; [|exact Hg]. eapply serve_device_keys; eauto.
Qed.

Lemma over_capacity_total p pl items :
  (forall s u, In (s, u) items ->
     exists t ct, dict_get s pl = Some (Some t) /\
       py_index (cloudlet_types p) t = Ok ct) ->
  exists b, over_capacity p pl items = Ok b.
Proof.
  induction items as [|[s u] items IH]; intros H; simpl; [eauto|].
  destruct (H s u) as (t & ct & Ht & Hct); [left; reflexivity|].
  unfold dict_item. rewrite Ht. simpl. rewrite Hct. simpl.
  destruct (exceeds u ct); [eauto|].
  apply IH. intros s' u' I. apply (H s' u'). right; exact I.
Qed.

Lemma latency_bound_nonzero p :
  devices p <> [] -> Qeq_bool (max_possible_latency p) 0 = false.
Proof.
  intros H. destruct (Qeq_bool _ 0) eqn:E; [|reflexivity].
  apply Qeq_bool_iff in E. exfalso. unfold max_possible_latency in E.
  destruct (devices p) as [|d l]; [congruence|].
  assert (P : (0 < inject_Z (Z.of_nat (length (d :: l))) * 1000 * math_sqrt_2)%Q).
  { repeat apply Qmult_lt_0_compat; reflexivity. }
  rewrite E in P. discriminate.
Qed.

Lemma usage_key_placed pl s :
  NoDup (dict_keys pl) ->
  existsb (fun kv => (s =? fst kv)%Z && negb (is_none (snd kv))) pl = true ->
  exists t, dict_get s pl = Some (Some t) /\ In (s, Some t) pl.
Proof.
  intros N H. apply existsb_exists in H as ([k v] & I & H). simpl in H.
  apply andb_true_iff in H as [H1 H2]. apply Z.eqb_eq in H1. subst k.
  destruct v as [t|]; [|discriminate].
  exists t. split; [apply In_dict_get_nodup; assumption|exact I].
Qed.

Lemma evaluate_maps_total p al pl asg :
  placement_ok p pl = true -> distinct (dict_keys pl) = true ->
  devices p <> [] -> Qeq_bool (max_possible_cost p) 0 = false ->
  exists c l ok f, evaluate_maps p al pl asg = Ok (c, l, ok, f).
Proof.
  intros Hok Hd Hn Hc. apply distinct_NoDup in Hd.
  unfold evaluate_maps.
  destruct (@add_costs_total p pl) with (st := (0%Q, @nil (Z * usage)))
    as ([cost ru0] & H1).
  { intros s t I. apply (placement_ok_entry Hok I). }
  rewrite H1. cbn [rbind].
  pose proof (fun s => costs_usage s H1) as U. simpl in U.
  destruct (@serve_loop_total p pl asg (devices p)
              (fold_left (check_entry pl) asg true, ru0, 0%Q))
    as ([[ok3 ru] lat] & H2).
  { intros s t E. simpl. unfold dict_get_or_none in E.
    destruct (dict_get s pl) as [[x|]|] eqn:G; try discriminate.
    inversion E; subst x. split.
    - apply dict_get_In in G. apply (placement_ok_entry Hok G).
    - rewrite U, (placed_has_usage G). discriminate. }
  rewrite H2. cbn [rbind].
  pose proof (serve_loop_keys H2) as K. simpl in K.
  destruct (@over_capacity_total p pl ru) as (over & H3).
  { intros s u I.
    assert (G : dict_get s ru0 <> None).
    { eapply same_keys_get; [symmetry; exact K|].
      intros C. apply dict_get_None in C. apply C.
      apply (in_map fst) in I. exact I. }
    rewrite U in G.
    destruct (existsb _ pl) eqn:E; [|simpl in G; congruence].
    destruct (usage_key_placed Hd E) as (t & Ht & It).
    destruct (placement_ok_entry Hok It) as [_ [ct Hct]]. eauto. }
  rewrite H3. cbn [rbind]. cbv zeta.
  unfold score, py_div. rewrite Hc, (latency_bound_nonzero Hn).
  destruct (if existsb is_none (dict_values asg) then false
            else if over then false else ok3); simpl; eauto.
Qed.

(** X5. On a solution whose occupied sites are sites of the scenario
    holding valid type indices, in a scenario with at least one device
    and a non-zero sum of base costs, [evaluate] raises nothing: it
    returns the fitness it stores, and leaves both mappings as they
    were. *)
Theorem evaluate_returns p al w r pl asg c0 l0 ok0 f0 :
  solution_state w r = Some (pl, asg, c0, l0, ok0, f0) ->
  placement_ok p pl = true -> distinct (dict_keys pl) = true ->
  devices p <> [] -> Qeq_bool (max_possible_cost p) 0 = false ->
  exists f w' c l ok,
    evaluate p al r w = Ok (f, w') /\
    solution_state w' r = Some (pl, asg, c, l, ok, f).
Proof.
  intros Hs Hok Hd Hn Hc.
  destruct (evaluate_maps_total al asg Hok Hd Hn Hc) as (c & l & ok & f & E).
  destruct (evaluate_state Hs E) as (w' & H1 & H2 & _).
  exists f, w', c, l, ok. auto.
Qed.

Lemma evaluate_returns_witness :
  exists f w' c l ok,
    evaluate (line_problem 4) (1 # 2) 0 gap_world = Ok (f, w') /\
    solution_state w' 0
      = Some ([(0%Z, Some 0%Z)], [(0%Z, Some 0%Z); (1%Z, None); (2%Z, Some 0%Z)],
              c, l, ok, f).
Proof.
  apply (@evaluate_returns (line_problem 4) (1 # 2) gap_world 0
           [(0%Z, Some 0%Z)] [(0%Z, Some 0%Z); (1%Z, None); (2%Z, Some 0%Z)]
           0 0 false (Fin 0)).
  - reflexivity.
  - reflexivity.
  - reflexivity.
  - discriminate.
  - reflexivity.
Defined.

Lemma evaluate_raises p al s w pl asg c0 l0 ok0 f0 e :
  solution_state w s = Some (pl, asg, c0, l0, ok0, f0) ->
  evaluate_maps p al pl asg = Raise e ->
  evaluate p al s w = Raise e.
Proof.
  intros Hs E. apply solution_state_Some in Hs as (o & Ho & Hp & Ha & _).
  unfold evaluate.
  rewrite (bind_run _ (read_sol_run Ho)), (bind_run _ (read_dict_run Hp)),
    (bind_run _ (read_dict_run Ha)).
  unfold bind, lift. rewrite E. reflexivity.
Qed.

(** X6. Evaluating twice is evaluating once: a second [evaluate] with
    the same weight returns the same fitness and leaves the store as
    the first one left it. *)
Theorem evaluate_idempotent p al r w f w1 :
  evaluate p al r w = Ok (f, w1) -> evaluate p al r w1 = Ok (f, w1).
Proof.
  intros H.
  apply evaluate_ok in H as (o & pl & asg & c & l & ok & Ho & Hp & Ha & E & ->).
  assert (L : r < length (sols w)) by (eapply lookup_lt_Some; eauto).
  set (w1 := with_sols w (<[r := set_scores o c l f ok]> (sols w))).
  assert (Ho1 : sols w1 !! r = Some (set_scores o c l f ok))
    by (apply list_lookup_insert_eq; exact L).
  assert (Hp1 : dicts w1 !! placement_map (set_scores o c l f ok) = Some pl)
    by exact Hp.
  assert (Ha1 : dicts w1 !! assignment_map (set_scores o c l f ok) = Some asg)
    by exact Ha.
  unfold evaluate.
  rewrite (bind_run _ (read_sol_run Ho1)), (bind_run _ (read_dict_run Hp1)),
    (bind_run _ (read_dict_run Ha1)).
  unfold bind at 1. unfold lift. rewrite E.
  rewrite (bind_run _ (write_sol_run _ Ho1)).
  unfold ret, w1, with_sols. simpl.
  rewrite list_insert_insert_eq. reflexivity.
Qed.

Lemma evaluate_idempotent_witness :
  exists f w1,
    evaluate (line_problem 4) (1 # 2) 0 line_world = Ok (f, w1) /\
    evaluate (line_problem 4) (1 # 2) 0 w1 = Ok (f, w1).
Proof.
  destruct (evaluate (line_problem 4) (1 # 2) 0 line_world)
    as [[f w1]|e] eqn:E; [|vm_compute in E; discriminate].
  exists f, w1. split; [reflexivity|].
  exact (@evaluate_idempotent (line_problem 4) (1 # 2) 0 line_world f w1 E).
Defined.

(** X7. A placed type id outside the list of facility types makes
    [evaluate] raise [IndexError], when the occupied sites are all
    sites of the scenario.  An id from [-len] to [-1] is not outside:
    Python reads it from the end of the list. *)
Theorem evaluate_index_error p al w r pl asg c0 l0 ok0 f0 s t :
  solution_state w r = Some (pl, asg, c0, l0, ok0, f0) ->
  (forall s' t', In (s', Some t') pl -> exists c, find_candidate p s' = Ok c) ->
  In (s, Some t) pl ->
  (t < - Z.of_nat (length (cloudlet_types p))
   \/ Z.of_nat (length (cloudlet_types p)) <= t)%Z ->
  evaluate p al r w = Raise IndexError.
Proof.
  intros Hs Hc I Hout. apply (evaluate_raises Hs).
  unfold evaluate_maps.
  assert (R : forall st, rfold (add_cost p) pl st = Raise IndexError).
  { clear Hs. induction pl as [|[s0 v0] pl IH]; intros st; [contradiction|].
    simpl. destruct v0 as [t0|].
    - unfold add_cost at 1. simpl.
      destruct (py_index (cloudlet_types p) t0) as [ct|e] eqn:E; simpl.
      + destruct (Hc s0 t0) as (c & Ec); [left; reflexivity|].
        rewrite Ec. simpl. destruct I as [I|I].
        * inversion I; subst. rewrite (py_index_out Hout) in E. discriminate.
        * apply IH; [|exact I]. intros s' t' I'. apply (Hc s' t'). right; exact I'.
      + rewrite (py_index_raises E). reflexivity.
    - unfold add_cost at 1. simpl. destruct I as [I|I]; [discriminate|].
      apply IH; [|exact I]. intros s' t' I'. apply (Hc s' t'). right; exact I'. }
  rewrite R. reflexivity.
Qed.

Lemma evaluate_index_error_witness :
  evaluate (line_problem 4) (1 # 2) 0
    {| dicts := [[(0%Z, Some 1%Z)]; [(0%Z, None); (1%Z, None); (2%Z, None)]];
       sols := [blank_sol 0 1]; tape := fun _ => 0; cursor := 0 |}
  = Raise IndexError.
Proof.
  apply (@evaluate_index_error (line_problem 4) (1 # 2) _ 0
           [(0%Z, Some 1%Z)] [(0%Z, None); (1%Z, None); (2%Z, None)]
           0 0 false (Fin 0) 0%Z 1%Z).
  - reflexivity.
  - intros s' t' [I|[]]. inversion I; subst. eexists. reflexivity.
  - left. reflexivity.
  - right. simpl. lia.
Defined.

(* ----------------------------------------------------------------- *)
(** *** A solution just constructed *)

Lemma dict_set_In {V} k (v : V) d kv :
  In kv (dict_set k v d) -> kv = (k, v) \/ In kv d.
Proof.
  induction d as [|[k0 v0] d IH]; simpl.
  - intros [H|[]]. left; congruence.
  - destruct (k =? k0)%Z eqn:E; simpl.
    + apply Z.eqb_eq in E. subst k0. intros [H|H]; [left; congruence|auto].
    + intros [H|H]; [auto|]. destruct (IH H); auto.
Qed.

Lemma dict_set_nonempty {V} k (v : V) d : dict_set k v d <> [].
Proof. destruct d as [|[k0 v0] d]; simpl; [|destruct (k =? k0)%Z]; discriminate. Qed.

Lemma fromkeys_none ids : forall (acc : dict (option Z)),
  (forall kv, In kv acc -> snd kv = None) ->
  forall kv, In kv (fold_left (fun d k => dict_set k None d) ids acc) ->
    snd kv = None.
Proof.
  induction ids as [|k ids IH]; intros acc H kv; simpl; [apply H|].
  apply IH. intros kv' I. destruct (dict_set_In I) as [->|I']; [reflexivity|auto].
Qed.

Lemma fromkeys_nonempty ids : forall (acc : dict (option Z)),
  acc <> [] -> fold_left (fun d k => dict_set k None d) ids acc <> [].
Proof.
  induction ids as [|k ids IH]; intros acc H; simpl; [exact H|].
  apply IH. apply dict_set_nonempty.
Qed.

Lemma dict_fromkeys_none ids kv : In kv (dict_fromkeys ids) -> snd kv = None.
Proof. apply fromkeys_none. intros ? []. Qed.

Lemma all_none_get (d : dict (option Z)) k :
  (forall kv, In kv d -> snd kv = None) -> dict_get_or_none k d = None.
Proof.
  intros H. unfold dict_get_or_none. destruct (dict_get k d) as [v|] eqn:E;
    [|reflexivity].
  apply dict_get_In in E. apply (H _ E).
Qed.

Lemma add_costs_none p (pl : dict (option Z)) st :
  (forall kv, In kv pl -> snd kv = None) -> rfold (add_cost p) pl st = Ok st.
Proof.
  induction pl as [|[k v] pl IH]; intros H; simpl; [reflexivity|].
  pose proof (H (k, v) (or_introl eq_refl)) as E. simpl in E. subst v.
  unfold add_cost at 1. simpl. apply IH. intros kv I. apply H. right; exact I.
Qed.

Lemma serve_loop_none p pl asg devs : forall ok ru lat,
  (forall kv, In kv asg -> snd kv = None) ->
  exists ok', rfold (serve_device p pl asg) devs (ok, ru, lat) = Ok (ok', ru, lat).
Proof.
  induction devs as [|d devs IH]; intros ok ru lat H; simpl; [eauto|].
  rewrite (all_none_get (dev_id d) H). simpl. apply IH. exact H.
Qed.

Lemma fresh_state p w :
  new_solution p w =
    Ok (length (sols w),
        {| dicts := (dicts w ++ [dict_fromkeys (map cp_id (candidate_points p))])
                    ++ [dict_fromkeys (map dev_id (devices p))];
           sols := sols w ++ [blank_sol (length (dicts w)) (S (length (dicts w)))];
           tape := tape w; cursor := cursor w |}) /\
  solution_state
    {| dicts := (dicts w ++ [dict_fromkeys (map cp_id (candidate_points p))])
                ++ [dict_fromkeys (map dev_id (devices p))];
       sols := sols w ++ [blank_sol (length (dicts w)) (S (length (dicts w)))];
       tape := tape w; cursor := cursor w |} (length (sols w))
  = Some (dict_fromkeys (map cp_id (candidate_points p)),
          dict_fromkeys (map dev_id (devices p)), 0%Q, 0%Q, false, Fin 0).
Proof.
  split; [apply new_solution_run|].
  unfold solution_state. cbn [sols dicts]. rewrite lookup_snoc.
  cbn [placement_map assignment_map blank_sol].
  rewrite lookup_app_l by (rewrite length_app; simpl; lia).
  rewrite lookup_snoc.
  replace (S (length (dicts w)))
    with (length (dicts w ++ [dict_fromkeys (map cp_id (candidate_points p))]))
    by (rewrite length_app; simpl; lia).
  rewrite lookup_snoc. reflexivity.
Qed.

(** X8. A solution just constructed, once evaluated, is infeasible
    with fitness [inf], cost 0 and latency 0, whatever the sites and
    the types, as long as the scenario has a device; the evaluation
    raises nothing. *)
Theorem evaluate_new_solution p al w :
  devices p <> [] ->
  exists s w',
    (do s <- new_solution p; evaluate p al s ;; ret s) w = Ok (s, w') /\
    solution_state w' s
    = Some (dict_fromkeys (map cp_id (candidate_points p)),
            dict_fromkeys (map dev_id (devices p)), 0%Q, 0%Q, false, PInf).
Proof.
  intros Hn. destruct (fresh_state p w) as [Hr Hs].
  assert (E : evaluate_maps p al
                (dict_fromkeys (map cp_id (candidate_points p)))
                (dict_fromkeys (map dev_id (devices p)))
              = Ok (0%Q, 0%Q, false, PInf)).
  { unfold evaluate_maps.
    rewrite add_costs_none by apply dict_fromkeys_none. cbn [rbind].
    edestruct serve_loop_none as (ok' & ->); [apply dict_fromkeys_none|].
    cbn [rbind over_capacity].
    assert (X : existsb is_none
                  (dict_values (dict_fromkeys (map dev_id (devices p)))) = true).
    { destruct (devices p) as [|d l]; [congruence|].
      pose proof (@dict_fromkeys_none (map dev_id (d :: l))) as A.
      assert (B : dict_fromkeys (map dev_id (d :: l)) <> []).
      { unfold dict_fromkeys. simpl. apply fromkeys_nonempty. discriminate. }
      destruct (dict_fromkeys (map dev_id (d :: l))) as [|[k v] rest];
        [congruence|].
      pose proof (A (k, v) (or_introl eq_refl)) as Av. simpl in Av. subst v.
      reflexivity. }
    rewrite X. reflexivity. }
  destruct (evaluate_state Hs E) as (w' & H1 & H2 & _).
  exists (length (sols w)), w'. split; [|exact H2].
  rewrite (bind_run _ Hr), (bind_run _ H1). reflexivity.
Qed.

Lemma evaluate_new_solution_witness :
  exists s w',
    (do s <- new_solution (line_problem 4);
     evaluate (line_problem 4) (1 # 2) s ;; ret s) empty_world = Ok (s, w') /\
    solution_state w' s
    = Some ([(0%Z, None)], [(0%Z, None); (1%Z, None); (2%Z, None)],
            0%Q, 0%Q, false, PInf).
Proof.
  apply (@evaluate_new_solution (line_problem 4) (1 # 2) empty_world).
  discriminate.
Defined.

(** X9. In a scenario without devices [evaluate] never returns a
    number: it returns [inf] or raises, and on a solution just
    constructed, which passes every feasibility test, it raises
    [ZeroDivisionError]. *)
Theorem evaluate_without_devices p al :
  devices p = [] ->
  (forall r w f w', evaluate p al r w = Ok (f, w') -> f = PInf)
  /\ (forall w,
        (do s <- new_solution p; evaluate p al s) w = Raise ZeroDivisionError).
Proof.
  intros Hn.
  assert (Z0 : Qeq_bool (max_possible_latency p) 0 = true).
  { unfold max_possible_latency. rewrite Hn. reflexivity. }
  split.
  - intros r w f w' H.
    apply evaluate_ok in H as (o & pl & asg & c & l & ok & _ & _ & _ & E & _).
    unfold evaluate_maps in E.
    apply rbind_ok in E as ([cost ru0] & _ & E).
    apply rbind_ok in E as ([[ok3 ru] lat] & _ & E).
    apply rbind_ok in E as (over & _ & E). cbv zeta in E.
    apply rbind_ok in E as (fit & E & E'). inversion E'; subst.
    unfold score in E.
    destruct (if existsb is_none (dict_values asg) then false
              else if over then false else ok3); [|congruence].
    unfold py_div in E. rewrite Z0 in E.
    destruct (Qeq_bool (max_possible_cost p) 0); discriminate.
  - intros w. destruct (fresh_state p w) as [Hr Hs].
    rewrite (bind_run _ Hr). apply (evaluate_raises Hs).
    unfold evaluate_maps.
    rewrite add_costs_none by apply dict_fromkeys_none. cbn [rbind].
    rewrite Hn. simpl. unfold py_div. rewrite Z0.
    destruct (Qeq_bool (max_possible_cost p) 0); reflexivity.
Qed.

Lemma evaluate_without_devices_witness :
  (do s <- new_solution no_device_problem;
   evaluate no_device_problem (1 # 2) s) empty_world = Raise ZeroDivisionError.
Proof.
  destruct (@evaluate_without_devices no_device_problem (1 # 2) eq_refl)
    as [_ H].
  apply H.
Defined.

(* ================================================================= *)
(** ** The table of distances *)

Lemma distance_lookup_set_eq k v t : distance_lookup k (distance_set k v t) = Some v.
Proof.
  destruct k as [a b]. induction t as [|[[d c] v'] t IH]; simpl.
  - rewrite !Z.eqb_refl. reflexivity.
  - destruct ((a =? d)%Z && (b =? c)%Z) eqn:E; simpl; rewrite E;
      [reflexivity|exact IH].
Qed.

Lemma distance_lookup_set_ne k k' v t :
  k <> k' -> distance_lookup k' (distance_set k v t) = distance_lookup k' t.
Proof.
  destruct k as [a b], k' as [a' b']. intros N.
  induction t as [|[[d c] v'] t IH]; simpl.
  - destruct ((a' =? a)%Z && (b' =? b)%Z) eqn:E; [|reflexivity].
    apply andb_true_iff in E as [E1 E2]. apply Z.eqb_eq in E1, E2. congruence.
  - destruct ((a =? d)%Z && (b =? c)%Z) eqn:E; simpl.
    + destruct ((a' =? d)%Z && (b' =? c)%Z) eqn:E'; [|reflexivity].
      apply andb_true_iff in E as [E1 E2]. apply Z.eqb_eq in E1, E2.
      apply andb_true_iff in E' as [E3 E4]. apply Z.eqb_eq in E3, E4.
      congruence.
    + rewrite IH. reflexivity.
Qed.

Section Table.

Variable math_sqrt : Q -> Q.

Lemma row_other d cands : forall t k,
  fst k <> dev_id d \/ ~ In (snd k) (map cp_id cands) ->
  distance_lookup k (distance_row math_sqrt d cands t) = distance_lookup k t.
Proof.
  induction cands as [|c cands IH]; intros t k H; simpl; [reflexivity|].
  unfold distance_row in *. simpl. rewrite IH.
  - apply distance_lookup_set_ne. intros E. subst k. simpl in H.
    destruct H as [H|H]; [congruence|]. apply H. left; reflexivity.
  - destruct H as [H|H]; [left; exact H|]. right. intros I. apply H.
    right; exact I.
Qed.

Lemma row_entry d cands : forall t c,
  NoDup (map cp_id cands) -> In c cands ->
  distance_lookup (dev_id d, cp_id c) (distance_row math_sqrt d cands t)
  = Some (calculate_distance math_sqrt (dev_x d) (dev_y d) (cp_x c) (cp_y c)).
Proof.
  induction cands as [|c0 cands IH]; intros t c N I; [contradiction|].
  simpl in N. apply NoDup_cons in N as [N1 N2].
  destruct I as [->|I].
  - change (distance_lookup (dev_id d, cp_id c)
              (distance_row math_sqrt d cands
                 (distance_set (dev_id d, cp_id c)
                    (calculate_distance math_sqrt (dev_x d) (dev_y d)
                       (cp_x c) (cp_y c)) t))
            = Some (calculate_distance math_sqrt (dev_x d) (dev_y d)
                      (cp_x c) (cp_y c))).
    rewrite row_other.
    + apply distance_lookup_set_eq.
    + right. simpl. intros C. apply N1. apply list_elem_of_In. exact C.
  - unfold distance_row in *. simpl. apply IH; assumption.
Qed.

Lemma rows_other cands devs : forall t k,
  ~ In (fst k) (map dev_id devs) \/ ~ In (snd k) (map cp_id cands) ->
  distance_lookup k
    (fold_left (fun t d => distance_row math_sqrt d cands t) devs t)
  = distance_lookup k t.
Proof.
  induction devs as [|d devs IH]; intros t k H; simpl; [reflexivity|].
  rewrite IH.
  - apply row_other. destruct H as [H|H]; [left|right; exact H].
    intros E. apply H. left. congruence.
  - destruct H as [H|H]; [left|right; exact H]. intros I. apply H.
    right; exact I.
Qed.

Lemma rows_entry cands devs : forall t d c,
  NoDup (map dev_id devs) -> NoDup (map cp_id cands) ->
  In d devs -> In c cands ->
  distance_lookup (dev_id d, cp_id c)
    (fold_left (fun t d => distance_row math_sqrt d cands t) devs t)
  = Some (calculate_distance math_sqrt (dev_x d) (dev_y d) (cp_x c) (cp_y c)).
Proof.
  induction devs as [|d0 devs IH]; intros t d c Nd Nc Id Ic; [contradiction|].
  simpl in Nd. apply NoDup_cons in Nd as [N1 N2]. simpl.
  destruct Id as [->|Id].
  - rewrite rows_other.
    + apply row_entry; assumption.
    + left. simpl. intros C. apply N1. apply list_elem_of_In. exact C.
  - apply IH; assumption.
Qed.

(** X10. After [precompute_distances], in a scenario whose device ids
    and site ids are pairwise distinct, [get_distance] of a device and
    a site of the scenario is the distance [calculate_distance] gives
    for their coordinates; for a pair with an id that the scenario
    does not have, [get_distance] answers what it answered before
    (entries are never removed), which is [inf] when the table had no
    such entry.  The three lists of the scenario are as they were. *)
Theorem precompute_then_get_distance p :
  distinct (map dev_id (devices p)) = true ->
  distinct (map cp_id (candidate_points p)) = true ->
  devices (precompute_distances math_sqrt p) = devices p
  /\ candidate_points (precompute_distances math_sqrt p) = candidate_points p
  /\ cloudlet_types (precompute_distances math_sqrt p) = cloudlet_types p
  /\ (forall d c, In d (devices p) -> In c (candidate_points p) ->
        get_distance (precompute_distances math_sqrt p) (dev_id d) (cp_id c)
        = Fin (calculate_distance math_sqrt (dev_x d) (dev_y d)
                 (cp_x c) (cp_y c)))
  /\ (forall i j,
        ~ In i (map dev_id (devices p))
        \/ ~ In j (map cp_id (candidate_points p)) ->
        get_distance (precompute_distances math_sqrt p) i j
        = get_distance p i j).
Proof.
  intros Nd Nc. apply distinct_NoDup in Nd, Nc.
  split; [reflexivity|]. split; [reflexivity|]. split; [reflexivity|]. split.
  - intros d c Id Ic. unfold get_distance, precompute_distances. simpl.
    rewrite rows_entry by assumption. reflexivity.
  - intros i j H. unfold get_distance, precompute_distances. simpl.
    rewrite rows_other by exact H. reflexivity.
Qed.

End Table.

Lemma precompute_then_get_distance_witness :
  get_distance (precompute_distances (fun x => x) (line_problem 4)) 2 0
  = Fin (calculate_distance (fun x => x) 20 0 10 0)
  /\ get_distance (precompute_distances (fun x => x) (line_problem 4)) 7 0
     = PInf.
Proof.
  destruct (@precompute_then_get_distance (fun x => x) (line_problem 4)
              eq_refl eq_refl) as (_ & _ & _ & H1 & H2).
  split.
  - apply (H1 (line_device 2 20 1)
             {| cp_id := 0; cp_x := 10; cp_y := 0; placement_cost_factor := 1 |});
      simpl; auto.
  - rewrite H2; [reflexivity|]. left. simpl. intros [H|[H|[H|[]]]]; discriminate.
Defined.

(* ================================================================= *)
(** ** The scenarios that [create_random_instance] builds *)

Lemma nth_error_lookup {A} (l : list A) i : nth_error l i = l !! i.
Proof. revert i. induction l as [|x l IH]; intros [|i]; simpl; auto. Qed.

Lemma py_index_nat {A} (l : list A) i x :
  l !! i = Some x -> py_index l (Z.of_nat i) = Ok x.
Proof.
  intros H. unfold py_index. cbv zeta.
  destruct (Z.ltb_spec (Z.of_nat i) 0); [lia|].
  destruct (Z.ltb_spec (Z.of_nat i) 0); [lia|].
  rewrite Nat2Z.id, nth_error_lookup, H. reflexivity.
Qed.

Lemma ids_above a : forall n b,
  a < b -> existsb (Z.eqb (Z.of_nat a)) (map Z.of_nat (seq b n)) = false.
Proof.
  induction n as [|n IH]; intros b L; simpl; [reflexivity|].
  rewrite IH by lia. destruct (Z.eqb_spec (Z.of_nat a) (Z.of_nat b)); [lia|].
  reflexivity.
Qed.

Lemma distinct_ids : forall n a, distinct (map Z.of_nat (seq a n)) = true.
Proof.
  induction n as [|n IH]; intros a; simpl; [reflexivity|].
  rewrite ids_above by lia. rewrite IH. reflexivity.
Qed.

Section Instances.

Variable math_sqrt : Q -> Q.
Variable np_uniform : nat -> Q -> Q -> Q.

(** X11. The scenario that [create_random_instance] builds is well
    formed for the rest of the code: devices and sites carry the ids
    [0, 1, ...] in order, hence pairwise distinct; there are at most
    three facility types, the id of each being its index in the list;
    and every pair of a device and a site has its distance in the
    table.  A count that is negative gives an empty list of devices or
    sites. *)
Theorem create_random_instance_well_formed self nd nc nt :
  let p := create_random_instance math_sqrt np_uniform self nd nc nt in
  map dev_id (devices p) = map Z.of_nat (seq 0 (Z.to_nat nd))
  /\ map cp_id (candidate_points p) = map Z.of_nat (seq 0 (Z.to_nat nc))
  /\ distinct (map dev_id (devices p)) = true
  /\ distinct (map cp_id (candidate_points p)) = true
  /\ length (cloudlet_types p) <= 3
  /\ (forall ct, In ct (cloudlet_types p) ->
        py_index (cloudlet_types p) (ct_id ct) = Ok ct)
  /\ (forall d c, In d (devices p) -> In c (candidate_points p) ->
        get_distance p (dev_id d) (cp_id c)
        = Fin (calculate_distance math_sqrt (dev_x d) (dev_y d)
                 (cp_x c) (cp_y c))).
Proof.
  intros p.
  assert (Ed : map dev_id (devices p) = map Z.of_nat (seq 0 (Z.to_nat nd))).
  { unfold p, create_random_instance. simpl. rewrite map_map. reflexivity. }
  assert (Ec : map cp_id (candidate_points p)
               = map Z.of_nat (seq 0 (Z.to_nat nc))).
  { unfold p, create_random_instance. simpl. rewrite map_map. reflexivity. }
  split; [exact Ed|]. split; [exact Ec|].
  assert (Dd : distinct (map dev_id (devices p)) = true)
    by (rewrite Ed; apply distinct_ids).
  assert (Dc : distinct (map cp_id (candidate_points p)) = true)
    by (rewrite Ec; apply distinct_ids).
  split; [exact Dd|]. split; [exact Dc|]. split; [|split].
  - unfold p, create_random_instance. simpl. rewrite length_imap.
    unfold py_take. destruct (nt <? 0)%Z; rewrite length_take; simpl; lia.
  - intros ct I. unfold p, create_random_instance in *. simpl in *.
    apply list_elem_of_In in I.
    apply elem_of_lookup_imap_1 in I as (i & x & -> & Hx).
    assert (Ei : ct_id (type_of_spec i x) = Z.of_nat i)
      by (destruct x as [[[[a b] c] d] e]; reflexivity).
    rewrite Ei. apply py_index_nat.
    rewrite list_lookup_imap, Hx. reflexivity.
  - intros d c Id Ic. apply distinct_NoDup in Dd, Dc.
    unfold get_distance, p, create_random_instance, precompute_distances
      in *. simpl in *.
    rewrite rows_entry by assumption. reflexivity.
Qed.

End Instances.

(* ================================================================= *)
(** ** Selection and the size of the population *)

Lemma sample_from_spec {A} k : forall (l : list A) w t w',
  sample_from k l w = Ok (t, w') ->
  length t = k /\ (forall x, In x t -> In x l) /\
  sols w' = sols w /\ dicts w' = dicts w.
Proof.
  induction k as [|k IH]; intros l w t w' H; simpl in H.
  - inversion H; subst. simpl. tauto.
  - apply bind_ok in H as (n & w1 & H1 & H).
    unfold draw in H1. inversion H1; subst n w1. clear H1.
    destruct (nth_error l (tape w (cursor w) mod length l)) as [x|] eqn:E;
      [|discriminate].
    apply bind_ok in H as (r & w2 & H2 & H). inversion H; subst t w'.
    apply IH in H2 as (L & I & S1 & S2). simpl in S1, S2.
    split; [simpl; congruence|]. split; [|auto].
    intros y [<-|Iy].
    + eapply nth_error_In; eauto.
    + eapply remove_nth_In. apply I. exact Iy.
Qed.

(** X12. [tournament_selection] raises [ValueError] when the
    population has fewer members than the size of the tournament, or
    the size is zero; when it returns, the winner is a member of the
    population and no solution or dictionary has changed. *)
Theorem tournament_selection_member ga k w :
  (length (population ga) < k \/ k = 0 ->
   tournament_selection ga k w = Raise ValueError)
  /\ (forall r w', tournament_selection ga k w = Ok (r, w') ->
        In r (population ga) /\ sols w' = sols w /\ dicts w' = dicts w).
Proof.
  split.
  - intros [H|H].
    + unfold tournament_selection, bind.
      rewrite sample_too_large by exact H. reflexivity.
    + subst k. unfold tournament_selection, random_sample. simpl.
      reflexivity.
  - intros r w' H. unfold tournament_selection in H.
    apply bind_ok in H as (t & w1 & H1 & H).
    unfold random_sample in H1.
    destruct (length (population ga) <? k); [discriminate|].
    apply sample_from_spec in H1 as (_ & I & S1 & S2).
    destruct t as [|x rest].
    + unfold min_fitness, bind in H. simpl in H. discriminate.
    + apply min_fitness_run in H as (-> & ->).
      split; [|auto]. apply I. apply min_by_In.
Qed.

(* ----------------------------------------------------------------- *)
(** *** Scenarios without sites or types *)

Lemma repeat_m_raises {A} (c : M A) k w e :
  c w = Raise e -> 0 < k -> repeat_m k c w = Raise e.
Proof.
  intros H L. destruct k as [|k]; [lia|]. simpl. unfold bind. rewrite H.
  reflexivity.
Qed.

(** X13. In a scenario without candidate sites, or without facility
    types, [create_random_solution] raises [ValueError] (from
    [random.randint(1, 0)]), and so does [evolve] for every positive
    population size. *)
Theorem create_random_solution_needs_sites ga w :
  candidate_points (problem ga) = [] \/ cloudlet_types (problem ga) = [] ->
  create_random_solution ga w = Raise ValueError
  /\ (0 < population_size ga ->
      forall math_exp, evolve math_exp ga w = Raise ValueError).
Proof.
  intros H.
  assert (R : create_random_solution ga w = Raise ValueError).
  { unfold create_random_solution.
    rewrite (bind_run _ (new_solution_run (problem ga) w)).
    assert (Z0 : (Z.min (Z.of_nat (length (candidate_points (problem ga))))
                    (Z.of_nat (length (cloudlet_types (problem ga))) * 2)
                  <? 1)%Z = true).
    { apply Z.ltb_lt. destruct H as [-> | ->]; simpl; lia. }
    unfold bind at 1. unfold random_randint. rewrite Z0. reflexivity. }
  split; [exact R|]. intros L math_exp.
  unfold evolve, initialize_population, bind.
  rewrite (repeat_m_raises R L). reflexivity.
Qed.

Lemma create_random_solution_needs_sites_witness :
  create_random_solution
    (new_engine (set_distances
                   {| devices := devices (line_problem 4);
                      candidate_points := [];
                      cloudlet_types := cloudlet_types (line_problem 4);
                      device_to_candidate_distances := [] |} [])
       3 2 (8 # 10) (2 # 10) (1 # 2) true) empty_world
  = Raise ValueError.
Proof.
  refine (proj1 (@create_random_solution_needs_sites _ empty_world _)).
  left. reflexivity.
Defined.

Lemma tournament_selection_member_witness :
  tournament_selection (line_engine true) 3 line_world_scored = Raise ValueError
  /\ exists r w',
       tournament_selection (set_population (line_engine true) [0; 0; 0]) 3
         line_world_scored = Ok (r, w')
       /\ In r [0; 0; 0] /\ sols w' = sols line_world_scored.
Proof.
  split.
  - apply (proj1 (@tournament_selection_member (line_engine true) 3
                    line_world_scored)).
    left. simpl. lia.
  - destruct (tournament_selection
                (set_population (line_engine true) [0; 0; 0]) 3
                line_world_scored) as [[r w']|e] eqn:E;
      [|vm_compute in E; discriminate].
    exists r, w'. split; [reflexivity|].
    destruct (proj2 (@tournament_selection_member
                       (set_population (line_engine true) [0; 0; 0]) 3
                       line_world_scored) r w' E) as (H1 & H2 & _).
    split; [exact H1|exact H2].
Defined.

Section Generations.

Variable math_exp : Q -> Q.

Lemma breed_pair_length ga t w cs w' :
  breed_pair math_exp ga t w = Ok (cs, w') -> length cs = 2.
Proof.
  intros H. unfold breed_pair in H.
  apply bind_ok in H as (p1 & w1 & _ & H).
  apply bind_ok in H as (p2 & w2 & _ & H).
  apply bind_ok in H as ([c1 c2] & w3 & _ & H).
  apply bind_ok in H as (c1' & w4 & _ & H).
  apply bind_ok in H as (c2' & w5 & _ & H).
  apply bind_ok in H as ([c1s c2s] & w6 & _ & H).
  apply bind_ok in H as (c1r & w7 & _ & H).
  apply bind_ok in H as (c2r & w8 & _ & H).
  inversion H; subst. reflexivity.
Qed.

Lemma breed_fills ga t fuel : forall np w np' w',
  population_size ga - length np <= fuel ->
  breed math_exp ga t fuel np w = Ok (np', w') ->
  population_size ga <= length np'.
Proof.
  induction fuel as [|fuel IH]; intros np w np' w' L H; simpl in H.
  - inversion H; subst. lia.
  - destruct (Nat.ltb_spec (length np) (population_size ga)).
    + apply bind_ok in H as (cs & w1 & H1 & H).
      apply breed_pair_length in H1.
      eapply IH; [|exact H]. rewrite length_app. lia.
    + inversion H; subst. lia.
Qed.

Lemma update_best_solution_population ga w ga' w' :
  update_best_solution ga w = Ok (ga', w') -> population ga' = population ga.
Proof.
  intros H. apply update_best_solution_run in H.
  destruct (best_member w (population ga)) as [cb|].
  - destruct H as (_ & H). destruct (best_solution ga) as [b|].
    + destruct H as (_ & H).
      destruct (fl_ltb (fitness_at w cb) (fitness_at w b)).
      * destruct H as (c & _ & ->). reflexivity.
      * destruct H as [-> _]. reflexivity.
    + destruct H as (c & _ & ->). reflexivity.
  - destruct H as [-> _]. reflexivity.
Qed.

(** X14. The population keeps its size: after
    [initialize_population], and after every pass of the generational
    loop whatever population the pass started from, the population has
    exactly [population_size] members. *)
Theorem population_size_kept ga w ga' w' :
  (initialize_population ga w = Ok (ga', w') ->
   length (population ga') = population_size ga)
  /\ (forall g, generation_step math_exp ga g w = Ok (ga', w') ->
        length (population ga') = population_size ga).
Proof.
  split.
  - intros H. unfold initialize_population in H.
    apply bind_ok in H as (pop & w1 & H1 & H).
    apply repeat_m_length in H1.
    apply update_best_solution_population in H. rewrite H. simpl. exact H1.
  - intros g H. unfold generation_step in H.
    apply bind_ok in H as (feasible & w1 & _ & H).
    apply bind_ok in H as (keyed & w2 & _ & H).
    apply bind_ok in H as (np & w3 & H1 & H).
    apply bind_ok in H as (ga2 & w4 & H2 & H).
    apply breed_fills in H1; [|lia].
    apply update_best_solution_population in H2. simpl in H2.
    apply record_generation_run in H as (_ & _ & -> & _).
    rewrite H2, length_take. lia.
Qed.

End Generations.

Lemma population_size_kept_witness :
  exists ga' w',
    initialize_population (line_engine true) empty_world = Ok (ga', w')
    /\ length (population ga') = 3.
Proof.
  destruct (initialize_population (line_engine true) empty_world)
    as [[ga' w']|e] eqn:E; [|vm_compute in E; discriminate].
  exists ga', w'. split; [reflexivity|].
  exact (proj1 (@population_size_kept exp_lower (line_engine true)
                  empty_world ga' w') E).
Defined.

(* ================================================================= *)
(** ** Elitism, and what a run leaves untouched *)

Lemma preserved_trans w1 w2 w3 :
  preserved w1 w2 -> preserved w2 w3 -> preserved w1 w3.
Proof.
  intros A B r H. rewrite <- (A r H). apply B. rewrite (A r H). exact H.
Qed.

Section Run.

Variable math_exp : Q -> Q.

(** X15. The generational loop never changes a solution that is in the
    store: [create_random_solution], [initialize_population], each
    generation and the whole of [evolve] leave every solution that
    existed before the call with the mappings and the scores it had. *)
Theorem engine_preserves_solutions ga w :
  (forall r w', create_random_solution ga w = Ok (r, w') ->
     preserved w w' /\ sols w !! r = None)
  /\ (forall ga' w', initialize_population ga w = Ok (ga', w') ->
        preserved w w')
  /\ (forall g ga' w', generation_step math_exp ga g w = Ok (ga', w') ->
        preserved w w')
  /\ (forall b ga' w', evolve math_exp ga w = Ok ((b, ga'), w') ->
        preserved w w').
Proof.
  split; [|split; [|split]].
  - intros r w' H.
    destruct (safe_run (@safe_create_random_solution _ kept_true _ _ ga) H)
      as [P L].
    split; [exact P|]. apply new_is_fresh. exact L.
  - intros ga' w' H.
    apply (safe_run (safe_initialize_population kept_true (ga:=ga)) H).
  - intros g ga' w' H.
    apply (safe_run (safe_generation_step (math_exp:=math_exp) kept_true
                       (ga:=ga) (g:=g)) H).
  - intros b ga' w' H. unfold evolve in H.
    apply bind_ok in H as (ga1 & w1 & H1 & H).
    apply bind_ok in H as (ga2 & w2 & H2 & H). inversion H; subst.
    eapply preserved_trans.
    + apply (safe_run (safe_initialize_population kept_true (ga:=ga)) H1).
    + apply (safe_run (safe_run_generations (math_exp:=math_exp) kept_true
                         (ga:=ga1) (k:=generations ga1)) H2).
Qed.

(** X16. Elitism: when the population has a feasible member, the best
    of them (the first with the lowest fitness) is the first member of
    the next population, the same object in the state it had.  The
    store is one in which no feasible solution has a fitness that is
    not a number. *)
Theorem elite_survives ga g w ga' w' b :
  scored_store w = true -> 0 < population_size ga ->
  best_member w (population ga) = Some b ->
  generation_step math_exp ga g w = Ok (ga', w') ->
  (exists rest, population ga' = b :: rest)
  /\ forall x, solution_state w b = Some x -> solution_state w' b = Some x.
Proof.
  intros Hs Lp Hb H. split.
  - pose proof (proj1 (scored_store_spec w) Hs) as G.
    destruct (generation_step_run kept_finite G H)
      as (extra & w1 & ga2 & _ & _ & _ & H2 & H3).
    apply update_best_solution_population in H2.
    cbn [population set_population] in H2.
    apply record_generation_run in H3 as (_ & _ & -> & _). rewrite H2.
    unfold best_member in Hb.
    destruct (List.filter (feasible_at w) (population ga)) as [|x rest] eqn:F;
      [discriminate|].
    inversion Hb; subst b. clear Hb.
    destruct (@sorted_by_head _ (fitness_at w) rest x) as (s & ->).
    { intros z Iz. rewrite <- F in Iz. apply filter_In in Iz as [_ Fz].
      apply feasible_at_Some in Fz as (o & Ho & Fo).
      rewrite (fitness_at_Some Ho). destruct (G _ _ Ho Fo) as (q & ->).
      discriminate. }
    assert (Em : exists e, Nat.max 2 (population_size ga / 10) = S e)
      by (exists (Nat.max 2 (population_size ga / 10) - 1); lia).
    destruct Em as (e & ->).
    destruct (population_size ga) as [|ps]; [lia|].
    simpl. eexists. reflexivity.
  - intros x Hx.
    pose proof (safe_run (safe_generation_step (math_exp:=math_exp) kept_true
                            (ga:=ga) (g:=g)) H) as [P _].
    rewrite (P b); [exact Hx|congruence].
Qed.

End Run.

Lemma elite_survives_witness :
  exists ga' w' rest,
    generation_step exp_lower (set_population (line_engine true) [0; 0; 0]) 0
      line_world_scored = Ok (ga', w')
    /\ population ga' = 0 :: rest.
Proof.
  destruct (generation_step exp_lower
              (set_population (line_engine true) [0; 0; 0]) 0
              line_world_scored) as [[ga' w']|e] eqn:E;
    [|vm_compute in E; discriminate].
  destruct (@elite_survives exp_lower
              (set_population (line_engine true) [0; 0; 0]) 0
              line_world_scored ga' w' 0) as [(rest & Hr) _].
  - reflexivity.
  - simpl. lia.
  - reflexivity.
  - exact E.
  - exists ga', w', rest. split; [reflexivity|exact Hr].
Defined.

Lemma engine_preserves_solutions_witness :
  exists b ga' w',
    evolve exp_lower (set_population (line_engine true) [0; 0; 0])
      line_world_scored = Ok ((b, ga'), w')
    /\ solution_state w' 0 = solution_state line_world_scored 0.
Proof.
  destruct (evolve exp_lower (set_population (line_engine true) [0; 0; 0])
              line_world_scored) as [[[b ga'] w']|e] eqn:E;
    [|vm_compute in E; discriminate].
  exists b, ga', w'. split; [reflexivity|].
  destruct (@engine_preserves_solutions exp_lower
              (set_population (line_engine true) [0; 0; 0])
              line_world_scored) as (_ & _ & _ & H).
  apply (H b ga' w' E). vm_compute. discriminate.
Defined.

(* ================================================================= *)
(** ** What [reassign_devices] returns *)

Lemma dict_store_sols l k v w u w' :
  dict_store l k v w = Ok (u, w') -> sols w' = sols w.
Proof.
  intros H. unfold dict_store in H. apply bind_ok in H as (d & w1 & H1 & H).
  apply read_dict_ok in H1 as [-> _]. apply write_dict_ok in H as [-> _].
  reflexivity.
Qed.

Lemma assign_device_sols r d c w u w' :
  assign_device r d c w = Ok (u, w') -> sols w' = sols w.
Proof.
  intros H. unfold assign_device in H.
  apply bind_ok in H as (o & w1 & H1 & H). apply read_sol_ok in H1 as [-> _].
  apply bind_ok in H as (pd & w1 & H1 & H). apply read_dict_ok in H1 as [-> _].
  destruct (dict_get c pd) as [[t|]|]; try (inversion H; reflexivity).
  eapply dict_store_sols; eauto.
Qed.

Lemma assignment_store_own w r pl asg k v u w' :
  own w r pl asg -> assignment_store r k v w = Ok (u, w') ->
  own w' r pl (dict_set k v asg) /\ sols w' = sols w.
Proof.
  intros (o & Ho & Hn & Hp & Ha) H. unfold assignment_store in H.
  rewrite (bind_run _ (read_sol_run Ho)) in H.
  rewrite (dict_store_run _ _ Ha) in H. inversion H; subst.
  split; [|reflexivity]. exists o. simpl.
  split; [exact Ho|]. split; [exact Hn|]. split.
  - rewrite list_lookup_insert_ne by congruence. exact Hp.
  - apply list_lookup_insert_eq. eapply lookup_lt_Some; eauto.
Qed.

Lemma reset_loop r pl ks : forall w asg u w',
  own w r pl asg ->
  for_each ks (fun k => assignment_store r k None) w = Ok (u, w') ->
  own w' r pl (fold_left (fun a k => dict_set k (@None Z) a) ks asg)
  /\ sols w' = sols w.
Proof.
  induction ks as [|k ks IH]; intros w asg u w' O H; simpl in H.
  - inversion H; subst. auto.
  - apply bind_ok in H as (u1 & w1 & H1 & H).
    destruct (assignment_store_own O H1) as [O1 S1].
    destruct (IH _ _ _ _ O1 H) as [O2 S2]. split; [exact O2|congruence].
Qed.

Lemma reset_get ks : forall (a : dict (option Z)) k,
  dict_get k (fold_left (fun a k => dict_set k (@None Z) a) ks a)
  = if existsb (Z.eqb k) ks then Some None else dict_get k a.
Proof.
  induction ks as [|k0 ks IH]; intros a k; simpl; [reflexivity|].
  rewrite IH. destruct (Z.eqb_spec k k0) as [E|N]; simpl.
  - subst k0. rewrite dict_get_set_eq. destruct (existsb _ ks); reflexivity.
  - rewrite dict_get_set_ne by congruence. reflexivity.
Qed.

Lemma reset_nodup ks : forall (a : dict (option Z)),
  NoDup (dict_keys a) ->
  NoDup (dict_keys (fold_left (fun a k => dict_set k (@None Z) a) ks a)).
Proof.
  induction ks as [|k ks IH]; intros a N; simpl; [exact N|].
  apply IH. apply dict_set_nodup. exact N.
Qed.

Lemma reset_all (a : dict (option Z)) k :
  dict_get_or_none k
    (fold_left (fun a k => dict_set k (@None Z) a) (dict_keys a) a) = None.
Proof.
  unfold dict_get_or_none. rewrite reset_get.
  destruct (existsb (Z.eqb k) (dict_keys a)) eqn:E; [reflexivity|].
  destruct (dict_get k a) as [v|] eqn:G; [|reflexivity].
  apply dict_get_In in G. apply (in_map fst) in G. simpl in G.
  assert (X : existsb (Z.eqb k) (dict_keys a) = true).
  { apply existsb_exists. exists k. split; [exact G|apply Z.eqb_refl]. }
  congruence.
Qed.

Lemma fold_m_readonly {A S} (f : S -> A -> M S) (J : S -> Prop) w l :
  (forall s x s1 w1, f s x w = Ok (s1, w1) -> w1 = w /\ (J s -> J s1)) ->
  forall s s' w', fold_m f l s w = Ok (s', w') -> w' = w /\ (J s -> J s').
Proof.
  intros Step. induction l as [|x l IH]; intros s s' w' H; simpl in H.
  - inversion H; subst. auto.
  - apply bind_ok in H as (s1 & w1 & H1 & H).
    destruct (Step _ _ _ _ H1) as [-> J1].
    destruct (IH _ _ _ H) as [-> J2]. auto.
Qed.

Lemma try_site_step p r pl asg d w best cand best' w' :
  own w r pl asg ->
  try_site p r d best cand w = Ok (best', w') ->
  w' = w /\ (site_found p pl asg d best -> site_found p pl asg d best').
Proof.
  intros O H. unfold try_site in H.
  apply bind_ok in H as (t & w1 & H1 & H).
  apply (placement_item_own O) in H1 as (-> & Ht).
  destruct t as [t|]; [|inversion H; subst; auto].
  apply bind_ok in H as (ct & w1 & H1 & H). apply lift_ok in H1 as [-> Hct].
  destruct (fl_leb (get_distance p (dev_id d) (cp_id cand))
              (Fin (coverage_radius ct))) eqn:Hr;
    [|inversion H; subst; auto].
  apply bind_ok in H as (a & w1 & H1 & H).
  apply (get_devices_assigned_to_own O) in H1 as (-> & ->).
  destruct (fits (devices_assigned_to p asg (cp_id cand)) d ct) eqn:Hf;
    [|inversion H; subst; auto].
  destruct (fl_ltb _ _); inversion H; subst; [|auto].
  split; [reflexivity|]. intros _ c Hc. simpl in Hc. inversion Hc; subst c.
  eauto 10.
Qed.

Lemma py_index_In {A} (l : list A) t x : py_index l t = Ok x -> In x l.
Proof.
  unfold py_index. cbv zeta. destruct (_ <? 0)%Z; [discriminate|].
  destruct (nth_error l _) eqn:E; [|discriminate].
  intros H. inversion H; subst. eapply nth_error_In; eauto.
Qed.

Section Reassign.

Variable p : CloudletPlacementProblem.
Variable pl : dict (option Z).
Variable r : loc.
Variable o : sol_obj.
Hypothesis distinct_ids : NoDup (map dev_id (devices p)).

Lemma reassign_step d rest w u w' :
  reassign_inv p pl r o (d :: rest) w ->
  (do best <- fold_m (try_site p r d) (candidate_points p) (None, PInf);
   match fst best with
   | Some best_cand => assign_device r (dev_id d) best_cand
   | None => ret tt
   end) w = Ok (u, w') ->
  reassign_inv p pl r o rest w'.
Proof.
  intros (Ho & done & asg & Ed & O & Na & Cap & Rad & Hrest) H.
  assert (Ed' : devices p = (done ++ [d]) ++ rest)
    by (rewrite <- app_assoc; exact Ed).
  assert (Ud : dict_get_or_none (dev_id d) asg = None)
    by (apply Hrest; left; reflexivity).
  assert (Other : forall e, In e done \/ In e rest -> dev_id e <> dev_id d).
  { intros e I E. rewrite Ed, map_app in distinct_ids. simpl in distinct_ids.
    apply NoDup_app in distinct_ids as (_ & X & Y).
    apply NoDup_cons in Y as [Y _]. destruct I as [I|I].
    - apply (X (dev_id e)).
      + apply list_elem_of_In. apply in_map. exact I.
      + rewrite E. left.
    - apply Y. rewrite <- E. apply list_elem_of_In. apply in_map. exact I. }
  apply bind_ok in H as (best & w1 & H1 & H).
  apply (fold_m_readonly (J:=site_found p pl asg d))
    in H1 as [-> F].
  2: { intros s x s1 w9 Hx. apply (try_site_step O Hx). }
  assert (F0 : site_found p pl asg d best).
  { apply F. intros c Hc. discriminate. }
  destruct (fst best) as [c|] eqn:Eb.
  - destruct (F0 c Eb) as (t & ct & Ht & Hct & Hr & Hf).
    pose proof (assign_device_sols H) as Hs.
    apply (assign_device_own O) in H. rewrite Ht in H.
    split; [rewrite Hs; exact Ho|].
    exists (done ++ [d]), (dict_set (dev_id d) (Some c) asg).
    split; [exact Ed'|]. split; [exact H|].
    split; [apply dict_set_nodup; exact Na|]. split; [|split].
    + intros pre x post s t0 ct0 Es Hx Hs0 Hct0.
      apply snoc_split in Es as [(_ & -> & ->)|(post' & _ & Es)].
      * unfold assigned_site, dict_get_or_none in Hx.
        rewrite dict_get_set_eq in Hx. inversion Hx; subst s.
        rewrite Ht in Hs0. inversion Hs0; subst t0.
        rewrite Hct in Hct0. inversion Hct0; subst ct0.
        rewrite filter_other_ids by (intros e I; apply Other; left; exact I).
        rewrite devices_assigned_at, Ed, filter_treated in Hf;
          [exact Hf|exact Hrest|exact Na].
      * assert (Nx : dev_id x <> dev_id d).
        { apply Other. left. rewrite Es. apply in_elt. }
        unfold assigned_site, dict_get_or_none in Hx.
        rewrite dict_get_set_ne in Hx by congruence.
        rewrite filter_other_ids.
        -- exact (Cap pre x post' s t0 ct0 Es Hx Hs0 Hct0).
        -- intros e I. apply Other. left. rewrite Es. apply in_or_app.
           left. exact I.
    + intros k s Hk. unfold dict_get_or_none in Hk.
      destruct (Z.eq_dec (dev_id d) k) as [E|N].
      * subst k. rewrite dict_get_set_eq in Hk. inversion Hk; subst s.
        eauto 10.
      * rewrite dict_get_set_ne in Hk by exact N. apply Rad. exact Hk.
    + intros e I. unfold dict_get_or_none.
      rewrite dict_get_set_ne.
      * apply Hrest. right. exact I.
      * intros E. apply (Other e); [right; exact I|congruence].
  - inversion H; subst. split; [exact Ho|]. exists (done ++ [d]), asg.
    split; [exact Ed'|]. split; [exact O|]. split; [exact Na|].
    split; [|split; [exact Rad|]].
    + intros pre x post s t0 ct0 Es Hx Hs0 Hct0.
      apply snoc_split in Es as [(_ & -> & ->)|(post' & _ & Es)].
      * unfold assigned_site in Hx. rewrite Ud in Hx. discriminate.
      * exact (Cap pre x post' s t0 ct0 Es Hx Hs0 Hct0).
    + intros e I. apply Hrest. right. exact I.
Qed.

End Reassign.

Lemma reassign_devices_inv ga s w r w' pl0 asg0 c0 l0 ok0 f0 :
  distinct (map dev_id (devices (problem ga))) = true ->
  distinct (dict_keys asg0) = true ->
  solution_state w s = Some (pl0, asg0, c0, l0, ok0, f0) ->
  reassign_devices ga s w = Ok (r, w') ->
  exists asg,
    solution_state w' r = Some (pl0, asg, c0, l0, ok0, f0) /\
    sols w !! r = None /\
    NoDup (dict_keys asg) /\
    assignment_sound (problem ga) pl0 asg.
Proof.
  intros Nd Na Hs H. apply distinct_NoDup in Nd, Na.
  unfold reassign_devices in H.
  apply bind_ok in H as (new & w1 & H1 & H).
  pose proof (clone_own Hs H1) as O.
  destruct (clone_state (problem ga) Hs) as (w1' & Hcl & Hst & _).
  rewrite Hcl in H1. inversion H1; subst new w1'. clear H1.
  apply solution_state_Some in Hst
    as (o1 & Ho1 & Hp1 & Ha1 & Ec & El & Eok & Ef).
  rewrite (bind_run _ (read_sol_run Ho1)) in H.
  rewrite (bind_run _ (read_dict_run Ha1)) in H.
  apply bind_ok in H as (u1 & w2 & H1 & H).
  destruct (reset_loop O H1) as [O2 S2].
  apply bind_ok in H as (u2 & w3 & H2 & H). inversion H; subst r w3. clear H.
  set (asg1 := fold_left (fun a k => dict_set k (@None Z) a)
                 (dict_keys asg0) asg0) in *.
  assert (N1 : NoDup (dict_keys asg1)) by (apply reset_nodup; exact Na).
  assert (I0 : reassign_inv (problem ga) pl0 (length (sols w)) o1
                 (devices (problem ga)) w2).
  { split; [rewrite S2; exact Ho1|]. exists [], asg1.
    split; [reflexivity|]. split; [exact O2|]. split; [exact N1|].
    split; [|split].
    - intros pre d post s0 t ct E. destruct pre; discriminate.
    - intros k s0 Hk. unfold asg1 in Hk. rewrite reset_all in Hk.
      discriminate.
    - intros d I. apply reset_all. }
  assert (L : reassign_inv (problem ga) pl0 (length (sols w)) o1 [] w').
  { eapply (@for_each_invariant _ _
              (reassign_inv (problem ga) pl0 (length (sols w)) o1));
      [|exact I0|exact H2].
    intros x rest w0 u0 w9 Ix Hx. eapply reassign_step; eauto. }
  destruct L as (Ho' & done & asg & Ed & O' & Na' & Cap & Rad & _).
  rewrite app_nil_r in Ed. subst done.
  exists asg. split; [|split; [|split; [exact Na'|split; assumption]]].
  - destruct O' as (o' & Ho'' & _ & Hp' & Ha').
    rewrite Ho' in Ho''. inversion Ho''; subst o'.
    apply solution_state_Some. exists o1. auto 10.
  - apply lookup_ge_None. lia.
Qed.

Lemma get_or_none_placed (pl : dict (option Z)) s t :
  dict_get_or_none s pl = Some t <-> dict_get s pl = Some (Some t).
Proof.
  unfold dict_get_or_none. destruct (dict_get s pl) as [[x|]|];
    split; congruence.
Qed.

(** X17. [reassign_devices] returns a new solution with the placement
    of its input and an assignment built from nothing.  Every device
    it assigns is at an occupied site whose type reaches it, and
    passed the capacity test of the code against the devices of that
    site that come before it in the scenario: the sum of their
    demands plus its own is at most the capacity, for cpu, memory and
    storage.  The scores of the returned solution are those of the
    input: they are not recomputed.  Device ids and assignment keys
    are pairwise distinct. *)
Theorem reassign_devices_sound ga s w r w' pl0 asg0 c0 l0 ok0 f0 :
  distinct (map dev_id (devices (problem ga))) = true ->
  distinct (dict_keys asg0) = true ->
  solution_state w s = Some (pl0, asg0, c0, l0, ok0, f0) ->
  reassign_devices ga s w = Ok (r, w') ->
  exists asg,
    solution_state w' r = Some (pl0, asg, c0, l0, ok0, f0) /\
    (forall d site, In d (devices (problem ga)) ->
       assigned_site asg d = Some site ->
       exists t ct,
         dict_get_or_none site pl0 = Some t /\
         py_index (cloudlet_types (problem ga)) t = Ok ct /\
         fl_leb (get_distance (problem ga) (dev_id d) site)
           (Fin (coverage_radius ct)) = true) /\
    (forall pre d post site t ct,
       devices (problem ga) = pre ++ d :: post ->
       assigned_site asg d = Some site ->
       dict_get_or_none site pl0 = Some t ->
       py_index (cloudlet_types (problem ga)) t = Ok ct ->
       fits (List.filter (at_site asg site) pre) d ct = true).
Proof.
  intros Nd Na Hs H.
  destruct (reassign_devices_inv Nd Na Hs H)
    as (asg & St & _ & _ & Cap & Rad).
  exists asg. split; [exact St|]. split.
  - intros d site _ Hd. destruct (Rad _ _ Hd) as (t & ct & Ht & Hct & Hr).
    exists t, ct. rewrite get_or_none_placed. auto.
  - intros pre d post site t ct E Hd Ht Hct.
    apply get_or_none_placed in Ht. exact (Cap pre d post site t ct E Hd Ht Hct).
Qed.

Lemma reassign_devices_sound_witness :
  exists r w' asg,
    reassign_devices (line_engine true) 0 gap_world = Ok (r, w') /\
    solution_state w' r = Some ([(0%Z, Some 0%Z)], asg, 0%Q, 0%Q, false, Fin 0) /\
    (forall pre d post site t ct,
       devices (line_problem 4) = pre ++ d :: post ->
       assigned_site asg d = Some site ->
       dict_get_or_none site [(0%Z, Some 0%Z)] = Some t ->
       py_index (cloudlet_types (line_problem 4)) t = Ok ct ->
       fits (List.filter (at_site asg site) pre) d ct = true).
Proof.
  destruct (reassign_devices (line_engine true) 0 gap_world)
    as [[r w']|e] eqn:E; [|vm_compute in E; discriminate].
  destruct (@reassign_devices_sound (line_engine true) 0 gap_world r w'
              [(0%Z, Some 0%Z)] [(0%Z, Some 0%Z); (1%Z, None); (2%Z, Some 0%Z)]
              0 0 false (Fin 0) eq_refl eq_refl eq_refl E)
    as (asg & H1 & _ & H3).
  exists r, w', asg. split; [reflexivity|]. split; [exact H1|exact H3].
Defined.

(* ================================================================= *)
(** ** What [repair_solution] adds *)

Lemma evaluate_scored p al r w f w' :
  evaluate p al r w = Ok (f, w') -> freshly_scored p al w' r.
Proof.
  intros H.
  apply evaluate_ok in H as (o & pl & asg & c & l & ok & Ho & Hp & Ha & E & ->).
  exists pl, asg, c, l, ok, f. split; [|exact E].
  apply solution_state_Some. exists (set_scores o c l f ok). simpl.
  split; [apply list_lookup_insert_eq; eapply lookup_lt_Some; eauto|].
  auto 10.
Qed.

Lemma evaluate_elsewhere p al r w f w' r' :
  r' <> r -> evaluate p al r w = Ok (f, w') ->
  solution_state w' r' = solution_state w r'.
Proof.
  intros N H.
  apply evaluate_ok in H as (o & pl & asg & c & l & ok & _ & _ & _ & _ & ->).
  unfold solution_state. simpl.
  rewrite list_lookup_insert_ne by congruence. reflexivity.
Qed.

Section Grows.

Variable p : CloudletPlacementProblem.
Variable r : loc.
Variables pl0 asg0 : dict (option Z).

Lemma force_place_grows d c w pl asg u w' :
  own w r pl asg -> grows pl0 asg0 pl asg ->
  dict_get (dev_id d) asg0 = Some None ->
  force_place p r d c w = Ok (u, w') ->
  exists pl' asg', own w' r pl' asg' /\ grows pl0 asg0 pl' asg'.
Proof.
  intros O [G1 G2] Ud H. unfold force_place in H.
  apply bind_ok in H as (t & w1 & H1 & H).
  apply (placement_item_own O) in H1 as (-> & Ht).
  destruct t as [t|]; simpl in H.
  { inversion H; subst. exists pl, asg. split; [exact O|split; assumption]. }
  destruct (find _ _) as [ct|].
  2: { inversion H; subst. exists pl, asg. split; [exact O|split; assumption]. }
  apply bind_ok in H as (u1 & w1 & H1 & H).
  apply (place_cloudlet_own O) in H1.
  assert (Em : dict_mem (cp_id c) pl = true)
    by (unfold dict_mem; rewrite Ht; reflexivity).
  rewrite Em in H1.
  apply (assign_device_own H1) in H. rewrite dict_get_set_eq in H.
  exists (dict_set (cp_id c) (Some (ct_id ct)) pl),
         (dict_set (dev_id d) (Some (cp_id c)) asg).
  split; [exact H|]. split.
  - intros s t0 E0. rewrite dict_get_set_ne; [auto|].
    intros E. subst s. rewrite (G1 _ _ E0) in Ht. discriminate.
  - intros k s E0. rewrite dict_get_set_ne; [auto|].
    intros E. subst k. congruence.
Qed.

Lemma repair_device_grows d w pl asg u w' :
  own w r pl asg -> grows pl0 asg0 pl asg ->
  dict_get (dev_id d) asg0 = Some None ->
  repair_device p r d w = Ok (u, w') ->
  exists pl' asg', own w' r pl' asg' /\ grows pl0 asg0 pl' asg'.
Proof.
  intros O G Ud H. unfold repair_device in H.
  apply bind_ok in H as (cwc & w1 & H1 & H).
  apply filter_m_readonly in H1 as (-> & _).
  2: { intros x b w9 Hx. apply bind_ok in Hx as (t & w8 & Hx & Hy).
       apply (placement_item_own O) in Hx as (-> & _).
       destruct t; inversion Hy; reflexivity. }
  apply bind_ok in H as (feasible & w1 & H1 & H).
  apply filter_m_readonly in H1 as (-> & _).
  2: { intros x b w9 Hx. apply (can_serve_own O) in Hx. tauto. }
  destruct feasible as [|c0 rest0].
  - apply (@for_each_invariant _ (force_place p r d)
             (fun _ w => exists pl' asg',
                own w r pl' asg' /\ grows pl0 asg0 pl' asg')
             (candidate_points p) w u w'); [| |exact H].
    + intros x rest w0 u0 w9 (pl1 & asg1 & O1 & G1) Hx.
      eapply force_place_grows; eauto.
    + eauto.
  - apply (assign_device_own O) in H. destruct G as [G1 G2].
    destruct (dict_get (cp_id (nearest p d c0 rest0)) pl) as [[t|]|].
    + exists pl, (dict_set (dev_id d) (Some (cp_id (nearest p d c0 rest0))) asg).
      split; [exact H|]. split; [exact G1|].
      intros k s E0. rewrite dict_get_set_ne; [auto|].
      intros E. subst k. congruence.
    + exists pl, asg. split; [exact H|split; assumption].
    + exists pl, asg. split; [exact H|split; assumption].
Qed.

End Grows.

(** X18. [repair_solution] only adds: in the solution it returns,
    every site that was occupied in its input holds the same type and
    every device that was assigned is at the same site; the scores it
    returns are those of the mappings it returns. *)
Theorem repair_only_adds ga s w r w' pl0 asg0 c0 l0 ok0 f0 :
  solution_state w s = Some (pl0, asg0, c0, l0, ok0, f0) ->
  repair_solution ga s w = Ok (r, w') ->
  exists pl asg c l ok f,
    solution_state w' r = Some (pl, asg, c, l, ok, f) /\
    evaluate_maps (problem ga) (alpha ga) pl asg = Ok (c, l, ok, f) /\
    (forall site t, dict_get_or_none site pl0 = Some t ->
       dict_get_or_none site pl = Some t) /\
    (forall k site, dict_get_or_none k asg0 = Some site ->
       dict_get_or_none k asg = Some site).
Proof.
  intros Hs H. unfold repair_solution in H.
  apply bind_ok in H as (rep & w1 & H1 & H).
  apply (clone_own Hs) in H1. rename H1 into O.
  apply bind_ok in H as (un & w2 & H1 & H).
  apply filter_m_readonly in H1 as (-> & Eu).
  2: { intros x b w9 Hx. apply bind_ok in Hx as (a & w8 & Hx & Hy).
       apply (assignment_item_own O) in Hx as (-> & _).
       inversion Hy; reflexivity. }
  apply bind_ok in H as (u & w2 & H1 & H).
  assert (L : (exists pl asg, own w2 rep pl asg /\ grows pl0 asg0 pl asg)
              /\ forall d, In d (@nil Device) ->
                   dict_get (dev_id d) asg0 = Some None).
  { apply (@for_each_invariant _ (repair_device (problem ga) rep)
             (fun rest w =>
                (exists pl asg, own w rep pl asg /\ grows pl0 asg0 pl asg)
                /\ forall d, In d rest -> dict_get (dev_id d) asg0 = Some None)
             un w1 u w2); [| |exact H1].
    - intros x rest w0 u0 w9 [(pl1 & asg1 & O1 & G1) Hr] Hx. split.
      + eapply repair_device_grows; eauto. apply Hr. left; reflexivity.
      + intros d I. apply Hr. right; exact I.
    - split; [exists pl0, asg0; split; [exact O|split; auto]|].
      intros d I. rewrite Eu in I. apply filter_In in I as [_ G].
      destruct ((do a <- assignment_item rep (dev_id d); ret (is_none a)) w1)
        as [[b w9]|e] eqn:Ea; [|discriminate].
      subst b. apply bind_ok in Ea as (a & w8 & Ea & Er).
      apply (assignment_item_own O) in Ea as (-> & Ea).
      inversion Er as [[Ei Ew]]. destruct a; [discriminate|exact Ea]. }
  destruct L as [(pl & asg & O2 & G1 & G2) _].
  apply bind_ok in H as (f & w3 & H2 & H). inversion H; subst rep w3. clear H.
  pose proof (evaluate_own O2 H2) as O3.
  destruct (evaluate_scored H2) as (pl' & asg' & c & l & ok & f' & St & Ev).
  destruct (own_state O3) as (c1 & l1 & ok1 & f1 & St').
  rewrite St in St'. inversion St'; subst.
  exists pl, asg, c1, l1, ok1, f1. split; [exact St|]. split; [exact Ev|].
  split.
  - intros site t Ht. apply get_or_none_placed in Ht.
    apply get_or_none_placed. auto.
  - intros k site Hk. apply get_or_none_placed in Hk.
    apply get_or_none_placed. auto.
Qed.

Lemma repair_only_adds_witness :
  exists r w' pl asg c l ok f,
    repair_solution (line_engine true) 0 gap_world = Ok (r, w') /\
    solution_state w' r = Some (pl, asg, c, l, ok, f) /\
    dict_get_or_none 0%Z pl = Some 0%Z /\
    dict_get_or_none 0%Z asg = Some 0%Z /\
    dict_get_or_none 2%Z asg = Some 0%Z.
Proof.
  destruct (repair_solution (line_engine true) 0 gap_world)
    as [[r w']|e] eqn:E; [|vm_compute in E; discriminate].
  destruct (@repair_only_adds (line_engine true) 0 gap_world r w'
              [(0%Z, Some 0%Z)] [(0%Z, Some 0%Z); (1%Z, None); (2%Z, Some 0%Z)]
              0 0 false (Fin 0) eq_refl E)
    as (pl & asg & c & l & ok & f & H1 & _ & H3 & H4).
  exists r, w', pl, asg, c, l, ok, f. split; [reflexivity|].
  split; [exact H1|]. split; [apply H3; reflexivity|].
  split; apply H4; reflexivity.
Defined.

(* ================================================================= *)
(** ** Scores that match the mappings *)

Lemma repair_solution_scored ga s w r w' :
  repair_solution ga s w = Ok (r, w') ->
  freshly_scored (problem ga) (alpha ga) w' r.
Proof.
  intros H. unfold repair_solution in H.
  apply bind_ok in H as (rep & w1 & _ & H).
  apply bind_ok in H as (un & w2 & _ & H).
  apply bind_ok in H as (u & w3 & _ & H).
  apply bind_ok in H as (f & w4 & H1 & H). inversion H; subst.
  eapply evaluate_scored; eauto.
Qed.

(** X19. The solutions that [mutate], [crossover], [repair_solution]
    and [create_random_solution] return carry the scores of their own
    mappings: total cost, total latency, feasibility flag and fitness
    are what [evaluate] computes from the placement and the assignment
    that the solution holds. *)
Theorem operators_return_scored ga w :
  (forall s r w', mutate ga s w = Ok (r, w') ->
     freshly_scored (problem ga) (alpha ga) w' r)
  /\ (forall p1 p2 c1 c2 w', crossover ga p1 p2 w = Ok ((c1, c2), w') ->
        freshly_scored (problem ga) (alpha ga) w' c1
        /\ freshly_scored (problem ga) (alpha ga) w' c2)
  /\ (forall s r w', repair_solution ga s w = Ok (r, w') ->
        freshly_scored (problem ga) (alpha ga) w' r)
  /\ (forall r w', create_random_solution ga w = Ok (r, w') ->
        freshly_scored (problem ga) (alpha ga) w' r).
Proof.
  split; [|split; [|split]].
  - intros s r w' H. unfold mutate in H.
    apply bind_ok in H as (m & w1 & _ & H).
    apply bind_ok in H as (u & w2 & _ & H).
    apply bind_ok in H as (m' & w3 & _ & H).
    apply bind_ok in H as (f & w4 & H1 & H). inversion H; subst.
    eapply evaluate_scored; eauto.
  - intros p1 p2 c1 c2 w' H. unfold crossover in H.
    apply bind_ok in H as (a & w1 & _ & H).
    apply bind_ok in H as (b & w2 & _ & H).
    apply bind_ok in H as (u & w3 & _ & H).
    apply bind_ok in H as ([x y] & w4 & _ & H).
    apply bind_ok in H as (f1 & w5 & H1 & H).
    apply bind_ok in H as (f2 & w6 & H2 & H). inversion H; subst.
    split; [|eapply evaluate_scored; eauto].
    destruct (Nat.eq_dec c1 c2) as [->|N]; [eapply evaluate_scored; eauto|].
    destruct (evaluate_scored H1) as (pl & asg & c & l & ok & f & St & Ev).
    exists pl, asg, c, l, ok, f. split; [|exact Ev].
    rewrite (evaluate_elsewhere N H2). exact St.
  - intros s r w'. apply repair_solution_scored.
  - intros r w' H. unfold create_random_solution in H.
    apply bind_ok in H as (sol & w1 & _ & H).
    apply bind_ok in H as (k & w2 & _ & H).
    apply bind_ok in H as (sel & w3 & _ & H).
    apply bind_ok in H as (u1 & w4 & _ & H).
    apply bind_ok in H as (sh & w5 & _ & H).
    apply bind_ok in H as (u2 & w6 & _ & H).
    apply bind_ok in H as (f & w7 & H1 & H).
    apply bind_ok in H as (o & w8 & H2 & H).
    apply read_sol_ok in H2 as [-> _].
    destruct (is_feasible o).
    + inversion H; subst. eapply evaluate_scored; eauto.
    + eapply repair_solution_scored; eauto.
Qed.

Lemma operators_return_scored_witness :
  exists r w',
    mutate (line_engine true) 0 line_world = Ok (r, w') /\
    freshly_scored (line_problem 4) (1 # 2) w' r.
Proof.
  destruct (mutate (line_engine true) 0 line_world)
    as [[r w']|e] eqn:E; [|vm_compute in E; discriminate].
  exists r, w'. split; [reflexivity|].
  exact (proj1 (@operators_return_scored (line_engine true) line_world) 0 r w' E).
Defined.

(* ================================================================= *)
(** ** What a mutation changes *)

Lemma own_same w w' r pl asg :
  sols w' = sols w -> dicts w' = dicts w -> own w r pl asg -> own w' r pl asg.
Proof.
  intros S D (o & Ho & Hn & Hp & Ha). exists o. rewrite S, D. auto.
Qed.

Lemma draw_frame n w w' :
  draw w = Ok (n, w') -> sols w' = sols w /\ dicts w' = dicts w.
Proof. unfold draw. intros H. inversion H; subst. auto. Qed.

Lemma random_random_frame u w w' :
  random_random w = Ok (u, w') -> sols w' = sols w /\ dicts w' = dicts w.
Proof.
  intros H. unfold random_random in H.
  apply bind_ok in H as (a & w1 & H1 & H). apply draw_frame in H1 as [S1 D1].
  apply bind_ok in H as (b & w2 & H2 & H). apply draw_frame in H2 as [S2 D2].
  inversion H; subst. split; congruence.
Qed.

Lemma random_randint_frame a b x w w' :
  random_randint a b w = Ok (x, w') -> sols w' = sols w /\ dicts w' = dicts w.
Proof.
  unfold random_randint. destruct (b <? a)%Z; [discriminate|]. intros H.
  apply bind_ok in H as (n & w1 & H1 & H). apply draw_frame in H1.
  inversion H; subst. exact H1.
Qed.

Lemma random_choice_frame {A} (l : list A) x w w' :
  random_choice l w = Ok (x, w') ->
  In x l /\ sols w' = sols w /\ dicts w' = dicts w.
Proof.
  unfold random_choice. destruct l as [|y l]; [discriminate|]. intros H.
  apply bind_ok in H as (n & w1 & H1 & H). apply draw_frame in H1.
  destruct (nth_error (y :: l) (n mod length (y :: l))) as [z|] eqn:E;
    [|discriminate].
  inversion H; subst. split; [eapply nth_error_In; eauto|exact H1].
Qed.

Lemma used_sites_own w r pl asg l w' :
  own w r pl asg -> used_sites r w = Ok (l, w') ->
  w' = w /\ forall c, In c l -> exists t, In (c, Some t) pl.
Proof.
  intros (o & Ho & _ & Hp & _) H. unfold used_sites in H.
  rewrite (bind_run _ (read_sol_run Ho)), (bind_run _ (read_dict_run Hp)) in H.
  inversion H; subst. split; [reflexivity|].
  intros c I. apply in_map_iff in I as ([k v] & E & I). simpl in E. subst k.
  apply filter_In in I as [I F]. destruct v as [t|]; [eauto|discriminate].
Qed.

Lemma placement_store_own w r pl asg k v u w' :
  own w r pl asg -> placement_store r k v w = Ok (u, w') ->
  own w' r (dict_set k v pl) asg.
Proof.
  intros (o & Ho & Hn & Hp & Ha) H. unfold placement_store in H.
  rewrite (bind_run _ (read_sol_run Ho)) in H.
  rewrite (dict_store_run _ _ Hp) in H. inversion H; subst.
  exists o. simpl. split; [exact Ho|]. split; [exact Hn|]. split.
  - apply list_lookup_insert_eq. eapply lookup_lt_Some; eauto.
  - rewrite list_lookup_insert_ne by congruence. exact Ha.
Qed.

Lemma remove_cloudlet_own w r pl asg c u w' :
  own w r pl asg -> NoDup (dict_keys asg) ->
  remove_cloudlet r c w = Ok (u, w') ->
  exists asg',
    own w' r (if dict_mem c pl then dict_set c None pl else pl) asg' /\
    NoDup (dict_keys asg').
Proof.
  intros O Nd H. pose proof O as (o & Ho & Hn & Hp & Ha).
  unfold remove_cloudlet in H.
  rewrite (bind_run _ (read_sol_run Ho)), (bind_run _ (read_dict_run Hp)) in H.
  destruct (dict_mem c pl); [|inversion H; subst; eauto].
  rewrite (bind_run _ (dict_store_run c None Hp)) in H.
  set (w1 := with_dicts w (<[placement_map o := dict_set c None pl]> (dicts w)))
    in *.
  assert (Ha1 : dicts w1 !! assignment_map o = Some asg).
  { unfold w1. simpl. rewrite list_lookup_insert_ne by congruence. exact Ha. }
  rewrite (bind_run _ (read_dict_run Ha1)) in H.
  destruct (@unassign_loop o c asg w1 asg Ha1) as (w2 & Hr & Hs & Hf & Hk).
  rewrite Hr in H. inversion H; subst w2. clear H.
  eexists. split.
  - exists o. split; [rewrite Hs; exact Ho|]. split; [exact Hn|].
    split; [|exact Hf]. rewrite Hk by exact Hn. unfold w1. simpl.
    apply list_lookup_insert_eq. eapply lookup_lt_Some; eauto.
  - rewrite unassign_keys; [exact Nd|].
    intros kv I. apply in_map. exact I.
Qed.

Lemma differ_at_one (pl : dict (option Z)) c v :
  exists a b : Z, forall k, k <> a -> k <> b ->
    dict_get k (dict_set c v pl) = dict_get k pl.
Proof.
  exists c, c. intros k N _. apply dict_get_set_ne. congruence.
Qed.

Lemma differ_at_none (pl : dict (option Z)) :
  exists a b : Z, forall k, k <> a -> k <> b -> dict_get k pl = dict_get k pl.
Proof. exists 0%Z, 0%Z. reflexivity. Qed.

Lemma dict_keys_set_known {V} k (v : V) d :
  In k (dict_keys d) -> dict_keys (dict_set k v d) = dict_keys d.
Proof.
  intros I. destruct (dict_get k d) as [x|] eqn:E.
  - eapply dict_keys_set_mem; eauto.
  - apply dict_get_None in E. contradiction.
Qed.

Lemma apply_mutation_own p m mt w pl asg u w' :
  own w m pl asg -> NoDup (dict_keys asg) ->
  apply_mutation p m mt w = Ok (u, w') ->
  exists pl' asg',
    own w' m pl' asg' /\ NoDup (dict_keys asg') /\
    dict_keys pl' = dict_keys pl /\
    exists a b : Z, forall k, k <> a -> k <> b ->
      dict_get k pl' = dict_get k pl.
Proof.
  intros O Nd H. destruct mt; unfold apply_mutation in H.
  - (* add *)
    apply bind_ok in H as (unused & w1 & H1 & H).
    apply filter_m_readonly in H1 as (-> & Eu).
    2: { intros x b w9 Hx. apply bind_ok in Hx as (t & w8 & Hx & Hy).
         apply (placement_item_own O) in Hx as (-> & _).
         inversion Hy; reflexivity. }
    destruct unused as [|c0 rest].
    { inversion H; subst. exists pl, asg.
      split; [exact O|]. split; [exact Nd|]. split; [reflexivity|].
      apply differ_at_none. }
    apply bind_ok in H as (c & w1 & H1 & H).
    apply random_choice_frame in H1 as (_ & S1 & D1).
    apply bind_ok in H as (ct & w2 & H2 & H).
    apply random_choice_frame in H2 as (_ & S2 & D2).
    assert (O2 : own w2 m pl asg).
    { apply (own_same (w:=w)); [congruence|congruence|exact O]. }
    apply (place_cloudlet_own O2) in H.
    destruct (dict_mem (cp_id c) pl) eqn:Em.
    + exists (dict_set (cp_id c) (Some (ct_id ct)) pl), asg.
      split; [exact H|]. split; [exact Nd|]. split.
      * destruct (dict_mem_get Em) as (v & Hv). eapply dict_keys_set_mem; eauto.
      * apply differ_at_one.
    + exists pl, asg. split; [exact H|]. split; [exact Nd|].
      split; [reflexivity|]. apply differ_at_none.
  - (* remove *)
    apply bind_ok in H as (used & w1 & H1 & H).
    apply (used_sites_own O) in H1 as (-> & _).
    destruct used as [|c0 rest].
    { inversion H; subst. exists pl, asg.
      split; [exact O|]. split; [exact Nd|]. split; [reflexivity|].
      apply differ_at_none. }
    apply bind_ok in H as (c & w1 & H1 & H).
    apply random_choice_frame in H1 as (_ & S1 & D1).
    assert (O1 : own w1 m pl asg) by (apply (own_same S1 D1 O)).
    destruct (remove_cloudlet_own O1 Nd H) as (asg' & O' & Nd').
    destruct (dict_mem c pl) eqn:Em.
    + exists (dict_set c None pl), asg'.
      split; [exact O'|]. split; [exact Nd'|]. split.
      * destruct (dict_mem_get Em) as (v & Hv). eapply dict_keys_set_mem; eauto.
      * apply differ_at_one.
    + exists pl, asg'. split; [exact O'|]. split; [exact Nd'|].
      split; [reflexivity|]. apply differ_at_none.
  - (* change *)
    apply bind_ok in H as (used & w1 & H1 & H).
    apply (used_sites_own O) in H1 as (-> & _).
    destruct used as [|c0 rest].
    { inversion H; subst. exists pl, asg.
      split; [exact O|]. split; [exact Nd|]. split; [reflexivity|].
      apply differ_at_none. }
    apply bind_ok in H as (c & w1 & H1 & H).
    apply random_choice_frame in H1 as (_ & S1 & D1).
    assert (O1 : own w1 m pl asg) by (apply (own_same S1 D1 O)).
    apply bind_ok in H as (cur & w2 & H2 & H).
    apply (placement_item_own O1) in H2 as (-> & _).
    destruct (map ct_id _) as [|t0 avail].
    { inversion H; subst. exists pl, asg.
      split; [exact O1|]. split; [exact Nd|]. split; [reflexivity|].
      apply differ_at_none. }
    apply bind_ok in H as (t & w2 & H2 & H).
    apply random_choice_frame in H2 as (_ & S2 & D2).
    assert (O2 : own w2 m pl asg) by (apply (own_same S2 D2 O1)).
    apply (place_cloudlet_own O2) in H.
    destruct (dict_mem c pl) eqn:Em.
    + exists (dict_set c (Some t) pl), asg.
      split; [exact H|]. split; [exact Nd|]. split.
      * destruct (dict_mem_get Em) as (v & Hv). eapply dict_keys_set_mem; eauto.
      * apply differ_at_one.
    + exists pl, asg. split; [exact H|]. split; [exact Nd|].
      split; [reflexivity|]. apply differ_at_none.
  - (* swap *)
    apply bind_ok in H as (used & w1 & H1 & H).
    apply (used_sites_own O) in H1 as (-> & _).
    destruct (2 <=? length used)%nat.
    2: { inversion H; subst. exists pl, asg.
         split; [exact O|]. split; [exact Nd|]. split; [reflexivity|].
         apply differ_at_none. }
    apply bind_ok in H as (pair & w1 & H1 & H).
    unfold random_sample in H1.
    destruct (length used <? 2)%nat; [discriminate|].
    apply sample_from_spec in H1 as (_ & _ & S1 & D1).
    assert (O1 : own w1 m pl asg) by (apply (own_same S1 D1 O)).
    destruct pair as [|c1 [|c2 [|c3 pair]]]; try discriminate.
    apply bind_ok in H as (t1 & w2 & H2 & H).
    apply (placement_item_own O1) in H2 as (-> & Ht1).
    apply bind_ok in H as (t2 & w2 & H2 & H).
    apply (placement_item_own O1) in H2 as (-> & Ht2).
    apply bind_ok in H as (u1 & w2 & H2 & H).
    apply (placement_store_own O1) in H2.
    apply (placement_store_own H2) in H.
    exists (dict_set c2 t1 (dict_set c1 t2 pl)), asg.
    split; [exact H|]. split; [exact Nd|]. split.
    + assert (K1 : dict_keys (dict_set c1 t2 pl) = dict_keys pl)
        by (eapply dict_keys_set_mem; eauto).
      rewrite dict_keys_set_known; [exact K1|]. rewrite K1.
      apply dict_get_In in Ht2. apply (in_map fst) in Ht2. exact Ht2.
    + exists c1, c2. intros k N1 N2.
      rewrite !dict_get_set_ne by congruence. reflexivity.
Qed.

Lemma NoDup_distinct l : NoDup l -> distinct l = true.
Proof.
  induction 1 as [|x l N _ IH]; simpl; [reflexivity|].
  rewrite IH, andb_true_r. apply negb_true_iff.
  destruct (existsb (Z.eqb x) l) eqn:E; [|reflexivity].
  apply existsb_exists in E as (y & I & E). apply Z.eqb_eq in E. subst y.
  exfalso. apply N. try apply list_elem_of_In. exact I.
Qed.

Lemma evaluate_keeps_maps p al r w f w' pl asg c0 l0 ok0 f0 :
  solution_state w r = Some (pl, asg, c0, l0, ok0, f0) ->
  evaluate p al r w = Ok (f, w') ->
  exists c l ok,
    solution_state w' r = Some (pl, asg, c, l, ok, f) /\
    evaluate_maps p al pl asg = Ok (c, l, ok, f).
Proof.
  intros Hs H. pose proof H as H0.
  apply evaluate_ok in H0
    as (o & pl1 & asg1 & c & l & ok & Ho & Hp & Ha & Ev & _).
  pose proof Hs as Hs0.
  apply solution_state_Some in Hs0 as (o2 & Ho2 & Hp2 & Ha2 & _).
  rewrite Ho in Ho2. inversion Ho2; subst o2.
  rewrite Hp in Hp2. rewrite Ha in Ha2. inversion Hp2; inversion Ha2; subst.
  destruct (evaluate_state Hs Ev) as (w'' & H1 & H2 & _).
  rewrite H in H1. inversion H1; subst. eauto.
Qed.

(** X20. What [mutate] returns.  The returned solution has the sites
    of its input as keys and a placement that differs from the input's
    at two sites at most.  Either both mappings are those of the input
    (no mutation was drawn), or the assignment was rebuilt by
    [reassign_devices]: every entry that names a site names an
    occupied one whose type reaches the device, and every assigned
    device passed the capacity test of the code against the devices
    of its site that come before it in the scenario.  The scores are
    those of the returned mappings.  Device ids and assignment keys
    are pairwise distinct. *)
Theorem mutate_result ga s w r w' pl0 asg0 c0 l0 ok0 f0 :
  distinct (map dev_id (devices (problem ga))) = true ->
  distinct (dict_keys asg0) = true ->
  solution_state w s = Some (pl0, asg0, c0, l0, ok0, f0) ->
  mutate ga s w = Ok (r, w') ->
  exists pl asg c l ok f,
    solution_state w' r = Some (pl, asg, c, l, ok, f) /\
    evaluate_maps (problem ga) (alpha ga) pl asg = Ok (c, l, ok, f) /\
    dict_keys pl = dict_keys pl0 /\
    (exists a b : Z, forall k, k <> a -> k <> b ->
       dict_get k pl = dict_get k pl0) /\
    ((pl = pl0 /\ asg = asg0) \/ assignment_sound (problem ga) pl asg).
Proof.
  intros Nd Na Hs H. unfold mutate in H.
  apply bind_ok in H as (m & w1 & H1 & H).
  pose proof (clone_own Hs H1) as O1.
  apply bind_ok in H as (u & w2 & H2 & H).
  apply random_random_frame in H2 as [S2 D2].
  pose proof (own_same S2 D2 O1) as O2.
  apply bind_ok in H as (m' & w3 & H3 & H).
  apply bind_ok in H as (f & w4 & H4 & H). inversion H; subst m' w4. clear H.
  destruct (Qltb u (mutation_rate ga)).
  - apply bind_ok in H3 as (mt & w5 & H5 & H3).
    apply random_choice_frame in H5 as (_ & S5 & D5).
    pose proof (own_same S5 D5 O2) as O5.
    apply bind_ok in H3 as (u6 & w6 & H6 & H3).
    destruct (apply_mutation_own O5 (distinct_NoDup Na) H6)
      as (pl' & asg' & O6 & Nd6 & K6 & Df).
    destruct (own_state O6) as (c6 & l6 & ok6 & f6 & St6).
    destruct (reassign_devices_inv Nd (NoDup_distinct Nd6) St6 H3)
      as (asg & St & _ & _ & Snd).
    destruct (evaluate_keeps_maps St H4) as (c & l & ok & St' & Ev).
    exists pl', asg, c, l, ok, f. auto 10.
  - inversion H3; subst m w3. clear H3.
    destruct (own_state O2) as (c2 & l2 & ok2 & f2 & St2).
    destruct (evaluate_keeps_maps St2 H4) as (c & l & ok & St' & Ev).
    exists pl0, asg0, c, l, ok, f.
    split; [exact St'|]. split; [exact Ev|]. split; [reflexivity|].
    split; [apply differ_at_none|]. left. auto.
Qed.

Lemma mutate_result_witness :
  exists r w' pl asg c l ok f,
    mutate (line_engine true) 0 gap_world = Ok (r, w') /\
    solution_state w' r = Some (pl, asg, c, l, ok, f) /\
    dict_keys pl = [0%Z].
Proof.
  destruct (mutate (line_engine true) 0 gap_world)
    as [[r w']|e] eqn:E; [|vm_compute in E; discriminate].
  destruct (@mutate_result (line_engine true) 0 gap_world r w'
              [(0%Z, Some 0%Z)] [(0%Z, Some 0%Z); (1%Z, None); (2%Z, Some 0%Z)]
              0 0 false (Fin 0) eq_refl eq_refl eq_refl E)
    as (pl & asg & c & l & ok & f & H1 & _ & H3 & _).
  exists r, w', pl, asg, c, l, ok, f. split; [reflexivity|]. split; assumption.
Defined.

(* ================================================================= *)
(** ** What [crossover] returns *)

Lemma placement_store_at w r o pl k v :
  sols w !! r = Some o -> dicts w !! placement_map o = Some pl ->
  placement_store r k v w
  = Ok (tt, with_dicts w (<[placement_map o := dict_set k v pl]> (dicts w))).
Proof.
  intros Ho Hp. unfold placement_store.
  rewrite (bind_run _ (read_sol_run Ho)). apply (dict_store_run _ _ Hp).
Qed.

Lemma placement_item_of w r pl k v w' :
  placement_of w r pl -> placement_item r k w = Ok (v, w') ->
  w' = w /\ dict_get k pl = Some v.
Proof.
  intros (o & Ho & Hp) H. unfold placement_item in H.
  rewrite (bind_run _ (read_sol_run Ho)) in H.
  rewrite (bind_run _ (read_dict_run Hp)) in H.
  apply lift_ok in H as [-> H]. split; [reflexivity|].
  unfold dict_item in H. destruct (dict_get k pl); inversion H; reflexivity.
Qed.

Lemma placement_of_kept w r pl l d :
  (forall o, sols w !! r = Some o -> placement_map o <> l) ->
  placement_of w r pl ->
  placement_of (with_dicts w (<[l := d]> (dicts w))) r pl.
Proof.
  intros N (o & Ho & Hp). exists o. simpl. split; [exact Ho|].
  rewrite list_lookup_insert_ne; [exact Hp|]. intros E. apply (N o Ho).
  congruence.
Qed.

Lemma assignment_of_kept w r asg l d :
  (forall o, sols w !! r = Some o -> assignment_map o <> l) ->
  assignment_of w r asg ->
  assignment_of (with_dicts w (<[l := d]> (dicts w))) r asg.
Proof.
  intros N (o & Ho & Hp). exists o. simpl. split; [exact Ho|].
  rewrite list_lookup_insert_ne; [exact Hp|]. intros E. apply (N o Ho).
  congruence.
Qed.

Lemma placement_of_written w r o pl d :
  sols w !! r = Some o -> dicts w !! placement_map o = Some pl ->
  placement_of (with_dicts w (<[placement_map o := d]> (dicts w))) r d.
Proof.
  intros Ho Hp. exists o. simpl. split; [exact Ho|].
  apply list_lookup_insert_eq. eapply lookup_lt_Some; eauto.
Qed.

Lemma swap_step p1 p2 a b pl1 asg1 pl2 asg2 i w u w' :
  swap_inv p1 p2 a b pl1 asg1 pl2 asg2 w ->
  swap_segment p1 p2 a b (dict_keys pl1) i w = Ok (u, w') ->
  swap_inv p1 p2 a b pl1 asg1 pl2 asg2 w'.
Proof.
  intros (Ap & P1 & P2 & A1 & A2 & ch1 & ch2 & Pa & Pb & K1 & K2 & Sw) H.
  unfold swap_segment in H.
  apply bind_ok in H as (k & w1 & H1 & H). apply lift_ok in H1 as [-> Hk].
  apply py_index_In in Hk.
  apply bind_ok in H as (v2 & w1 & H1 & H).
  apply (placement_item_of P2) in H1 as (-> & Hv2).
  apply bind_ok in H as (v1 & w1 & H1 & H).
  apply (placement_item_of P1) in H1 as (-> & Hv1).
  pose proof Ap as (op1 & op2 & oa & ob & Ho1 & Ho2 & Hoa & Hob & N).
  destruct N as (N1 & N2 & N3 & N4 & N5 & N6 & N7 & N8 & N9).
  pose proof Pa as (oa' & Hoa' & Dpa). rewrite Hoa in Hoa'.
  inversion Hoa'; subst oa'.
  pose proof Pb as (ob' & Hob' & Dpb). rewrite Hob in Hob'.
  inversion Hob'; subst ob'.
  rewrite (bind_run _ (placement_store_at k v2 Hoa Dpa)) in H.
  set (w1 := with_dicts w (<[placement_map oa := dict_set k v2 ch1]> (dicts w)))
    in *.
  assert (Dpb1 : dicts w1 !! placement_map ob = Some ch2).
  { unfold w1. simpl. rewrite list_lookup_insert_ne by congruence. exact Dpb. }
  rewrite (@placement_store_at w1 b ob ch2 k v1 Hob Dpb1) in H.
  inversion H; subst w'. clear H.
  assert (F : forall r o x, sols w !! r = Some x -> sols w !! r = Some o ->
            o = x) by (intros; congruence).
  split; [exact Ap|].
  split.
  { apply placement_of_kept; [intros o Ho; rewrite (F _ _ _ Ho1 Ho); congruence|].
    apply placement_of_kept; [intros o Ho; rewrite (F _ _ _ Ho1 Ho); congruence|].
    exact P1. }
  split.
  { apply placement_of_kept; [intros o Ho; rewrite (F _ _ _ Ho2 Ho); congruence|].
    apply placement_of_kept; [intros o Ho; rewrite (F _ _ _ Ho2 Ho); congruence|].
    exact P2. }
  split.
  { apply assignment_of_kept; [intros o Ho; rewrite (F _ _ _ Hoa Ho); congruence|].
    apply assignment_of_kept; [intros o Ho; rewrite (F _ _ _ Hoa Ho); congruence|].
    exact A1. }
  split.
  { apply assignment_of_kept; [intros o Ho; rewrite (F _ _ _ Hob Ho); congruence|].
    apply assignment_of_kept; [intros o Ho; rewrite (F _ _ _ Hob Ho); congruence|].
    exact A2. }
  exists (dict_set k v2 ch1), (dict_set k v1 ch2).
  split.
  { apply placement_of_kept; [intros o Ho; rewrite (F _ _ _ Hoa Ho); congruence|].
    eapply placement_of_written; eauto. }
  split.
  { eapply (@placement_of_written w1); eauto. }
  split.
  { rewrite dict_keys_set_known; [exact K1|]. rewrite K1. exact Hk. }
  split.
  { rewrite dict_keys_set_known; [exact K2|]. rewrite K2.
    apply dict_get_In in Hv2. apply (in_map fst) in Hv2. exact Hv2. }
  intros k'. destruct (Z.eq_dec k k') as [<-|Nk].
  - right. rewrite !dict_get_set_eq. auto.
  - rewrite !dict_get_set_ne by exact Nk. apply Sw.
Qed.

Lemma swap_inv_same p1 p2 a b pl1 asg1 pl2 asg2 w w' :
  sols w' = sols w -> dicts w' = dicts w ->
  swap_inv p1 p2 a b pl1 asg1 pl2 asg2 w ->
  swap_inv p1 p2 a b pl1 asg1 pl2 asg2 w'.
Proof.
  intros S D. unfold swap_inv, clones_apart, placement_of, assignment_of.
  rewrite S, D. auto.
Qed.

Lemma cloned_sols p o pd ad w :
  sols (cloned p o pd ad w) !! length (sols w)
  = Some {| placement_map := length (dicts w) + 2;
            assignment_map := length (dicts w) + 3;
            total_cost := total_cost o; total_latency := total_latency o;
            fitness := fitness o; is_feasible := is_feasible o |}.
Proof. unfold cloned. cbn [sols]. apply lookup_snoc. Qed.

Lemma cloned_placement p o pd ad w :
  dicts (cloned p o pd ad w) !! (length (dicts w) + 2) = Some pd.
Proof.
  unfold cloned. cbn [dicts]. rewrite lookup_app_r by lia.
  replace (length (dicts w) + 2 - length (dicts w)) with 2 by lia. reflexivity.
Qed.

Lemma cloned_assignment p o pd ad w :
  dicts (cloned p o pd ad w) !! (length (dicts w) + 3) = Some ad.
Proof.
  unfold cloned. cbn [dicts]. rewrite lookup_app_r by lia.
  replace (length (dicts w) + 3 - length (dicts w)) with 3 by lia. reflexivity.
Qed.

Lemma cloned_keeps_sols p o pd ad w r x :
  sols w !! r = Some x -> sols (cloned p o pd ad w) !! r = Some x.
Proof. intros H. unfold cloned. cbn [sols]. apply lookup_app_l_Some. exact H. Qed.

Lemma cloned_keeps_dicts p o pd ad w l x :
  dicts w !! l = Some x -> dicts (cloned p o pd ad w) !! l = Some x.
Proof. intros H. unfold cloned. cbn [dicts]. apply lookup_app_l_Some. exact H. Qed.

Lemma cloned_lengths p o pd ad w :
  length (sols (cloned p o pd ad w)) = S (length (sols w))
  /\ length (dicts (cloned p o pd ad w)) = length (dicts w) + 4.
Proof. unfold cloned. cbn [sols dicts]. rewrite !length_app. simpl. lia. Qed.

Lemma two_clones p w p1 p2 a b w1 w2 pl1 asg1 c1 l1 ok1 f1 pl2 asg2 c2 l2 ok2 f2 :
  solution_state w p1 = Some (pl1, asg1, c1, l1, ok1, f1) ->
  solution_state w p2 = Some (pl2, asg2, c2, l2, ok2, f2) ->
  clone p p1 w = Ok (a, w1) -> clone p p2 w1 = Ok (b, w2) ->
  swap_inv p1 p2 a b pl1 asg1 pl2 asg2 w2
  /\ a = length (sols w) /\ b = S (length (sols w))
  /\ length (sols w2) = S (S (length (sols w)))
  /\ segment_swapped pl1 pl2 pl1 pl2.
Proof.
  intros Hs1 Hs2 H1 H2.
  apply solution_state_Some in Hs1 as (o1 & Ho1 & Hp1 & Ha1 & _).
  apply solution_state_Some in Hs2 as (o2 & Ho2 & Hp2 & Ha2 & _).
  rewrite (clone_run p Ho1 Hp1 Ha1) in H1. inversion H1; subst a w1. clear H1.
  set (w1 := cloned p o1 pl1 asg1 w) in *.
  destruct (cloned_lengths p o1 pl1 asg1 w) as [Ls1 Ld1]. fold w1 in Ls1, Ld1.
  assert (Ho2' : sols w1 !! p2 = Some o2) by (apply cloned_keeps_sols; exact Ho2).
  assert (Hp2' : dicts w1 !! placement_map o2 = Some pl2)
    by (apply cloned_keeps_dicts; exact Hp2).
  assert (Ha2' : dicts w1 !! assignment_map o2 = Some asg2)
    by (apply cloned_keeps_dicts; exact Ha2).
  rewrite (clone_run p Ho2' Hp2' Ha2') in H2. inversion H2; subst b w2. clear H2.
  destruct (cloned_lengths p o2 pl2 asg2 w1) as [Ls2 Ld2].
  pose proof (lookup_lt_Some _ _ _ Hp1) as B1.
  pose proof (lookup_lt_Some _ _ _ Hp2) as B2.
  pose proof (cloned_sols p o1 pl1 asg1 w) as Sa. fold w1 in Sa.
  pose proof (cloned_sols p o2 pl2 asg2 w1) as Sb.
  assert (Sw : segment_swapped pl1 pl2 pl1 pl2) by (intros k; left; auto).
  split; [|split; [reflexivity|split; [exact Ls1|split; [lia|exact Sw]]]].
  split.
  { eexists o1, o2, _, _.
    split; [apply cloned_keeps_sols, cloned_keeps_sols; exact Ho1|].
    split; [apply cloned_keeps_sols; exact Ho2'|].
    split; [apply cloned_keeps_sols; exact Sa|].
    split; [exact Sb|]. cbn [placement_map assignment_map]. lia. }
  split.
  { exists o1. split; [apply cloned_keeps_sols, cloned_keeps_sols; exact Ho1|].
    apply cloned_keeps_dicts, cloned_keeps_dicts. exact Hp1. }
  split.
  { exists o2. split; [apply cloned_keeps_sols; exact Ho2'|].
    apply cloned_keeps_dicts. exact Hp2'. }
  split.
  { eexists. split; [apply cloned_keeps_sols; exact Sa|].
    cbn [assignment_map]. apply cloned_keeps_dicts. apply cloned_assignment. }
  split.
  { eexists. split; [exact Sb|]. cbn [assignment_map]. apply cloned_assignment. }
  exists pl1, pl2.
  split.
  { eexists. split; [apply cloned_keeps_sols; exact Sa|].
    cbn [placement_map]. apply cloned_keeps_dicts. apply cloned_placement. }
  split.
  { eexists. split; [exact Sb|]. cbn [placement_map]. apply cloned_placement. }
  auto.
Qed.

Lemma swap_inv_states p1 p2 a b pl1 asg1 pl2 asg2 w :
  swap_inv p1 p2 a b pl1 asg1 pl2 asg2 w ->
  exists ch1 ch2 sa sb,
    solution_state w a = Some (ch1, asg1, fst (fst (fst sa)), snd (fst (fst sa)),
                               snd (fst sa), snd sa) /\
    solution_state w b = Some (ch2, asg2, fst (fst (fst sb)), snd (fst (fst sb)),
                               snd (fst sb), snd sb) /\
    dict_keys ch1 = dict_keys pl1 /\ dict_keys ch2 = dict_keys pl2 /\
    segment_swapped pl1 pl2 ch1 ch2.
Proof.
  intros (_ & _ & _ & (oa & Hoa & Da) & (ob & Hob & Db)
          & ch1 & ch2 & (oa' & Hoa' & Pa) & (ob' & Hob' & Pb) & K1 & K2 & Sw).
  rewrite Hoa in Hoa'. inversion Hoa'; subst oa'.
  rewrite Hob in Hob'. inversion Hob'; subst ob'.
  exists ch1, ch2,
    (total_cost oa, total_latency oa, is_feasible oa, fitness oa),
    (total_cost ob, total_latency ob, is_feasible ob, fitness ob).
  simpl. split; [|split; [|auto]].
  - unfold solution_state. rewrite Hoa, Pa, Da. reflexivity.
  - unfold solution_state. rewrite Hob, Pb, Db. reflexivity.
Qed.

Lemma two_clones_states p w p1 p2 a b w1 w2 x1 x2 :
  solution_state w p1 = Some x1 -> solution_state w p2 = Some x2 ->
  clone p p1 w = Ok (a, w1) -> clone p p2 w1 = Ok (b, w2) ->
  solution_state w2 a = Some x1 /\ solution_state w2 b = Some x2.
Proof.
  intros Hs1 Hs2 H1 H2.
  destruct (clone_state p Hs1) as (w1' & E1 & S1 & L1 & P1).
  rewrite E1 in H1. inversion H1; subst a w1'. clear H1.
  destruct (clone_state p (P1 _ _ Hs2)) as (w2' & E2 & S2 & L2 & P2).
  rewrite E2 in H2. inversion H2; subst b w2'. clear H2.
  split; [apply P2; exact S1|exact S2].
Qed.

Lemma state_not_fresh w r x :
  solution_state w r = Some x -> sols w !! r = None -> False.
Proof. unfold solution_state. intros H E. rewrite E in H. discriminate. Qed.

(** X21. What [crossover] returns: two distinct solutions, each with
    the sites of its parent as keys.  At every site the children hold
    the parents' entries, each its own parent's or each the other
    parent's (inside the segment that was drawn).  Either the children
    are copies of their parents in placement and assignment, or both
    assignments were rebuilt by [reassign_devices]: every entry that
    names a site names an occupied one whose type reaches the device,
    and every assigned device passed the capacity test of the code
    against the devices of its site that come before it in the
    scenario.  The scores of each child are those of its own
    mappings.  Device ids and assignment keys are pairwise distinct. *)
Theorem crossover_result ga p1 p2 w c1 c2 w'
    pl1 asg1 k1 l1 ok1 f1 pl2 asg2 k2 l2 ok2 f2 :
  distinct (map dev_id (devices (problem ga))) = true ->
  distinct (dict_keys asg1) = true -> distinct (dict_keys asg2) = true ->
  solution_state w p1 = Some (pl1, asg1, k1, l1, ok1, f1) ->
  solution_state w p2 = Some (pl2, asg2, k2, l2, ok2, f2) ->
  crossover ga p1 p2 w = Ok ((c1, c2), w') ->
  exists ch1 a1 sc1 ch2 a2 sc2,
    solution_state w' c1
      = Some (ch1, a1, fst (fst (fst sc1)), snd (fst (fst sc1)),
              snd (fst sc1), snd sc1) /\
    solution_state w' c2
      = Some (ch2, a2, fst (fst (fst sc2)), snd (fst (fst sc2)),
              snd (fst sc2), snd sc2) /\
    evaluate_maps (problem ga) (alpha ga) ch1 a1 = Ok sc1 /\
    evaluate_maps (problem ga) (alpha ga) ch2 a2 = Ok sc2 /\
    c1 <> c2 /\
    dict_keys ch1 = dict_keys pl1 /\ dict_keys ch2 = dict_keys pl2 /\
    segment_swapped pl1 pl2 ch1 ch2 /\
    ((ch1 = pl1 /\ a1 = asg1 /\ ch2 = pl2 /\ a2 = asg2)
     \/ (assignment_sound (problem ga) ch1 a1
         /\ assignment_sound (problem ga) ch2 a2)).
Proof.
  intros Nd Na1 Na2 Hs1 Hs2 H. unfold crossover in H.
  apply bind_ok in H as (a & w1 & H1 & H).
  apply bind_ok in H as (b & w2 & H2 & H).
  apply bind_ok in H as (u & w3 & H3 & H).
  apply bind_ok in H as ([x y] & w4 & H4 & H).
  apply bind_ok in H as (fx & w5 & H5 & H).
  apply bind_ok in H as (fy & w6 & H6 & H). inversion H; subst x y w6. clear H.
  destruct (two_clones Hs1 Hs2 H1 H2) as (Inv2 & Ea & Eb & _ & Sw0).
  destruct (two_clones_states Hs1 Hs2 H1 H2) as [Sa2 Sb2].
  apply random_random_frame in H3 as [S3 D3].
  pose proof (swap_inv_same S3 D3 Inv2) as Inv3.
  rewrite <- (solution_state_same a S3 D3) in Sa2.
  rewrite <- (solution_state_same b S3 D3) in Sb2.
  assert (Nab : a <> b) by lia.
  assert (Post : exists ch1 a1 ch2 a2 s1 s2 s3 s4 t1 t2 t3 t4,
             solution_state w4 c1 = Some (ch1, a1, s1, s2, s3, s4) /\
             solution_state w4 c2 = Some (ch2, a2, t1, t2, t3, t4) /\
             c1 <> c2 /\
             dict_keys ch1 = dict_keys pl1 /\ dict_keys ch2 = dict_keys pl2 /\
             segment_swapped pl1 pl2 ch1 ch2 /\
             ((ch1 = pl1 /\ a1 = asg1 /\ ch2 = pl2 /\ a2 = asg2)
              \/ (assignment_sound (problem ga) ch1 a1
                  /\ assignment_sound (problem ga) ch2 a2))).
  { assert (Copy : forall wz, sols wz = sols w3 -> dicts wz = dicts w3 ->
              exists ch1 a1 ch2 a2 s1 s2 s3 s4 t1 t2 t3 t4,
                solution_state wz a = Some (ch1, a1, s1, s2, s3, s4) /\
                solution_state wz b = Some (ch2, a2, t1, t2, t3, t4) /\
                a <> b /\
                dict_keys ch1 = dict_keys pl1 /\ dict_keys ch2 = dict_keys pl2 /\
                segment_swapped pl1 pl2 ch1 ch2 /\
                ((ch1 = pl1 /\ a1 = asg1 /\ ch2 = pl2 /\ a2 = asg2)
                 \/ (assignment_sound (problem ga) ch1 a1
                     /\ assignment_sound (problem ga) ch2 a2))).
    { intros wz Sz Dz.
      exists pl1, asg1, pl2, asg2, k1, l1, ok1, f1, k2, l2, ok2, f2.
      rewrite !(solution_state_same _ Sz Dz). auto 12. }
    destruct (Qltb u (crossover_rate ga)).
    2: { inversion H4; subst. apply Copy; reflexivity. }
    apply bind_ok in H4 as (o1 & w7 & H7 & H4).
    apply read_sol_ok in H7 as [-> Ho1].
    apply bind_ok in H4 as (pd1 & w7 & H7 & H4).
    apply read_dict_ok in H7 as [-> Hpd1].
    assert (pd1 = pl1).
    { destruct Inv3 as (_ & (o & Ho & Hp) & _). congruence. }
    subst pd1. cbv zeta in H4.
    destruct (2 <=? Z.of_nat (length (dict_keys pl1)))%Z.
    2: { inversion H4; subst. apply Copy; reflexivity. }
    apply bind_ok in H4 as (i1 & w7 & H7 & H4).
    apply random_randint_frame in H7 as [S7 D7].
    apply bind_ok in H4 as (i2 & w8 & H8 & H4).
    apply random_randint_frame in H8 as [S8 D8].
    assert (Inv8 : swap_inv p1 p2 a b pl1 asg1 pl2 asg2 w8).
    { apply (swap_inv_same (w:=w3)); [congruence|congruence|exact Inv3]. }
    apply bind_ok in H4 as (u9 & w9 & H9 & H4).
    assert (Inv9 : swap_inv p1 p2 a b pl1 asg1 pl2 asg2 w9).
    { eapply (@for_each_invariant _ _
                (fun _ w => swap_inv p1 p2 a b pl1 asg1 pl2 asg2 w));
        [|exact Inv8|exact H9].
      intros i rest w0 u0 w10 I0 Hx. eapply swap_step; eauto. }
    destruct (swap_inv_states Inv9)
      as (ch1 & ch2 & sa & sb & Sa9 & Sb9 & K1 & K2 & Sw).
    apply bind_ok in H4 as (r1 & w10 & H10 & H4).
    apply bind_ok in H4 as (r2 & w11 & H11 & H4).
    inversion H4; subst r1 r2 w11. clear H4.
    destruct (reassign_devices_inv Nd Na1 Sa9 H10)
      as (a1 & St1 & _ & _ & Snd1).
    destruct (safe_run (@safe_reassign_devices _ kept_true _ _ ga a) H10)
      as [P10 _].
    assert (Sb10 : solution_state w10 b = solution_state w9 b)
      by (apply P10; congruence).
    rewrite Sb9 in Sb10.
    destruct (reassign_devices_inv Nd Na2 Sb10 H11)
      as (a2 & St2 & Fr2 & _ & Snd2).
    destruct (safe_run (@safe_reassign_devices _ kept_true _ _ ga b) H11)
      as [P11 _].
    assert (St1' : solution_state w4 c1 = solution_state w10 c1)
      by (apply P11; congruence).
    rewrite St1 in St1'.
    do 12 eexists. split; [exact St1'|]. split; [exact St2|].
    split; [intros E; rewrite <- E in Fr2; exact (state_not_fresh St1 Fr2)|].
    split; [exact K1|]. split; [exact K2|]. split; [exact Sw|].
    right. split; assumption. }
  destruct Post as (ch1 & a1 & ch2 & a2 & s1 & s2 & s3 & s4 & t1 & t2 & t3 & t4
                    & St1 & St2 & N12 & K1 & K2 & Sw & Alt).
  destruct (evaluate_keeps_maps St1 H5) as (x1 & x2 & x3 & St1' & Ev1).
  rewrite <- (evaluate_elsewhere (r':=c2) (not_eq_sym N12) H5) in St2.
  destruct (evaluate_keeps_maps St2 H6) as (y1 & y2 & y3 & St2' & Ev2).
  rewrite <- (evaluate_elsewhere (r':=c1) N12 H6) in St1'.
  exists ch1, a1, (x1, x2, x3, fx), ch2, a2, (y1, y2, y3, fy). simpl.
  auto 12.
Qed.

Lemma crossover_result_witness :
  exists c1 c2 w',
    crossover (line_engine true) 0 0 gap_world = Ok ((c1, c2), w')
    /\ c1 <> c2.
Proof.
  destruct (crossover (line_engine true) 0 0 gap_world)
    as [[[c1 c2] w']|e] eqn:E; [|vm_compute in E; discriminate].
  destruct (@crossover_result (line_engine true) 0 0 gap_world c1 c2 w'
              [(0%Z, Some 0%Z)] [(0%Z, Some 0%Z); (1%Z, None); (2%Z, Some 0%Z)]
              0 0 false (Fin 0)
              [(0%Z, Some 0%Z)] [(0%Z, Some 0%Z); (1%Z, None); (2%Z, Some 0%Z)]
              0 0 false (Fin 0)
              eq_refl eq_refl eq_refl eq_refl eq_refl E)
    as (ch1 & a1 & sc1 & ch2 & a2 & sc2 & _ & _ & _ & _ & N & _).
  exists c1, c2, w'. split; [reflexivity|exact N].
Defined.

(* ================================================================= *)
(** ** The solution that [evolve] returns *)

Lemma update_keeps_feasible ga w ga' w' :
  (forall b, best_solution ga = Some b -> feasible_at w b = true) ->
  update_best_solution ga w = Ok (ga', w') ->
  forall b, best_solution ga' = Some b -> feasible_at w' b = true.
Proof.
  intros I H. apply update_best_solution_run in H.
  assert (C : forall cb c, best_member w (population ga) = Some cb ->
            clone (problem ga) cb w = Ok (c, w') -> feasible_at w' c = true).
  { intros cb c Hb Hc. apply best_member_In in Hb as [_ Fb].
    apply feasible_at_Some in Fb as (o & Ho & Fo).
    apply clone_objects in Hc as (o1 & o' & Ho1 & -> & Hs & _ & _ & _ & Hf).
    rewrite Ho in Ho1. inversion Ho1; subst o1.
    unfold feasible_at. rewrite Hs, lookup_snoc. congruence. }
  destruct (best_member w (population ga)) as [cb|] eqn:Eb.
  - destruct H as (_ & H). destruct (best_solution ga) as [b0|] eqn:E0.
    + destruct H as (_ & H).
      destruct (fl_ltb (fitness_at w cb) (fitness_at w b0)).
      * destruct H as (c & Hc & ->). simpl. intros b Hb. inversion Hb; subst.
        eapply C; eauto.
      * destruct H as [-> ->]. rewrite E0. exact I.
    + destruct H as (c & Hc & ->). simpl. intros b Hb. inversion Hb; subst.
      eapply C; eauto.
  - destruct H as [-> ->]. exact I.
Qed.

Section Returned.

Variable math_exp : Q -> Q.

Lemma generation_keeps_feasible ga g w ga' w' :
  (forall b, best_solution ga = Some b -> feasible_at w b = true) ->
  generation_step math_exp ga g w = Ok (ga', w') ->
  forall b, best_solution ga' = Some b -> feasible_at w' b = true.
Proof.
  intros I H.
  destruct (@generation_step_run math_exp (fun _ => True) ga g w ga' w'
              kept_true (fun _ _ _ => Logic.I) H)
    as (extra & w1 & ga2 & St & _ & _ & H2 & H3).
  apply record_generation_run in H3 as (_ & Eb & _). rewrite Eb.
  eapply update_keeps_feasible; [|exact H2].
  simpl. intros b Hb. specialize (I b Hb).
  apply feasible_at_Some in I as (o & Ho & Fo).
  destruct St as (A & _). unfold feasible_at.
  rewrite A by (eapply lookup_lt_Some; eauto). rewrite Ho. exact Fo.
Qed.

Lemma run_keeps_feasible k : forall ga w ga' w',
  (forall b, best_solution ga = Some b -> feasible_at w b = true) ->
  run_generations math_exp k ga w = Ok (ga', w') ->
  forall b, best_solution ga' = Some b -> feasible_at w' b = true.
Proof.
  induction k as [|k IH]; intros ga w ga' w' I H; simpl in H.
  - inversion H; subst. exact I.
  - apply bind_ok in H as (ga1 & w1 & H1 & H).
    eapply generation_keeps_feasible; [|exact H]. eapply IH; eauto.
Qed.

(** X22. When [evolve], started on a new engine, returns a solution,
    that solution is flagged feasible: the incumbent is only ever a
    copy of a population member flagged feasible, and no later step
    writes to it. *)
Theorem evolve_returns_feasible p psize gens cr mr al sa w b ga' w' :
  evolve math_exp (new_engine p psize gens cr mr al sa) w
    = Ok ((Some b, ga'), w') ->
  exists o, sols w' !! b = Some o /\ is_feasible o = true.
Proof.
  intros H. unfold evolve in H.
  apply bind_ok in H as (ga1 & w1 & H1 & H).
  apply bind_ok in H as (ga2 & w2 & H2 & H). inversion H; subst ga' w2.
  rename H3 into Eb. clear H.
  assert (I1 : forall b, best_solution ga1 = Some b -> feasible_at w1 b = true).
  { unfold initialize_population in H1.
    apply bind_ok in H1 as (pop & w0 & _ & H1).
    eapply update_keeps_feasible; [|exact H1]. simpl. discriminate. }
  apply feasible_at_Some. exact (run_keeps_feasible I1 H2 Eb).
Qed.

End Returned.

Lemma evolve_returns_feasible_witness :
  exists b ga' w' o,
    evolve exp_lower (line_engine true) empty_world = Ok ((Some b, ga'), w')
    /\ sols w' !! b = Some o /\ is_feasible o = true.
Proof.
  destruct (evolve exp_lower (line_engine true) empty_world)
    as [[[[b|] ga'] w']|e] eqn:E;
    [|vm_compute in E; discriminate|vm_compute in E; discriminate].
  destruct (@evolve_returns_feasible exp_lower (line_problem 4) 3 2
              (8 # 10) (2 # 10) (1 # 2) true empty_world b ga' w' E)
    as (o & Ho & Fo).
  exists b, ga', w', o. auto.
Defined.

(* ================================================================= *)
(** ** The fitness series *)

Lemma entry_of_engine ga w :
  engine_ok ga w ->
  (best_solution ga = None /\
   fst (fst (generation_entry w (population ga))) = PInf)
  \/ exists b bo q,
       best_solution ga = Some b /\ sols w !! b = Some bo /\
       fitness bo = Fin q /\
       fst (fst (generation_entry w (population ga))) = Fin q.
Proof.
  intros (Sc & If & _). unfold incumbent_follows in If.
  unfold generation_entry.
  destruct (best_member w (population ga)) as [r|] eqn:Eb.
  - right. destruct If as (b & ro & bo & Hb & Hr & Ho & (Ef & _)).
    apply best_member_In in Eb as [_ Fr].
    apply feasible_at_Some in Fr as (o & Ho' & Fo).
    rewrite Hr in Ho'. inversion Ho'; subst o.
    destruct (proj1 (scored_store_spec w) Sc _ _ Hr Fo) as (q & Eq).
    exists b, bo, q. rewrite Hr. simpl. split; [exact Hb|].
    split; [exact Ho|]. split; congruence.
  - left. auto.
Qed.

(** X23. The fitness series never rises: after [evolve] on a new
    engine, the entry of a generation is at or below the entry of every
    earlier generation ([inf] while no feasible individual has
    appeared).  The store that [evolve] starts from has no feasible
    solution with a fitness that is not a number. *)
Theorem fitness_history_never_rises math_exp p psize gens cr mr al sa w b ga' w' :
  scored_store w = true ->
  evolve math_exp (new_engine p psize gens cr mr al sa) w = Ok ((b, ga'), w') ->
  forall i j, i <= j -> j < gens ->
    fl_le (nth j (fitness_history ga') NaN) (nth i (fitness_history ga') NaN).
Proof.
  intros Sc H i j Lij Lj. unfold evolve in H.
  apply bind_ok in H as (ga1 & w1 & H1 & H).
  apply bind_ok in H as (ga2 & w2 & H2 & H). inversion H; subst; clear H.
  destruct (initialize_population_ok
              (ga:=new_engine p psize gens cr mr al sa) Sc eq_refl H1)
    as (Ok1 & Eps & Eg & Ef & Ec & El).
  simpl in Eg, Ef, Ec, El. rewrite Eg in H2.
  destruct (run_generations_entries Ok1 H2)
    as (_ & _ & _ & fs & cs & ls & Ef2 & _ & _ & _ & _ & _ & Hg).
  rewrite Ef in Ef2. simpl in Ef2. rewrite Ef2.
  destruct (Hg i) as (ga_i & w_i & Hri & Hei); [lia|].
  destruct (Hg j Lj) as (ga_j & w_j & Hrj & Hej).
  destruct (run_generations_entries Ok1 Hri) as (Oki & _).
  destruct (run_generations_entries Ok1 Hrj) as (Okj & _).
  assert (Ei : nth i fs NaN = fst (fst (generation_entry w_i (population ga_i))))
    by (rewrite <- Hei; reflexivity).
  assert (Ej : nth j fs NaN = fst (fst (generation_entry w_j (population ga_j))))
    by (rewrite <- Hej; reflexivity).
  rewrite Ei, Ej.
  destruct (entry_of_engine Oki) as [[Ni ->]|(bi & boi & qi & Hbi & Hoi & Fi & ->)];
    destruct (entry_of_engine Okj) as [[Nj ->]|(bj & boj & qj & Hbj & Hoj & Fj & ->)].
  - left. reflexivity.
  - right. reflexivity.
  - destruct (@run_never_worsens math_exp ga1 w1 (S i) (S j) ga_i w_i ga_j w_j
                bi boi) as (b' & bo' & Hb' & _); try assumption; [lia|].
    congruence.
  - destruct (@run_never_worsens math_exp ga1 w1 (S i) (S j) ga_i w_i ga_j w_j
                bi boi) as (b' & bo' & Hb' & Ho' & Le); try assumption; [lia|].
    rewrite Hbj in Hb'. inversion Hb'; subst b'.
    rewrite Hoj in Ho'. inversion Ho'; subst bo'.
    rewrite Fi, Fj in Le. exact Le.
Qed.

Lemma fitness_history_never_rises_witness :
  exists b ga' w',
    evolve exp_lower (line_engine true) empty_world = Ok ((b, ga'), w') /\
    fl_le (nth 1 (fitness_history ga') NaN) (nth 0 (fitness_history ga') NaN).
Proof.
  destruct (evolve exp_lower (line_engine true) empty_world)
    as [[[b ga'] w']|e] eqn:E; [|vm_compute in E; discriminate].
  exists b, ga', w'. split; [reflexivity|].
  apply (@fitness_history_never_rises exp_lower (line_problem 4) 3 2
           (8 # 10) (2 # 10) (1 # 2) true empty_world b ga' w' eq_refl E 0 1);
    lia.
Defined.

(* ================================================================= *)
(** ** [reassign_devices] as a greedy assignment *)

Lemma try_site_run p r pl asg d w best c best' w' :
  own w r pl asg ->
  try_site p r d best c w = Ok (best', w') ->
  w' = w /\
  best' = if serves p pl asg d c
          then if fl_ltb (get_distance p (dev_id d) (cp_id c)) (snd best)
               then (Some (cp_id c), get_distance p (dev_id d) (cp_id c))
               else best
          else best.
Proof.
  intros O H. unfold try_site in H. unfold serves.
  apply bind_ok in H as (t & w1 & H1 & H).
  apply (placement_item_own O) in H1 as (-> & Ht). rewrite Ht.
  destruct t as [t|]; [|inversion H; subst; auto].
  apply bind_ok in H as (ct & w1 & H1 & H). apply lift_ok in H1 as [-> Hct].
  rewrite Hct.
  destruct (fl_leb (get_distance p (dev_id d) (cp_id c))
              (Fin (coverage_radius ct))); simpl;
    [|inversion H; subst; auto].
  apply bind_ok in H as (a & w1 & H1 & H).
  apply (get_devices_assigned_to_own O) in H1 as (-> & ->).
  destruct (fits (devices_assigned_to p asg (cp_id c)) d ct);
    [|inversion H; subst; auto].
  destruct (fl_ltb _ _); inversion H; subst; auto.
Qed.

Lemma serves_finite p pl asg d c :
  serves p pl asg d c = true ->
  fl_ltb (get_distance p (dev_id d) (cp_id c)) PInf = true.
Proof.
  unfold serves. destruct (dict_get (cp_id c) pl) as [[t|]|]; try discriminate.
  destruct (py_index (cloudlet_types p) t) as [ct|]; [|discriminate].
  intros H. apply andb_true_iff in H as [H _].
  destruct (get_distance_cases p (dev_id d) (cp_id c)) as [E|(q & E)];
    rewrite E in *; [discriminate|reflexivity].
Qed.

Lemma scan_from p r pl asg d w :
  own w r pl asg ->
  forall cands b best w',
    fold_m (try_site p r d) cands
      (Some (cp_id b), get_distance p (dev_id d) (cp_id b)) w = Ok (best, w') ->
    w' = w /\
    fst best = Some (cp_id (nearest p d b (List.filter (serves p pl asg d) cands))).
Proof.
  intros O. induction cands as [|c cands IH]; intros b best w' H; simpl in H.
  - inversion H; subst. auto.
  - apply bind_ok in H as (s1 & w1 & H1 & H).
    apply (try_site_run O) in H1 as (-> & ->). cbn [snd] in H.
    simpl List.filter.
    destruct (serves p pl asg d c).
    + unfold nearest. cbn [min_by].
      destruct (fl_ltb (get_distance p (dev_id d) (cp_id c))
                  (get_distance p (dev_id d) (cp_id b))); apply (IH _ _ _ H).
    + apply (IH _ _ _ H).
Qed.

Lemma scan_start p r pl asg d w :
  own w r pl asg ->
  forall cands best w',
    fold_m (try_site p r d) cands (None, PInf) w = Ok (best, w') ->
    w' = w /\
    fst best = match List.filter (serves p pl asg d) cands with
               | [] => None
               | c0 :: rest => Some (cp_id (nearest p d c0 rest))
               end.
Proof.
  intros O. induction cands as [|c cands IH]; intros best w' H; simpl in H.
  - inversion H; subst. auto.
  - apply bind_ok in H as (s1 & w1 & H1 & H).
    apply (try_site_run O) in H1 as (-> & ->). cbn [snd] in H.
    simpl List.filter.
    destruct (serves p pl asg d c) eqn:Es.
    + rewrite (serves_finite Es) in H. apply (scan_from O H).
    + apply (IH _ _ H).
Qed.

Lemma nearest_serves p pl asg d c0 rest cands :
  List.filter (serves p pl asg d) cands = c0 :: rest ->
  exists t, dict_get (cp_id (nearest p d c0 rest)) pl = Some (Some t).
Proof.
  intros F.
  assert (I : In (nearest p d c0 rest) (c0 :: rest)) by apply min_by_In.
  rewrite <- F in I. apply filter_In in I as [_ S]. unfold serves in S.
  destruct (dict_get (cp_id (nearest p d c0 rest)) pl) as [[t|]|];
    try discriminate. eauto.
Qed.

Lemma greedy_body p r pl asg d w u w' :
  own w r pl asg ->
  (do best <- fold_m (try_site p r d) (candidate_points p) (None, PInf);
   match fst best with
   | Some best_cand => assign_device r (dev_id d) best_cand
   | None => ret tt
   end) w = Ok (u, w') ->
  own w' r pl (greedy_step p pl asg d) /\ sols w' = sols w.
Proof.
  intros O H. apply bind_ok in H as (best & w1 & H1 & H).
  apply (scan_start O) in H1 as (-> & Eb). rewrite Eb in H. unfold greedy_step.
  destruct (List.filter (serves p pl asg d) (candidate_points p))
    as [|c0 rest] eqn:F.
  - inversion H; subst. auto.
  - destruct (nearest_serves F) as (t & Ht).
    split; [|eapply assign_device_sols; eauto].
    apply (assign_device_own O) in H. rewrite Ht in H. exact H.
Qed.

(** X24. [reassign_devices] computes the greedy assignment: on a copy
    of the placement of its input, starting with no device assigned,
    it takes the devices in the order of the scenario and gives each
    one to the nearest site that is occupied, reaches it and has room
    for it given the devices already taken, the first such site on a
    tie, and to no site when there is none.  The scores of the result
    are those of the input. *)
Theorem reassign_devices_greedy ga s w r w' pl0 asg0 c0 l0 ok0 f0 :
  solution_state w s = Some (pl0, asg0, c0, l0, ok0, f0) ->
  reassign_devices ga s w = Ok (r, w') ->
  solution_state w' r
  = Some (pl0, greedy_assignment (problem ga) pl0 asg0, c0, l0, ok0, f0).
Proof.
  intros Hs H. unfold reassign_devices in H.
  apply bind_ok in H as (new & w1 & H1 & H).
  pose proof (clone_own Hs H1) as O.
  destruct (clone_state (problem ga) Hs) as (w1' & Hcl & Hst & _).
  rewrite Hcl in H1. inversion H1; subst new w1'. clear H1.
  apply solution_state_Some in Hst
    as (o1 & Ho1 & Hp1 & Ha1 & Ec & El & Eok & Ef).
  rewrite (bind_run _ (read_sol_run Ho1)) in H.
  rewrite (bind_run _ (read_dict_run Ha1)) in H.
  apply bind_ok in H as (u1 & w2 & H1 & H).
  destruct (reset_loop O H1) as [O2 S2]. fold (unassign_all asg0) in O2.
  apply bind_ok in H as (u2 & w3 & H2 & H). inversion H; subst r w3. clear H.
  assert (L : sols w' !! length (sols w) = Some o1 /\
              exists asg, own w' (length (sols w)) pl0 asg /\
                fold_left (greedy_step (problem ga) pl0) (@nil Device) asg
                = greedy_assignment (problem ga) pl0 asg0).
  { eapply (@for_each_invariant _ _
              (fun rest wx =>
                 sols wx !! length (sols w) = Some o1 /\
                 exists asg, own wx (length (sols w)) pl0 asg /\
                   fold_left (greedy_step (problem ga) pl0) rest asg
                   = greedy_assignment (problem ga) pl0 asg0));
      [| |exact H2].
    - intros d rest w0 u0 w9 (So & asg & Oa & Ea) Hx.
      destruct (greedy_body Oa Hx) as [O' S'].
      split; [rewrite S'; exact So|].
      exists (greedy_step (problem ga) pl0 asg d). split; [exact O'|exact Ea].
    - split; [rewrite S2; exact Ho1|].
      exists (unassign_all asg0). split; [exact O2|reflexivity]. }
  destruct L as (Ho' & asg & (o' & Ho'' & _ & Hp' & Ha') & Ea).
  simpl in Ea. subst asg.
  rewrite Ho' in Ho''. inversion Ho''; subst o'.
  apply solution_state_Some. exists o1. auto 10.
Qed.

Lemma reassign_devices_greedy_witness :
  exists r w',
    reassign_devices (line_engine true) 0 gap_world = Ok (r, w') /\
    solution_state w' r
    = Some ([(0%Z, Some 0%Z)],
            [(0%Z, Some 0%Z); (1%Z, Some 0%Z); (2%Z, Some 0%Z)],
            0%Q, 0%Q, false, Fin 0).
Proof.
  destruct (reassign_devices (line_engine true) 0 gap_world)
    as [[r w']|e] eqn:E; [|vm_compute in E; discriminate].
  exists r, w'. split; [reflexivity|].
  rewrite (@reassign_devices_greedy (line_engine true) 0 gap_world r w'
             [(0%Z, Some 0%Z)] [(0%Z, Some 0%Z); (1%Z, None); (2%Z, Some 0%Z)]
             0 0 false (Fin 0) eq_refl E).
  reflexivity.
Defined.

